(** * RaftCmdLine: the command-line plugin loader and pipeline runner

  A shallow embedding of [branches/raft3/RaftCmdLine.py].  The runner is
  Python code that mutates one [RaftCmdLine] object, calls externally
  supplied code (plugins, format parsers, the file system) and may raise.
  It is modelled as a state-and-exception monad over

  - the attributes of the [RaftCmdLine] object,
  - an abstract world [W] that external code reads and changes,
  - a trace of the calls and writes the runner itself performs.  *)

From Stdlib Require Import Ascii.
From stdpp Require Import gmap strings list fin_maps.

Set Default Proof Using "Type".

(** ** Python values, errors and outcomes *)

(** The values that travel through the pipeline: raw records, captures and
  what a capability returns.  [PyObj] is a reference to an object of a
  class that defines neither [__bool__] nor [__len__]. *)
Inductive pyval :=
| PyNone
| PyBool (b : bool)
| PyInt (n : Z)
| PyStr (s : string)
| PyObj (id : nat).

(** Python truth value testing, as used by [if not result]. *)
Definition truthy (v : pyval) : bool :=
  match v with
  | PyNone => false
  | PyBool b => b
  | PyInt n => negb (n =? 0)%Z
  | PyStr s => negb (String.eqb s "")
  | PyObj _ => true
  end.

(** A raised exception object.  [exc_is_Exception] is
  [isinstance(e, Exception)]: [except Exception] does not catch
  [KeyboardInterrupt], [SystemExit] or [GeneratorExit]. *)
Record exn := Exn {
  exc_class : string;
  exc_text : string;
  exc_is_Exception : bool
}.

Inductive outcome (A : Type) :=
| Ok (a : A)
| Raise (e : exn).
Arguments Ok {A} a.
Arguments Raise {A} e.

Definition is_ok {A} (o : outcome A) : bool :=
  match o with Ok _ => true | Raise _ => false end.

(** The lazy record sequence a format parser returns: the loop pulls one
    record at a time, and pulling may raise.  A parser that raises when it
    is called is a stream that starts with [SFail]. *)
Inductive stream :=
| SDone
| SYield (record : pyval) (rest : stream)
| SFail (e : exn).

(** The keys of [FILE_PROCESSOR_DEFINTIONS]. *)
Inductive format :=
| raft_capture_xml
| burp_log
| burp_xml
| burp_vuln_xml
| burp_state
| appscan_xml
| webscarab
| paros_message.

(** Dictionary iteration follows insertion order. *)
Definition FILE_PROCESSOR_DEFINTIONS : list format :=
[raft_capture_xml; burp_log; burp_xml; burp_vuln_xml; burp_state;
 appscan_xml; webscarab; paros_message].

#[global] Instance pyval_eq_dec : EqDecision pyval.
Proof. solve_decision. Defined.
#[global] Instance exn_eq_dec : EqDecision exn.
Proof. solve_decision. Defined.
#[global] Instance outcome_eq_dec {A} `{EqDecision A} : EqDecision (outcome A).
Proof. solve_decision. Defined.
#[global] Instance format_eq_dec : EqDecision format.
Proof. solve_decision. Defined.

(** ** What the runner does to the outside: the trace *)

Inductive event :=
| EvStdout (s : string)                      (* sys.stdout.write *)
| EvStderr (s : string)                      (* sys.stderr.write *)
| EvPrint (e : exn)                          (* print(error) *)
| EvOpen (path : string) (ok : bool)         (* open(path, 'rb').read() *)
| EvCompile (path : string) (ok : bool)      (* compile(python_code, ...) *)
| EvExec (path : string) (ok : bool)         (* exec(compiled, ...) *)
| EvNew (path key : string) (ok : bool)      (* value() on a class *)
| EvDir (path key : string) (ok : bool)      (* dir(instance) *)
| EvGetattr (path item : string) (ok : bool) (* getattr(instance, item) *)
| EvInitialize (script file : string) (ok : bool)
| EvFilter (script : string) (arg : pyval) (res : outcome pyval)
| EvProcess (script : string) (arg : pyval) (res : outcome pyval)
| EvParse (fmt : format) (file : string)     (* func(filename) *)
| EvAdapt (record : pyval) (res : outcome pyval).

#[global] Instance event_eq_dec : EqDecision event.
Proof. solve_decision. Defined.

(** ** Plugin code as the loader sees it *)

Section Objects.
Context {W : Type}.

(** A function or bound method object.  Calling it runs plugin code on the
    world. *)
Record pyfunc := PyFunc {
  fn_qualname : string;
  fn_call : pyval -> W -> outcome pyval * W
}.

(** What [getattr(instance, item)] returns: a bound method, or anything
    else (a plain function such as a static method, a data attribute, a
    callable object); [attr_call] is what calling the attribute would run,
    when it is callable. *)
Inductive attr_value :=
| AttrMethod (m : pyfunc)
| AttrOther (type_name : string) (attr_call : option pyfunc).

(** An instance, seen through [dir(instance)] (names in the order [dir]
    lists them) and [getattr(instance, item)].  Both run code of the
    plugin ([__dir__], a property, [__getattr__]): they may change the
    world and they may raise. *)
Record instance := Instance {
  inst_of : string;
  inst_dir : W -> outcome (list string) * W;
  inst_getattr : string -> W -> outcome attr_value * W
}.

(** A value bound in the namespace the plugin source leaves behind,
    classified as the loader classifies it with [str(type(value))]. *)
Inductive ns_value :=
| NsClass (construct : W -> outcome instance * W)   (* <class 'type'> *)
| NsFunction (f : pyfunc)                           (* <class 'function'> *)
| NsOther (type_name : string) (ns_call : option pyfunc).

(** The dictionary [load_script_file] builds for one plugin.  The
    [global_ns] entry only ever holds what [exec] puts there and is never
    read by the runner; it is left out. *)
Record script_env := ScriptEnv {
  filename : string;
  valid : bool;
  initialized : bool;
  instance_ : option instance;
  functions : gmap string pyfunc;
  local_ns : list (string * ns_value)
}.

Definition set_initialized (b : bool) (e : script_env) : script_env :=
  {| filename := filename e; valid := valid e; initialized := b;
     instance_ := instance_ e; functions := functions e;
     local_ns := local_ns e |}.

Definition set_instance (i : instance) (e : script_env) : script_env :=
  {| filename := filename e; valid := valid e; initialized := initialized e;
     instance_ := Some i; functions := functions e;
     local_ns := local_ns e |}.

Definition set_function (key : string) (f : pyfunc) (e : script_env)
  : script_env :=
  {| filename := filename e; valid := valid e; initialized := initialized e;
     instance_ := instance_ e; functions := <[key := f]> (functions e);
     local_ns := local_ns e |}.

Definition set_local_ns (ns : list (string * ns_value)) (e : script_env)
  : script_env :=
  {| filename := filename e; valid := valid e; initialized := initialized e;
     instance_ := instance_ e; functions := functions e;
     local_ns := ns |}.

(** The collaborators that are not part of this file: the operating system,
    the Python compiler and interpreter, the format parsers of
    [lib.parsers] and [ParseAdapter].  [base_exception_status] is what the
    interpreter makes of an error that is not an [Exception] and reaches
    the top level: the code of a [SystemExit], death by SIGINT for a
    [KeyboardInterrupt]. *)
Record externals := Externals {
  os_path_exists : string -> W -> bool;
  open_read : string -> W -> outcome string * W;
  py_compile : string -> outcome unit;
  py_exec : string -> W -> outcome (list (string * ns_value)) * W;
  file_processor : format -> string -> W -> stream;
  adapter_adapt : pyval -> outcome pyval;
  raft_version : string;
  base_exception_status : exn -> Z
}.

(** ** The [RaftCmdLine] object, the world and the trace

    [self.scripts] maps a path to the one dictionary created for it.
    [self.capture_filter_scripts] and [self.process_capture_scripts] hold
    references to those same dictionaries, so that a flag written through
    [self.scripts] is seen through the lists: a reference is the key under
    which the dictionary is stored. *)
Record state := State {
  scripts : gmap string script_env;
  capture_filter_scripts : list string;
  process_capture_scripts : list string;
  world : W;
  trace : list event
}.

Definition set_scripts (m : gmap string script_env) (st : state) : state :=
  {| scripts := m; capture_filter_scripts := capture_filter_scripts st;
     process_capture_scripts := process_capture_scripts st;
     world := world st; trace := trace st |}.

Definition set_capture_filter_scripts (l : list string) (st : state) : state :=
  {| scripts := scripts st; capture_filter_scripts := l;
     process_capture_scripts := process_capture_scripts st;
     world := world st; trace := trace st |}.

Definition set_process_capture_scripts (l : list string) (st : state) : state :=
  {| scripts := scripts st;
     capture_filter_scripts := capture_filter_scripts st;
     process_capture_scripts := l;
     world := world st; trace := trace st |}.

Definition set_world (w : W) (st : state) : state :=
  {| scripts := scripts st;
     capture_filter_scripts := capture_filter_scripts st;
     process_capture_scripts := process_capture_scripts st;
     world := w; trace := trace st |}.

Definition log (ev : event) (st : state) : state :=
  {| scripts := scripts st;
     capture_filter_scripts := capture_filter_scripts st;
     process_capture_scripts := process_capture_scripts st;
     world := world st; trace := trace st ++ [ev] |}.

(** ** The monad of runner code *)

Definition M (A : Type) : Type := state -> outcome A * state.

Definition ret {A} (a : A) : M A := fun st => (Ok a, st).

Definition bind {A B} (m : M A) (k : A -> M B) : M B :=
  fun st =>
    match m st with
    | (Ok a, st') => k a st'
    | (Raise e, st') => (Raise e, st')
    end.

Definition raise {A} (e : exn) : M A := fun st => (Raise e, st).

(** [try: body  except Exception as error: handler] *)
Definition try_except {A} (body : M A) (handler : exn -> M A) : M A :=
  fun st =>
    match body st with
    | (Ok a, st') => (Ok a, st')
    | (Raise e, st') =>
        if exc_is_Exception e then handler e st' else (Raise e, st')
    end.

Definition get : M state := fun st => (Ok st, st).
Definition modify (f : state -> state) : M unit := fun st => (Ok tt, f st).
Definition emit (ev : event) : M unit := modify (log ev).

(** A call into external code: it changes the world, is recorded with [ev]
    and returns or raises. *)
Definition extern {A} (call : W -> outcome A * W) (ev : outcome A -> event)
  : M A :=
  fun st =>
    let (res, w') := call (world st) in
    (res, log (ev res) (set_world w' st)).

(** The events a computation adds to the trace when run from [st]. *)
Definition emitted {A} (m : M A) (st : state) : list event :=
  drop (length (trace st)) (trace (snd (m st))).
End Objects.

Arguments pyfunc : clear implicits.
Arguments attr_value : clear implicits.
Arguments instance : clear implicits.
Arguments ns_value : clear implicits.
Arguments script_env : clear implicits.
Arguments externals : clear implicits.
Arguments state : clear implicits.
Arguments M : clear implicits.

Declare Scope run_scope.
Delimit Scope run_scope with run.
Notation "x <- m ;; k" := (bind m (fun x => k))
  (at level 100, m at next level, right associativity) : run_scope.
Notation "m ;; k" := (bind m (fun _ => k))
  (at level 100, right associativity) : run_scope.
Open Scope run_scope.

(** ** String helpers for the [str] methods the code uses *)

Definition nl : string := String (Ascii.ascii_of_nat 10) "".

(** [s.endswith(suffix)] *)
Definition endswith (s suffix : string) : bool :=
  let n := String.length s in
  let k := String.length suffix in
  if (k <=? n)%nat
  then String.eqb (String.substring (n - k) k s) suffix
  else false.

(** [s.startswith(c)] for a one-character [c] *)
Definition startswith_char (c : Ascii.ascii) (s : string) : bool :=
  match s with
  | String a _ => Ascii.eqb a c
  | EmptyString => false
  end.

(** [c in s] for a one-character [c] *)
Fixpoint contains_char (c : Ascii.ascii) (s : string) : bool :=
  match s with
  | String a rest => Ascii.eqb a c || contains_char c rest
  | EmptyString => false
  end.

(** The namespace [argparse] hands to [process_args]; [arg_files] is
    [getattr(args, name)] for the format flags. *)
Record args := Args {
  arg_db : option string;
  arg_create : bool;
  arg_import : bool;
  arg_parse : bool;
  arg_capture_filter : option (list string);
  arg_process_capture : option (list string);
  arg_files : format -> option (list string)
}.

(** The two errors the interpreter itself raises in
    [run_parse_process_loop]: the module never imports [glob], and
    [file_list] is read before any branch has assigned it. *)
Definition NameError_glob : exn :=
  Exn "NameError" "name 'glob' is not defined" true.

Definition UnboundLocalError_file_list : exn :=
  Exn "UnboundLocalError"
      "local variable 'file_list' referenced before assignment" true.

(** ** The class [RaftCmdLine] *)

Section RaftCmdLine.
Context {W : Type} (ext : externals W).

Local Abbreviation pyfunc := (pyfunc W).
Local Abbreviation script_env := (script_env W).
Local Abbreviation state := (state W).
Local Abbreviation M := (M W).

(** [__init__]: [self.scripts = {}].  The two script lists are not
    attributes of a new object: [process_args] assigns both before anything
    reads them, and a read before that would raise [AttributeError].  The
    record has no such state, so a new object holds two empty lists; every
    run through [process_args] overwrites them first. *)
Definition init (w : W) : state :=
  {| scripts := ∅; capture_filter_scripts := [];
     process_capture_scripts := []; world := w; trace := [] |}.

(** *** [load_script_file] *)

(** [for item in dir(instance)], over the names [dir] has listed: the
    attribute of each public name is read and, when it is a bound method,
    stored under that name. *)
Fixpoint collect_methods (path : string) (inst : instance W)
    (items : list string) (env : script_env) : M script_env :=
  match items with
  | [] => ret env
  | item :: rest =>
      if negb (startswith_char "_"%char item) then
        itemvalue <-
          extern (inst_getattr inst item)
                 (fun r => EvGetattr path item (is_ok r)) ;;
        match itemvalue with
        | AttrMethod m =>
            collect_methods path inst rest (set_function item m env)
        | AttrOther _ _ => collect_methods path inst rest env
        end
      else collect_methods path inst rest env
  end.

(** [for key in script_env['local_ns']]: every class is instantiated and
    searched for methods, every plain function is stored under its key. *)
Fixpoint collect_bindings (path : string) (ns : list (string * ns_value W))
    (env : script_env) : M script_env :=
  match ns with
  | [] => ret env
  | (key, value) :: rest =>
      match value with
      | NsClass construct =>
          instance <- extern construct (fun r => EvNew path key (is_ok r)) ;;
          items <-
            extern (inst_dir instance) (fun r => EvDir path key (is_ok r)) ;;
          env' <-
            collect_methods path instance items (set_instance instance env) ;;
          collect_bindings path rest env'
      | NsFunction f =>
          collect_bindings path rest (set_function key f env)
      | NsOther _ _ =>
          collect_bindings path rest env
      end
  end.

Definition new_script_env (path : string) : script_env :=
  {| filename := path; valid := true; initialized := false;
     instance_ := None; functions := ∅; local_ns := [] |}.

(** The body of the [try] statement of [load_script_file]. *)
Definition compile_and_collect (path python_code : string) : M script_env :=
  extern (fun w => (py_compile ext python_code, w))
         (fun r => EvCompile path (is_ok r)) ;;
  ns <- extern (py_exec ext python_code) (fun r => EvExec path (is_ok r)) ;;
  collect_bindings path ns (set_local_ns ns (new_script_env path)).

(** Returns a reference to the dictionary of [path]: the cached one when
    there is one, a new one stored in [self.scripts] otherwise. *)
Definition load_script_file (path : string) : M string :=
  st <- get ;;
  match scripts st !! path with
  | Some _ => ret path
  | None =>
      python_code <-
        extern (open_read ext path) (fun r => EvOpen path (is_ok r)) ;;
      env <-
        try_except (compile_and_collect path python_code)
                   (fun error => emit (EvPrint error) ;; raise error) ;;
      modify (fun st => set_scripts (<[path := env]> (scripts st)) st) ;;
      ret path
  end.

(** *** [parse_one_file] *)

(** [for key, script_env in self.scripts.items():
       script_env['initialized'] = False] *)
Definition reset_initialized : M unit :=
  modify (fun st => set_scripts (set_initialized false <$> scripts st) st).

(** [initializer(filename)] followed by [script_env['initialized'] = True],
    for the dictionary behind [ref]. *)
Definition run_initializer (ref : string) (initializer : pyfunc)
    (file : string) : M unit :=
  extern (fn_call initializer (PyStr file))
         (fun r => EvInitialize ref file (is_ok r)) ;;
  modify (fun st =>
            set_scripts (alter (set_initialized true) ref (scripts st)) st).

(** The loop over [self.capture_filter_scripts] and the one over
    [self.process_capture_scripts] are the same text up to the name looked
    up, [capability]; the callables found are appended to [acc].  Each
    callable is kept together with the reference it was taken from, which
    only the trace uses.  A reference of the lists always points into
    [self.scripts] (lemmas [load_plugins_registered_ok] and
    [run_parse_process_loop_registered_ok]), so that the [None] branch is
    never taken in a run. *)
Fixpoint collect_capability (capability : string) (file : string)
    (refs : list string) (acc : list (string * pyfunc))
    : M (list (string * pyfunc)) :=
  match refs with
  | [] => ret acc
  | ref :: rest =>
      st <- get ;;
      match scripts st !! ref with
      | None => collect_capability capability file rest acc
      | Some script_env =>
          match functions script_env !! "initialize" with
          | Some initializer =>
              if negb (initialized script_env)
              then run_initializer ref initializer file
              else ret tt
          | None => ret tt
          end ;;
          match functions script_env !! capability with
          | Some f =>
              collect_capability capability file rest (acc ++ [(ref, f)])
          | None => collect_capability capability file rest acc
          end
      end
  end.

Definition call_filter (f : string * pyfunc) (capture : pyval) : M pyval :=
  extern (fn_call (snd f) capture) (EvFilter (fst f) capture).

Definition call_processor (f : string * pyfunc) (capture : pyval) : M pyval :=
  extern (fn_call (snd f) capture) (EvProcess (fst f) capture).

(** [for capture_filter in filters: ...]; the value is [skip]. *)
Fixpoint apply_filters (filters : list (string * pyfunc)) (capture : pyval)
    : M bool :=
  match filters with
  | [] => ret false
  | capture_filter :: rest =>
      result <- call_filter capture_filter capture ;;
      if negb (truthy result) then ret true
      else apply_filters rest capture
  end.

(** [for processor in processors: result = processor(capture)] *)
Fixpoint apply_processors (processors : list (string * pyfunc))
    (capture : pyval) : M unit :=
  match processors with
  | [] => ret tt
  | processor :: rest =>
      call_processor processor capture ;;
      apply_processors rest capture
  end.

(** The body of [for result in func(filename)].  The adapter is the
    [ParseAdapter()] made at the top of [parse_one_file]; making it is taken
    to do nothing else. *)
Definition process_record (filters processors : list (string * pyfunc))
    (result : pyval) : M unit :=
  capture <-
    extern (fun w => (adapter_adapt ext result, w)) (EvAdapt result) ;;
  skip <- apply_filters filters capture ;;
  if negb skip then apply_processors processors capture else ret tt.

Fixpoint stream_loop (filters processors : list (string * pyfunc))
    (s : stream) : M unit :=
  match s with
  | SDone => ret tt
  | SFail e => raise e
  | SYield result rest =>
      process_record filters processors result ;;
      stream_loop filters processors rest
  end.

(** The [try] statement of [parse_one_file]. *)
Definition run_stream (filters processors : list (string * pyfunc))
    (file : string) (func : format) : M unit :=
  try_except
    (st <- get ;;
     emit (EvParse func file) ;;
     stream_loop filters processors (file_processor ext func file (world st)))
    (fun error => emit (EvPrint error) ;; raise error).

(** The statements of [parse_one_file] before the [try]: the flags are
    reset, then the two script lists are walked. *)
Definition setup_plugins (file : string)
  : M (list (string * pyfunc) * list (string * pyfunc)) :=
  reset_initialized ;;
  st <- get ;;
  filters <-
    collect_capability "capture_filter" file (capture_filter_scripts st) [] ;;
  processors <-
    collect_capability "process_capture" file (process_capture_scripts st) [] ;;
  ret (filters, processors).

Definition parse_one_file (file : string) (func : format) : M unit :=
  emit (EvStderr ("processing [" +:+ file +:+ "]" +:+ nl)) ;;
  plugins <- setup_plugins file ;;
  run_stream (fst plugins) (snd plugins) file func.

(** *** [run_parse_process_loop] *)

(** [for filename in file_list: self.parse_one_file(filename, func)] *)
Fixpoint parse_files (func : format) (file_list : list string) : M unit :=
  match file_list with
  | [] => ret tt
  | file :: rest => parse_one_file file func ;; parse_files func rest
  end.

(** [for filearg in arg: ...].  [file_list] is a local variable of the
    function: it is unbound ([None]) until one of the two branches assigns
    it, and it keeps its value from one iteration to the next. *)
Fixpoint fileargs_loop (func : format) (arg : list string)
    (file_list : option (list string)) : M (option (list string)) :=
  match arg with
  | [] => ret file_list
  | filearg :: rest =>
      st <- get ;;
      file_list' <-
        (if contains_char "*"%char filearg then raise NameError_glob
         else if os_path_exists ext filearg (world st)
              then ret (Some [filearg])
              else ret file_list) ;;
      match file_list' with
      | None => raise UnboundLocalError_file_list
      | Some l => parse_files func l ;; fileargs_loop func rest file_list'
      end
  end.

(** [for name, func in self.FILE_PROCESSOR_DEFINTIONS.items(): ...] *)
Fixpoint formats_loop (a : args) (defs : list format)
    (file_list : option (list string)) : M (option (list string)) :=
  match defs with
  | [] => ret file_list
  | name :: rest =>
      match arg_files a name with
      | None => formats_loop a rest file_list
      | Some arg =>
          file_list' <- fileargs_loop name arg file_list ;;
          formats_loop a rest file_list'
      end
  end.

Definition run_parse_process_loop (a : args) : M unit :=
  formats_loop a FILE_PROCESSOR_DEFINTIONS None ;; ret tt.

(** *** [process_args] *)

(** [for filearg in arg: lst.append(self.load_script_file(filearg))] *)
Fixpoint load_scripts (append : string -> M unit) (arg : list string)
    : M unit :=
  match arg with
  | [] => ret tt
  | filearg :: rest =>
      ref <- load_script_file filearg ;;
      append ref ;;
      load_scripts append rest
  end.

Definition append_capture_filter_script (ref : string) : M unit :=
  modify (fun st =>
    set_capture_filter_scripts (capture_filter_scripts st ++ [ref]) st).

Definition append_process_capture_script (ref : string) : M unit :=
  modify (fun st =>
    set_process_capture_scripts (process_capture_scripts st ++ [ref]) st).

Definition db_file (name : string) : string :=
  if endswith name ".raftdb" then name else name +:+ ".raftdb".

(** The database check at the top of [process_args]: [Some message] when
    the function returns 1 there. *)
Definition db_missing (a : args) (w : W) : option string :=
  match arg_db a with
  | Some db_filename =>
      if negb (os_path_exists ext (db_file db_filename) w)
         && negb (arg_create a)
      then Some (nl +:+ "DB file [" +:+ db_file db_filename
                    +:+ "] does not exist" +:+ nl)
      else None
  | None => None
  end.

(** The two loops of [process_args] that load the scripts named after
    [--capture-filter] and [--process-capture]. *)
Definition load_plugins (a : args) : M unit :=
  modify (set_capture_filter_scripts []) ;;
  match arg_capture_filter a with
  | Some arg => load_scripts append_capture_filter_script arg
  | None => ret tt
  end ;;
  modify (set_process_capture_scripts []) ;;
  match arg_process_capture a with
  | Some arg => load_scripts append_process_capture_script arg
  | None => ret tt
  end.

Definition process_args (a : args) : M Z :=
  st <- get ;;
  match db_missing a (world st) with
  | Some message => emit (EvStderr message) ;; ret 1%Z
  | None =>
      load_plugins a ;;
      (if arg_import a then ret tt
       else if arg_parse a then run_parse_process_loop a
       else emit (EvStderr (nl +:+ "No recognized options" +:+ nl))) ;;
      ret 0%Z
  end.

(** *** [main] and the process *)

(** [main()] after [parser.parse_args()]: the value of [process_args] is
    dropped. *)
Definition main (a : args) : M unit :=
  emit (EvStdout
          (nl +:+ "RaftCmdLine - version: " +:+ raft_version ext +:+ nl)) ;;
  process_args a ;;
  ret tt.

(** The exit status of [python RaftCmdLine.py ...]: 0 when [main] returns,
    1 when an [Exception] reaches the top level, and for any other error
    what the interpreter makes of it. *)
Definition exit_status (a : args) (w : W) : Z :=
  match fst (main a (init w)) with
  | Ok _ => 0%Z
  | Raise e =>
      if exc_is_Exception e then 1%Z else base_exception_status ext e
  end.
End RaftCmdLine.

(** ** Reading a trace *)

(** The filter calls of a trace, in order: which script, on which value. *)
Definition filter_calls (tr : list event) : list (string * pyval) :=
  omap (fun ev => match ev with
                  | EvFilter s a _ => Some (s, a)
                  | _ => None
                  end) tr.

(** What each filter call received and what it gave back. *)
Definition filter_io (tr : list event) : list (pyval * outcome pyval) :=
  omap (fun ev => match ev with
                  | EvFilter _ a r => Some (a, r)
                  | _ => None
                  end) tr.

(** A filter call of the trace that returned a falsy value. *)
Definition falsy_filter (ev : event) : bool :=
  match ev with
  | EvFilter _ _ (Ok v) => negb (truthy v)
  | _ => false
  end.

(** The processor calls of a trace, in order. *)
Definition process_calls (tr : list event) : list (string * pyval) :=
  omap (fun ev => match ev with
                  | EvProcess s a _ => Some (s, a)
                  | _ => None
                  end) tr.

(** The [initialize] calls of a trace: which script, for which file. *)
Definition init_calls (tr : list event) : list (string * string) :=
  omap (fun ev => match ev with
                  | EvInitialize s f _ => Some (s, f)
                  | _ => None
                  end) tr.

(** An [initialize] call of the trace that raised. *)
Definition failed_init (ev : event) : bool :=
  match ev with
  | EvInitialize _ _ false => true
  | _ => false
  end.

(** The errors written by [print(error)]. *)
Definition printed (tr : list event) : list exn :=
  omap (fun ev => match ev with EvPrint e => Some e | _ => None end) tr.

(** The raw records pulled from a parser and handed to the adapter. *)
Definition adapted (tr : list event) : list pyval :=
  omap (fun ev => match ev with EvAdapt r _ => Some r | _ => None end) tr.

(** The events by which a plugin source is read, compiled, executed, a
    class of it instantiated or an instance inspected. *)
Definition is_load_event (ev : event) : bool :=
  match ev with
  | EvOpen _ _ | EvCompile _ _ | EvExec _ _ | EvNew _ _ _
  | EvDir _ _ _ | EvGetattr _ _ _ => true
  | _ => false
  end.

(** The files handed to a parser. *)
Definition parsed (tr : list event) : list (format * string) :=
  omap (fun ev => match ev with EvParse f p => Some (f, p) | _ => None end) tr.

(** A stream that yields the records of a list and then ends as [tail]. *)
Fixpoint yields (records : list pyval) (tail : stream) : stream :=
  match records with
  | [] => tail
  | r :: rest => SYield r (yields rest tail)
  end.

(** ** What the registered scripts offer *)

Section Active.
Context {W : Type}.

(** The callables a walk over [refs] finds under [capability], in the order
    of [refs]. *)
Definition active (capability : string)
    (scripts : gmap string (script_env W)) (refs : list string)
  : list (string * pyfunc W) :=
  omap (fun ref =>
          env ← scripts !! ref;
          f ← functions env !! capability;
          Some (ref, f)) refs.

(** [ref] names a loaded script that defines [initialize]. *)
Definition has_initialize (scripts : gmap string (script_env W))
    (ref : string) : bool :=
  match scripts !! ref with
  | Some env => bool_decide (is_Some (functions env !! "initialize"))
  | None => false
  end.
End Active.

(** ** The specification's reading, where it is compared with the code *)

(** Filter chaining as the specification words it: the first filter
    receives the adapted capture, every later one the value the filter
    before it returned. *)
Fixpoint outputs_chained (current : pyval)
    (io : list (pyval * outcome pyval)) : bool :=
  match io with
  | [] => true
  | (arg, res) :: rest =>
      bool_decide (arg = current)
      && match res with
         | Ok v => outputs_chained v rest
         | Raise _ => true
         end
  end.

Section CapabilitySpec.
Context {W : Type}.

Definition class_bindings (ns : list (string * ns_value W))
  : list (W -> outcome (instance W) * W) :=
  omap (fun kv => match snd kv with
                  | NsClass construct => Some construct
                  | _ => None
                  end) ns.

(** [getattr(instance, item)] for each public name of [items], from the
    world [w] on: the values read, or the first error. *)
Fixpoint read_attrs (inst : instance W) (items : list string) (w : W)
  : outcome (list (string * attr_value W)) * W :=
  match items with
  | [] => (Ok [], w)
  | item :: rest =>
      if startswith_char "_"%char item then read_attrs inst rest w
      else
        match inst_getattr inst item w with
        | (Ok itemvalue, w1) =>
            match read_attrs inst rest w1 with
            | (Ok l, w2) => (Ok ((item, itemvalue) :: l), w2)
            | (Raise e, w2) => (Raise e, w2)
            end
        | (Raise e, w1) => (Raise e, w1)
        end
  end.

(** Every public callable attribute of an instance, keyed by its name. *)
Definition public_callables (items : list (string * attr_value W))
  : list (string * pyfunc W) :=
  omap (fun kv =>
          if startswith_char "_"%char (fst kv) then None
          else match snd kv with
               | AttrMethod m => Some (fst kv, m)
               | AttrOther _ (Some f) => Some (fst kv, f)
               | AttrOther _ None => None
               end) items.

(** Every top-level callable binding that is not a class, keyed by its
    name. *)
Definition top_level_callables (ns : list (string * ns_value W))
  : list (string * pyfunc W) :=
  omap (fun kv => match snd kv with
                  | NsFunction f => Some (fst kv, f)
                  | NsOther _ (Some f) => Some (fst kv, f)
                  | _ => None
                  end) ns.

(** The capability map as the specification words it: with exactly one
    type, the public callable attributes of its one instance; with no
    type, the top-level callable bindings.  Nothing is said of the other
    cases. *)
Definition capability_map_spec (ns : list (string * ns_value W)) (w : W)
  : option (gmap string (pyfunc W)) :=
  match class_bindings ns with
  | [] => Some (list_to_map (top_level_callables ns))
  | [construct] =>
      match construct w with
      | (Ok inst, w1) =>
          match inst_dir inst w1 with
          | (Ok items, w2) =>
              match read_attrs inst items w2 with
              | (Ok attrs, _) => Some (list_to_map (public_callables attrs))
              | (Raise _, _) => None
              end
          | (Raise _, _) => None
          end
      | (Raise _, _) => None
      end
  | _ => None
  end.

(** What the code keeps of an instance: its public bound methods. *)
Definition public_methods (items : list (string * attr_value W))
  : list (string * pyfunc W) :=
  omap (fun kv =>
          if startswith_char "_"%char (fst kv) then None
          else match snd kv with
               | AttrMethod m => Some (fst kv, m)
               | AttrOther _ _ => None
               end) items.

(** What the code keeps of the top level: its plain functions. *)
Definition plain_functions (ns : list (string * ns_value W))
  : list (string * pyfunc W) :=
  omap (fun kv => match snd kv with
                  | NsFunction f => Some (fst kv, f)
                  | _ => None
                  end) ns.

End CapabilitySpec.

(** The load error as the specification words it: whatever is raised for a
    source that was read but failed to compile or execute tells the path
    it was raised for. *)
Definition load_error_carries_path : Prop :=
  exists path_of : exn -> string,
    forall (W : Type) (ext : externals W) (path : string) (st st' : state W)
           (e : exn),
      scripts st !! path = None ->
      is_ok (fst (open_read ext path (world st))) = true ->
      load_script_file ext path st = (Raise e, st') ->
      path_of e = path.

(** ** A small world to run the code in *)

Module Demo.

(** The world is a journal the plugins write into. *)
Definition world : Type := list string.

Definition w0 : world := [].

Definition journal (line : string) (result : pyval)
  : world -> outcome pyval * world :=
  fun w => (Ok result, w ++ [line]).

Definition is_odd (v : pyval) : bool :=
  match v with
  | PyObj n => Nat.odd n
  | _ => false
  end.

Definition ValueError : exn := Exn "ValueError" "capture 2 is malformed" true.
Definition SyntaxError : exn :=
  Exn "SyntaxError" "invalid syntax (<string>, line 1)" true.
Definition FileNotFoundError : exn :=
  Exn "FileNotFoundError" "No such file or directory" true.
Definition ExpatError : exn := Exn "ExpatError" "no element found" true.
Definition AttributeError : exn :=
  Exn "AttributeError" "'str' object has no attribute 'get_id'" true.
Definition KeyboardInterrupt : exn := Exn "KeyboardInterrupt" "" false.
Definition NoSuchAttribute : exn :=
  Exn "AttributeError" "object has no such attribute" true.
Definition RuntimeError : exn := Exn "RuntimeError" "not connected" true.

(** [keep_odd.py]: [initialize] and a [capture_filter] that drops the
    captures with an even identifier. *)
Definition keep_odd_initialize : pyfunc world :=
  PyFunc "initialize" (fun _ => journal "keep_odd: initialize" PyNone).
Definition keep_odd_capture_filter : pyfunc world :=
  PyFunc "capture_filter"
    (fun c => journal "keep_odd: capture_filter"
                      (if is_odd c then c else PyNone)).

(** [rewrite.py]: a [capture_filter] that returns a new capture. *)
Definition rewrite_capture_filter : pyfunc world :=
  PyFunc "capture_filter"
    (fun c => journal "rewrite: capture_filter"
                      (match c with PyObj n => PyObj (n + 100) | _ => c end)).

(** [store.py]: [initialize] and [process_capture]. *)
Definition store_initialize : pyfunc world :=
  PyFunc "initialize" (fun _ => journal "store: initialize" PyNone).
Definition store_process_capture : pyfunc world :=
  PyFunc "process_capture"
    (fun _ => journal "store: process_capture" (PyStr "stored")).

(** [both.py]: all three capabilities. *)
Definition both_initialize : pyfunc world :=
  PyFunc "initialize" (fun _ => journal "both: initialize" PyNone).
Definition both_capture_filter : pyfunc world :=
  PyFunc "capture_filter" (fun c => journal "both: capture_filter" c).
Definition both_process_capture : pyfunc world :=
  PyFunc "process_capture" (fun _ => journal "both: process_capture" PyNone).

(** [boom.py]: a [capture_filter] that raises on capture 2. *)
Definition boom_capture_filter : pyfunc world :=
  PyFunc "capture_filter"
    (fun c w => match c with
                | PyObj 2 => (Raise ValueError, w ++ ["boom: raise"])
                | _ => (Ok c, w ++ ["boom: capture_filter"])
                end).

(** [plugin.py]: a class [Plugin] with a method [capture_filter], a static
    method [process_capture] and a private method, followed by a top-level
    function [capture_filter]. *)
Definition Plugin_capture_filter : pyfunc world :=
  PyFunc "Plugin.capture_filter" (fun c => journal "Plugin.capture_filter" c).
Definition Plugin_process_capture : pyfunc world :=
  PyFunc "Plugin.process_capture"
    (fun _ => journal "Plugin.process_capture" PyNone).
Definition Plugin_helper : pyfunc world :=
  PyFunc "Plugin._helper" (fun _ => journal "Plugin._helper" PyNone).
Definition plugin_capture_filter : pyfunc world :=
  PyFunc "capture_filter" (fun _ => journal "capture_filter" PyNone).

Definition Plugin_instance : instance world :=
  Instance "Plugin"
    (fun w =>
       (Ok ["_helper"; "capture_filter"; "process_capture"; "verbose"], w))
    (fun item w =>
       if String.eqb item "_helper"
       then (Ok (AttrMethod Plugin_helper), w)
       else if String.eqb item "capture_filter"
       then (Ok (AttrMethod Plugin_capture_filter), w)
       else if String.eqb item "process_capture"
       then (Ok (AttrOther "function" (Some Plugin_process_capture)), w)
       else if String.eqb item "verbose"
       then (Ok (AttrOther "bool" None), w)
       else (Raise NoSuchAttribute, w)).

Definition Plugin_new : world -> outcome (instance world) * world :=
  fun w => (Ok Plugin_instance, w ++ ["Plugin.__init__"]).

(** [single.py] imports [os] and defines the class [Plugin] alone. *)

(** [prop.py]: a class [Probe] with a method [capture_filter] and a
    property [status] whose getter raises. *)
Definition Probe_capture_filter : pyfunc world :=
  PyFunc "Probe.capture_filter" (fun c => journal "Probe.capture_filter" c).

Definition Probe_instance : instance world :=
  Instance "Probe"
    (fun w => (Ok ["capture_filter"; "status"], w))
    (fun item w =>
       if String.eqb item "capture_filter"
       then (Ok (AttrMethod Probe_capture_filter), w)
       else if String.eqb item "status"
       then (Raise RuntimeError, w ++ ["Probe.status: raise"])
       else (Raise NoSuchAttribute, w)).

Definition Probe_new : world -> outcome (instance world) * world :=
  fun w => (Ok Probe_instance, w ++ ["Probe.__init__"]).

(** [partial.py]: [import functools], a plain function [process_capture]
    and [capture_filter = functools.partial(process_capture)], a callable
    object that is not a function; no class. *)
Definition partial_capture_filter : pyfunc world :=
  PyFunc "functools.partial" (fun c => journal "partial: capture_filter" c).

Definition sources : list (string * string) :=
  [("keep_odd.py", "def initialize(f): ... def capture_filter(c): ...");
   ("rewrite.py", "def capture_filter(c): ...");
   ("store.py", "def initialize(f): ... def process_capture(c): ...");
   ("both.py", "def initialize(f): ... def capture_filter(c): ... (both)");
   ("boom.py", "def capture_filter(c): raise ValueError");
   ("plugin.py", "class Plugin: ... def capture_filter(c): ...");
   ("single.py", "class Plugin: ...");
   ("partial.py", "import functools ... functools.partial(...)");
   ("prop.py", "class Probe: ... @property def status(self): raise");
   ("bad.py", "def (");
   ("bad2.py", "def (")].

Definition namespaces : list (string * list (string * ns_value world)) :=
  [("def initialize(f): ... def capture_filter(c): ...",
    [("initialize", NsFunction keep_odd_initialize);
     ("capture_filter", NsFunction keep_odd_capture_filter)]);
   ("def capture_filter(c): ...",
    [("capture_filter", NsFunction rewrite_capture_filter)]);
   ("def initialize(f): ... def process_capture(c): ...",
    [("initialize", NsFunction store_initialize);
     ("process_capture", NsFunction store_process_capture)]);
   ("def initialize(f): ... def capture_filter(c): ... (both)",
    [("initialize", NsFunction both_initialize);
     ("capture_filter", NsFunction both_capture_filter);
     ("process_capture", NsFunction both_process_capture)]);
   ("def capture_filter(c): raise ValueError",
    [("capture_filter", NsFunction boom_capture_filter)]);
   ("class Plugin: ... def capture_filter(c): ...",
    [("Plugin", NsClass Plugin_new);
     ("capture_filter", NsFunction plugin_capture_filter)]);
   ("class Plugin: ...",
    [("os", NsOther "module" None);
     ("Plugin", NsClass Plugin_new)]);
   ("import functools ... functools.partial(...)",
    [("functools", NsOther "module" None);
     ("process_capture", NsFunction store_process_capture);
     ("capture_filter",
      NsOther "functools.partial" (Some partial_capture_filter))]);
   ("class Probe: ... @property def status(self): raise",
    [("Probe", NsClass Probe_new)])].

Definition lookup_assoc {A} (key : string) (l : list (string * A)) : option A :=
  snd <$> List.find (fun kv => String.eqb (fst kv) key) l.

Definition files : list string :=
  ["a.xml"; "five.xml"; "broken.xml"] ++ map fst sources.

Definition ext : externals world :=
  {| os_path_exists := fun path _ => bool_decide (path ∈ files);
     open_read := fun path w =>
       match lookup_assoc path sources with
       | Some code => (Ok code, w)
       | None => (Raise FileNotFoundError, w)
       end;
     py_compile := fun code =>
       if String.eqb code "def (" then Raise SyntaxError else Ok tt;
     py_exec := fun code w =>
       match lookup_assoc code namespaces with
       | Some ns => (Ok ns, w ++ ["exec"])
       | None => (Ok [], w ++ ["exec"])
       end;
     file_processor := fun _ path _ =>
       if String.eqb path "a.xml"
       then yields [PyInt 1; PyInt 2; PyInt 3] SDone
       else if String.eqb path "five.xml"
       then yields [PyInt 1; PyInt 2; PyInt 3; PyInt 4; PyInt 5] SDone
       else if String.eqb path "broken.xml"
       then yields [PyInt 1] (SFail ExpatError)
       else SFail FileNotFoundError;
     adapter_adapt := fun record =>
       match record with
       | PyInt n => Ok (PyObj (Z.to_nat n))
       | _ => Raise AttributeError
       end;
     raft_version := "3";
     base_exception_status := fun e =>
       if String.eqb (exc_class e) "KeyboardInterrupt" then 130%Z else 1%Z |}.

Definition only (fmt : format) (l : list string)
  : format -> option (list string) :=
  fun f => if bool_decide (f = fmt) then Some l else None.

(** [--parse --capture-filter keep_odd.py both.py
      --process-capture store.py both.py --burp-xml a.xml] *)
Definition args_pipeline : args :=
  Args None false false true
       (Some ["keep_odd.py"; "both.py"]) (Some ["store.py"; "both.py"])
       (only burp_xml ["a.xml"]).

(** [--db mydb --parse --burp-xml a.xml] *)
Definition args_missing_db : args :=
  Args (Some "mydb") false false true None None (only burp_xml ["a.xml"]).

(** The state in which [process_args] has loaded the scripts of
    [args_pipeline], before any file is parsed. *)
Definition loaded : state world :=
  snd (load_plugins ext args_pipeline (init w0)).

End Demo.

(** ** Statements about runner code

    [hoare pre m P post]: run from a state in [pre], [m] only appends to
    the trace, appends only events in [P], and when it returns [a] it
    leaves a state in [post a]. *)

Section Hoare.
Context {W : Type}.

Definition hoare {A} (pre : state W -> Prop) (m : M W A)
    (P : event -> Prop) (post : A -> state W -> Prop) : Prop :=
  forall st, pre st ->
    exists new,
      trace (snd (m st)) = trace st ++ new
      /\ Forall P new
      /\ forall a, fst (m st) = Ok a -> post a (snd (m st)).

Definition is_print (ev : event) : bool :=
  match ev with EvPrint _ => true | _ => false end.

(** [m] never writes an error with [print]. *)
Definition silent {A} (m : M W A) : Prop :=
  hoare (fun _ => True) m (fun ev => is_print ev = false) (fun _ _ => True).

(** An error written with [print] is the last thing that happens: the
    computation then raises that error, an instance of [Exception]. *)
Definition print_is_final {A} (m : M W A) : Prop :=
  forall st,
    exists new,
      trace (snd (m st)) = trace st ++ new
      /\ (printed new = []
          \/ exists e pre,
               new = pre ++ [EvPrint e] /\ printed pre = []
               /\ fst (m st) = Raise e /\ exc_is_Exception e = true).
End Hoare.

(** ** Roles *)

Section Roles.
Context {W : Type}.

(** The two script lists of the object are [cfs] and [pcs]. *)
Definition same_lists (cfs pcs : list string) (st : state W) : Prop :=
  capture_filter_scripts st = cfs /\ process_capture_scripts st = pcs.

(** A filter call is made on behalf of a script of [cfs], a processor call
    on behalf of a script of [pcs]. *)
Definition role_ok (cfs pcs : list string) (ev : event) : Prop :=
  match ev with
  | EvFilter s _ _ => s ∈ cfs
  | EvProcess s _ _ => s ∈ pcs
  | _ => True
  end.

(** Every callable of [l] was taken from a script of [refs]. *)
Definition taken_from (refs : list string) (l : list (string * pyfunc W))
  : Prop :=
  Forall (fun f => fst f ∈ refs) l.
End Roles.

(** ** Kinds of events *)

Definition is_filter_event (ev : event) : bool :=
  match ev with EvFilter _ _ _ => true | _ => false end.

Definition is_process_event (ev : event) : bool :=
  match ev with EvProcess _ _ _ => true | _ => false end.

Definition is_init_event (ev : event) : bool :=
  match ev with EvInitialize _ _ _ => true | _ => false end.

(** The calls a list of callables receives when each is given [capture]. *)
Definition calls_with {W} (capture : pyval) (l : list (string * pyfunc W))
  : list (string * pyval) :=
  map (fun f => (fst f, capture)) l.

(** ** Initialization bookkeeping *)

(** How often [initialize] of [script] was called for [file]. *)
Definition init_count (script file : string) (tr : list event) : nat :=
  length (filter (fun c => c = (script, file)) (init_calls tr)).

Section Pending.
Context {W : Type}.

(** [ref] names a loaded script that defines [initialize] and whose flag
    says it has not been initialized. *)
Definition pending (m : gmap string (script_env W)) (ref : string) : bool :=
  match m !! ref with
  | Some env =>
      bool_decide (is_Some (functions env !! "initialize"))
      && negb (initialized env)
  | None => false
  end.

(** The [initialize] calls a walk over [refs] owes to [ref]. *)
Definition owed (m : gmap string (script_env W)) (refs : list string)
    (ref : string) : nat :=
  if pending m ref && bool_decide (ref ∈ refs) then 1 else 0.

(** Two script tables offer the same callables. *)
Definition same_functions (m m' : gmap string (script_env W)) : Prop :=
  forall ref, functions <$> m' !! ref = functions <$> m !! ref.
End Pending.

(** The contract of one walk over [refs] that starts in [st] with [acc]
    and ends as [run]: only [initialize] calls are added to the trace, each
    script is called at most as often as the walk owes it and never for
    another file, the lists and the callables stay as they are; a walk that
    returns has called exactly what it owed, found the callables of [refs]
    in order, and every script it passed is no longer pending; a walk that
    raises does so because an [initialize] call raised. *)
Definition collect_contract {W} (capability file : string)
    (refs : list string) (acc : list (string * pyfunc W)) (st : state W)
    (run : outcome (list (string * pyfunc W)) * state W) : Prop :=
  exists new,
    trace (snd run) = trace st ++ new
    /\ Forall (fun ev => is_init_event ev = true) new
    /\ capture_filter_scripts (snd run) = capture_filter_scripts st
    /\ process_capture_scripts (snd run) = process_capture_scripts st
    /\ same_functions (scripts st) (scripts (snd run))
    /\ (forall p, init_count p file new <= owed (scripts st) refs p)
    /\ (forall p f, f <> file -> init_count p f new = 0)
    /\ match fst run with
       | Ok l =>
           l = acc ++ active capability (scripts st) refs
           /\ existsb failed_init new = false
           /\ (forall p, init_count p file new = owed (scripts st) refs p)
           /\ (forall p, pending (scripts (snd run)) p
                         = pending (scripts st) p
                           && negb (bool_decide (p ∈ refs)))
       | Raise _ => existsb failed_init new = true
       end.

(** The contract of the statements of [parse_one_file] before the [try],
    run from [st] for [file] and ending as [run]. *)
Definition setup_contract {W} (file : string) (st : state W)
    (run : outcome (list (string * pyfunc W) * list (string * pyfunc W))
           * state W) : Prop :=
  exists new,
    trace (snd run) = trace st ++ new
    /\ Forall (fun ev => is_init_event ev = true) new
    /\ capture_filter_scripts (snd run) = capture_filter_scripts st
    /\ process_capture_scripts (snd run) = process_capture_scripts st
    /\ same_functions (scripts st) (scripts (snd run))
    /\ (forall p, init_count p file new <= 1)
    /\ (forall p f, f <> file -> init_count p f new = 0)
    /\ match fst run with
       | Ok plugins =>
           fst plugins = active "capture_filter" (scripts st)
                                (capture_filter_scripts st)
           /\ snd plugins = active "process_capture" (scripts st)
                                   (process_capture_scripts st)
           /\ existsb failed_init new = false
           /\ (forall p,
                 init_count p file new
                 = if has_initialize (scripts st) p
                      && bool_decide (p ∈ capture_filter_scripts st
                                          ++ process_capture_scripts st)
                   then 1 else 0)
       | Raise _ => existsb failed_init new = true
       end.

(** The events of the loop body of [parse_one_file]. *)
Definition is_record_event (ev : event) : bool :=
  match ev with
  | EvAdapt _ _ | EvFilter _ _ _ | EvProcess _ _ _ => true
  | _ => false
  end.


(** [script_env['functions'][key] = value] for each pair of a list, in
    order: a later pair replaces an earlier one of the same name. *)
Definition add_functions {W} (l : list (string * pyfunc W))
    (env : script_env W) : script_env W :=
  fold_left (fun e kv => set_function (fst kv) (snd kv) e) l env.

(** How often a class of [path] was instantiated. *)
Definition new_count (path : string) (tr : list event) : nat :=
  length (List.filter (fun ev => match ev with
                                 | EvNew p _ _ => String.eqb p path
                                 | _ => false
                                 end) tr).

(** ** References stay valid *)

Section Frame.
Context {W : Type}.

(** Every reference of the two lists points to a dictionary of
    [self.scripts]. *)
Definition registered_ok (st : state W) : Prop :=
  forall ref,
    ref ∈ capture_filter_scripts st ++ process_capture_scripts st ->
    is_Some (scripts st !! ref).

(** From [st] to [st'] the two lists and the callables of every script
    are the same. *)
Definition frame (st st' : state W) : Prop :=
  capture_filter_scripts st' = capture_filter_scripts st
  /\ process_capture_scripts st' = process_capture_scripts st
  /\ same_functions (scripts st) (scripts st').

(** [m] changes nothing but flags, the world and the trace, whether it
    returns or raises. *)
Definition keeps {A} (m : M W A) : Prop :=
  forall st, frame st (snd (m st)).
End Frame.

(** ** Runs in the small world *)

(** [--parse --capture-filter both.py --process-capture store.py
      --burp-xml a.xml]: [both.py] defines [process_capture] but is
    registered as a filter only. *)
Definition demo_args_roles : args :=
  Args None false false true (Some ["both.py"]) (Some ["store.py"])
       (Demo.only burp_xml ["a.xml"]).

(** The callables [parse_one_file] finds for ["a.xml"] in [Demo.loaded],
    and the state in which it starts to read the stream. *)
Definition demo_plugins
  : list (string * pyfunc Demo.world) * list (string * pyfunc Demo.world) :=
  match fst (setup_plugins "a.xml" Demo.loaded) with
  | Ok plugins => plugins
  | Raise _ => ([], [])
  end.

Definition demo_ready : state Demo.world :=
  snd (setup_plugins "a.xml" Demo.loaded).

(** [--capture-filter rewrite.py keep_odd.py]: the first filter returns a
    new capture. *)
Definition demo_rewrite_filters : list (string * pyfunc Demo.world) :=
  [("rewrite.py", Demo.rewrite_capture_filter);
   ("keep_odd.py", Demo.keep_odd_capture_filter)].


(** [--parse --capture-filter boom.py --process-capture store.py
      --burp-xml five.xml a.xml] *)
Definition demo_args_boom : args :=
  Args None false false true (Some ["boom.py"]) (Some ["store.py"])
       (Demo.only burp_xml ["five.xml"; "a.xml"]).

(** The namespace a demo script leaves behind, the capability map the
    loader builds for it and the one the specification describes. *)
Definition demo_namespace (path : string)
  : list (string * ns_value Demo.world) :=
  default [] (code ← Demo.lookup_assoc path Demo.sources;
              Demo.lookup_assoc code Demo.namespaces).

Definition demo_capabilities (path : string)
  : gmap string (pyfunc Demo.world) :=
  match
    scripts (snd (load_script_file Demo.ext path (init Demo.w0))) !! path
  with
  | Some env => functions env
  | None => ∅
  end.

Definition demo_spec_capabilities (path : string)
  : option (gmap string (pyfunc Demo.world)) :=
  capability_map_spec (demo_namespace path) ["exec"].

(** [--parse --burp-xml missing.xml]: the only file argument does not
    exist. *)
Definition demo_args_missing : args :=
  Args None false false true None None (Demo.only burp_xml ["missing.xml"]).

(** [--parse --burp-xml a.xml missing.xml] *)
Definition demo_args_stale : args :=
  Args None false false true None None
       (Demo.only burp_xml ["a.xml"; "missing.xml"]).

(** [--parse --burp-log a.xml --burp-xml missing.xml] *)
Definition demo_args_stale_format : args :=
  Args None false false true None None
       (fun f => match f with
                 | burp_log => Some ["a.xml"]
                 | burp_xml => Some ["missing.xml"]
                 | _ => None
                 end).

(** [--parse --burp-xml '*.none']: a pattern that matches no file. *)
Definition demo_args_glob : args :=
  Args None false false true None None (Demo.only burp_xml ["*.none"]).

(** ** Phases of a run *)

(** The events of the parsing phase: [initialize] calls, parser calls and
    what is done with each record. *)
Definition is_parse_event (ev : event) : bool :=
  match ev with
  | EvInitialize _ _ _ | EvFilter _ _ _ | EvProcess _ _ _
  | EvParse _ _ | EvAdapt _ _ => true
  | _ => false
  end.

(** [print(error)] is only reached from [except Exception]. *)
Definition prints_Exception (ev : event) : Prop :=
  match ev with
  | EvPrint e => exc_is_Exception e = true
  | _ => True
  end.

Definition is_open_of (path : string) (ev : event) : bool :=
  match ev with
  | EvOpen p _ => String.eqb p path
  | _ => false
  end.

(** How often the source at [path] was opened. *)
Definition open_count (path : string) (tr : list event) : nat :=
  length (List.filter (is_open_of path) tr).

Section Opens.
Context {W : Type}.

(** The opens of [path] that are still to come: none once it is cached. *)
Definition opens_left (path : string) (st : state W) : nat :=
  match scripts st !! path with
  | Some _ => 0
  | None => 1
  end.

(** [m] opens [path] at most as often as is left, and what it opens is no
    longer left when it returns. *)
Definition opens_once {A} (path : string) (m : M W A) : Prop :=
  forall st,
    exists new,
      trace (snd (m st)) = trace st ++ new
      /\ open_count path new
         + (if is_ok (fst (m st)) then opens_left path (snd (m st)) else 0)
         <= opens_left path st.

(** [m] hands a prefix of [l] to the parsers, and all of [l] when it
    returns. *)
Definition parses {A} (m : M W A) (l : list (format * string)) : Prop :=
  forall st,
    exists new,
      trace (snd (m st)) = trace st ++ new
      /\ parsed new `prefix_of` l
      /\ (is_ok (fst (m st)) = true -> parsed new = l).
End Opens.

(** The files named after the format flags, in the order of
    [FILE_PROCESSOR_DEFINTIONS] and, under one flag, of the command line. *)
Definition files_in_table_order (a : args) : list (format * string) :=
  flat_map (fun name => map (fun file => (name, file))
                            (default [] (arg_files a name)))
           FILE_PROCESSOR_DEFINTIONS.

(** The events of a file that is parsed with no plugin registered. *)
Definition plain_parse_events {W} (ext : externals W) (file : string)
    (func : format) (records : list pyval) : list event :=
  EvStderr ("processing [" +:+ file +:+ "]" +:+ nl)
  :: EvParse func file
  :: map (fun record => EvAdapt record (adapter_adapt ext record)) records.

(** [--import --parse --capture-filter keep_odd.py --burp-xml a.xml] *)
Definition demo_args_import : args :=
  Args None false true true (Some ["keep_odd.py"]) None
       (Demo.only burp_xml ["a.xml"]).

(** [--parse --burp-xml five.xml --burp-log a.xml]: the flags are given in
    the reverse of the table's order. *)
Definition demo_args_two_formats : args :=
  Args None false false true None None
       (fun f => match f with
                 | burp_xml => Some ["five.xml"]
                 | burp_log => Some ["a.xml"]
                 | _ => None
                 end).

(** [--parse --capture-filter keep_odd.py missing.py --burp-xml a.xml]:
    the second script does not exist. *)
Definition demo_args_missing_plugin : args :=
  Args None false false true (Some ["keep_odd.py"; "missing.py"]) None
       (Demo.only burp_xml ["a.xml"]).

(** The world of [Demo.ext] with parsers that are interrupted after the
    first record, as by Ctrl-C. *)
Definition demo_ext_interrupted : externals Demo.world :=
  {| os_path_exists := os_path_exists Demo.ext;
     open_read := open_read Demo.ext;
     py_compile := py_compile Demo.ext;
     py_exec := py_exec Demo.ext;
     file_processor := fun _ _ _ =>
       yields [PyInt 1] (SFail Demo.KeyboardInterrupt);
     adapter_adapt := adapter_adapt Demo.ext;
     raft_version := raft_version Demo.ext;
     base_exception_status := base_exception_status Demo.ext |}.

(** [--parse --capture-filter both.py both.py --process-capture both.py
      --burp-xml a.xml]: one script named three times. *)
Definition demo_args_shared : args :=
  Args None false false true (Some ["both.py"; "both.py"]) (Some ["both.py"])
       (Demo.only burp_xml ["a.xml"]).

(** Who the loop over the records may call, given the callables found
    before it: a filter call is made for a pair of [filters], a processor
    call for a pair of [processors], and [initialize] is not called. *)
Definition called_from {W} (filters processors : list (string * pyfunc W))
    (ev : event) : Prop :=
  match ev with
  | EvFilter s _ _ => exists f, (s, f) ∈ filters
  | EvProcess s _ _ => exists f, (s, f) ∈ processors
  | EvInitialize _ _ _ => False
  | _ => True
  end.

Definition is_parser_call (ev : event) : bool :=
  match ev with EvParse _ _ => true | _ => false end.

(** A file argument that has no [*] and exists, whatever the plugins have
    done to the world by the time it is looked at. *)
Definition plain_existing {W} (ext : externals W) (filearg : string) : Prop :=
  contains_char "*" filearg = false
  /\ forall w, os_path_exists ext filearg w = true.

(** The instance a dictionary holds was made from a class of [ns] and
    inspected, and its public bound methods are entries of [functions]:
    in the world the constructor left, [dir] listed the names [items],
    then the attribute of each public name was read, and every name whose
    attribute is a bound method is a key. *)
Definition methods_collected {W} (ns : list (string * ns_value W))
    (env : script_env W) : Prop :=
  forall inst,
    instance_ env = Some inst ->
    exists cls construct w0 w1 items w2 attrs w3,
      (cls, NsClass construct) ∈ ns
      /\ construct w0 = (Ok inst, w1)
      /\ inst_dir inst w1 = (Ok items, w2)
      /\ read_attrs inst items w2 = (Ok attrs, w3)
      /\ forall key f,
           (key, AttrMethod f) ∈ attrs -> is_Some (functions env !! key).

(** The dictionary [load_script_file] stores for [plugin.py] when it is
    the first script loaded. *)
Definition demo_plugin_env : script_env Demo.world :=
  default (new_script_env "plugin.py")
    (scripts (snd (load_script_file Demo.ext "plugin.py" (init Demo.w0)))
       !! "plugin.py").

(** [p] was given as a file argument of some format flag and has no [*]. *)
Definition named_file (a : args) (p : string) : Prop :=
  contains_char "*" p = false
  /\ exists name arg, arg_files a name = Some arg /\ p ∈ arg.

(** Every parser call of the trace is for a named file. *)
Definition parses_named (a : args) (ev : event) : Prop :=
  match ev with
  | EvParse _ p => named_file a p
  | _ => True
  end.

(** The value of [file_list] only holds named files. *)
Definition file_list_named (a : args) (file_list : option (list string))
  : Prop :=
  forall l, file_list = Some l -> Forall (named_file a) l.

(** [--parse --burp-log a.xml --burp-xml '*.xml'] *)
Definition demo_args_star : args :=
  Args None false false true None None
       (fun f => match f with
                 | burp_log => Some ["a.xml"]
                 | burp_xml => Some ["*.xml"]
                 | _ => None
                 end).

(** ** Truth value testing and the capture the processors receive *)







(** ** Calls into plugin code *)

(** The call an event of the parsing phase stands for: which script, which
    entry of its [functions], on which argument. *)
Definition event_call (ev : event) : option (string * string * pyval) :=
  match ev with
  | EvInitialize script file _ => Some (script, "initialize", PyStr file)
  | EvFilter script arg _ => Some (script, "capture_filter", arg)
  | EvProcess script arg _ => Some (script, "process_capture", arg)
  | _ => None
  end.

(** The calls of a trace, in order. *)
Definition calls_made (tr : list event) : list (string * string * pyval) :=
  omap event_call tr.

(** What an event says of the outcome of its call. *)
Definition event_agrees (ev : event) (r : outcome pyval) : bool :=
  match ev with
  | EvInitialize _ _ ok => bool_decide (is_ok r = ok)
  | EvFilter _ _ res | EvProcess _ _ res => bool_decide (r = res)
  | _ => true
  end.

Section Replay.
Context {W : Type}.

(** [script_env['functions'].get(capability)] for the dictionary of
    [script]. *)
Definition callable_of (m : gmap string (script_env W))
    (script capability : string) : option (pyfunc W) :=
  env ← m !! script; functions env !! capability.

(** The world after the calls of a trace, made one after the other from
    [w], each on the callable its script offers under the name the event
    stands for; [None] when a script offers no such callable or a call
    does not end as its event says. *)
Fixpoint replay (m : gmap string (script_env W)) (tr : list event) (w : W)
  : option W :=
  match tr with
  | [] => Some w
  | ev :: rest =>
      match event_call ev with
      | None => replay m rest w
      | Some (script, capability, arg) =>
          match callable_of m script capability with
          | None => None
          | Some f =>
              let (r, w') := fn_call f arg w in
              if event_agrees ev r then replay m rest w' else None
          end
      end
  end.

(** [sf] is a script of [m] together with what it offers under
    [capability]. *)
Definition offers (m : gmap string (script_env W)) (capability : string)
    (sf : string * pyfunc W) : Prop :=
  callable_of m (fst sf) capability = Some (snd sf).

(** Run from a state whose scripts offer what those of [m0] offer, [m]
    changes the world by the calls it writes to the trace and by nothing
    else, whether it returns or raises; the scripts go on offering the
    same, and a value it returns is in [post]. *)
Definition replays {A} (m0 : gmap string (script_env W)) (m : M W A)
    (post : A -> Prop) : Prop :=
  forall st,
    same_functions m0 (scripts st) ->
    exists new,
      trace (snd (m st)) = trace st ++ new
      /\ replay m0 new (world st) = Some (world (snd (m st)))
      /\ same_functions m0 (scripts (snd (m st)))
      /\ forall a, fst (m st) = Ok a -> post a.

End Replay.

(** A second call of [process_args] on the same object: the run of
    [Demo.args_pipeline] has left [keep_odd.py], [both.py] and [store.py]
    cached with their flags set, and the loading loops of
    [demo_args_shared] have then registered [both.py] alone, three times. *)
Definition demo_shared_loaded : state Demo.world :=
  snd (load_plugins Demo.ext demo_args_shared
         (snd (process_args Demo.ext Demo.args_pipeline (init Demo.w0)))).

(** The state in which [process_args] has loaded the scripts of
    [demo_args_roles]. *)
Definition demo_roles_loaded : state Demo.world :=
  snd (load_plugins Demo.ext demo_args_roles (init Demo.w0)).

(** How often [line] was written into the journal. *)
Definition journal_count (line : string) (w : Demo.world) : nat :=
  length (filter (fun l => l = line) w).

(** * Properties *)

(** ** Rules for [hoare] *)

Section HoareRules.
Context {W : Type}.
Implicit Types (st : state W) (P : event -> Prop).

Lemma emitted_eq {A} (m : M W A) st new :
  trace (snd (m st)) = trace st ++ new -> emitted m st = new.
Proof.
  intros H. unfold emitted. rewrite H. apply drop_app_length.
Qed.

Lemma hoare_trace {A} pre (m : M W A) P post st :
  hoare pre m P post -> pre st ->
  trace (snd (m st)) = trace st ++ emitted m st
  /\ Forall P (emitted m st).
Proof.
  intros H Hpre. destruct (H st Hpre) as (new & Htr & HP & _).
  rewrite (emitted_eq _ _ _ Htr). auto.
Qed.

Lemma hoare_conseq {A} (pre pre' : state W -> Prop) (m : M W A) P P'
    (post post' : A -> state W -> Prop) :
  hoare pre m P post ->
  (forall st, pre' st -> pre st) ->
  (forall ev, P ev -> P' ev) ->
  (forall a st, post a st -> post' a st) ->
  hoare pre' m P' post'.
Proof.
  intros H Hpre HP Hpost st Hst.
  destruct (H st (Hpre _ Hst)) as (new & Htr & Hnew & Hok).
  exists new. split; [done|]. split.
  - eapply Forall_impl; eauto.
  - intros a Ha. eauto.
Qed.

Lemma hoare_ret {A} (pre : state W -> Prop) (a : A) P
    (post : A -> state W -> Prop) :
  (forall st, pre st -> post a st) -> hoare pre (ret a) P post.
Proof.
  intros H st Hst. exists []. simpl. rewrite app_nil_r.
  split; [done|]. split; [constructor|].
  intros a' [= <-]. auto.
Qed.

Lemma hoare_raise {A} (pre : state W -> Prop) e P
    (post : A -> state W -> Prop) :
  hoare pre (raise e) P post.
Proof.
  intros st _. exists []. simpl. rewrite app_nil_r.
  split; [done|]. split; [constructor|]. intros a [=].
Qed.

Lemma hoare_bind {A B} (pre : state W -> Prop) (m : M W A) (k : A -> M W B)
    P (mid : A -> state W -> Prop) (post : B -> state W -> Prop) :
  hoare pre m P mid ->
  (forall a, hoare (mid a) (k a) P post) ->
  hoare pre (bind m k) P post.
Proof.
  intros Hm Hk st Hst.
  destruct (Hm st Hst) as (new1 & Htr1 & HP1 & Hok1).
  unfold bind. destruct (m st) as [[a|e] st1] eqn:E; simpl in *.
  - destruct (Hk a st1 (Hok1 a eq_refl)) as (new2 & Htr2 & HP2 & Hok2).
    exists (new1 ++ new2). rewrite Htr2, Htr1, app_assoc.
    split; [done|]. split; [by apply Forall_app|]. done.
  - exists new1. split; [done|]. split; [done|]. intros b [=].
Qed.

Lemma hoare_get (pre : state W -> Prop) P (post : state W -> state W -> Prop) :
  (forall st, pre st -> post st st) -> hoare pre get P post.
Proof.
  intros H st Hst. exists []. simpl. rewrite app_nil_r.
  split; [done|]. split; [constructor|]. intros a [= <-]. auto.
Qed.

Lemma hoare_modify (pre : state W -> Prop) (f : state W -> state W) P
    (post : unit -> state W -> Prop) :
  (forall st, trace (f st) = trace st) ->
  (forall st, pre st -> post tt (f st)) ->
  hoare pre (modify f) P post.
Proof.
  intros Htr H st Hst. exists []. simpl. rewrite app_nil_r, Htr.
  split; [done|]. split; [constructor|]. intros [] _. auto.
Qed.

Lemma hoare_emit (pre : state W -> Prop) ev P
    (post : unit -> state W -> Prop) :
  P ev ->
  (forall st, pre st -> post tt (log ev st)) ->
  hoare pre (emit ev) P post.
Proof.
  intros HP H st Hst. exists [ev]. simpl.
  split; [done|]. split; [by repeat constructor|]. intros [] _. auto.
Qed.

Lemma hoare_extern {A} (pre : state W -> Prop)
    (call : W -> outcome A * W) (ev : outcome A -> event) P
    (post : A -> state W -> Prop) :
  (forall r, P (ev r)) ->
  (forall st a w, pre st -> post a (log (ev (Ok a)) (set_world w st))) ->
  hoare pre (extern call ev) P post.
Proof.
  intros HP H st Hst. unfold extern.
  destruct (call (world st)) as [r w] eqn:E. exists [ev r]. simpl.
  split; [done|]. split; [by repeat constructor|].
  intros a Hr. subst r. auto.
Qed.

Lemma hoare_try {A} (pre : state W -> Prop) (body : M W A)
    (handler : exn -> M W A) P (post : A -> state W -> Prop) :
  hoare pre body P post ->
  (forall e, hoare (fun _ => True) (handler e) P post) ->
  hoare pre (try_except body handler) P post.
Proof.
  intros Hb Hh st Hst.
  destruct (Hb st Hst) as (new1 & Htr1 & HP1 & Hok1).
  unfold try_except. destruct (body st) as [[a|e] st1] eqn:E; simpl in *.
  - exists new1. auto.
  - destruct (exc_is_Exception e).
    + destruct (Hh e st1 I) as (new2 & Htr2 & HP2 & Hok2).
      exists (new1 ++ new2). rewrite Htr2, Htr1, app_assoc.
      split; [done|]. split; [by apply Forall_app|]. done.
    + exists new1. split; [done|]. split; [done|]. intros b [=].
Qed.

Lemma hoare_assume {A} (pre : state W -> Prop) (m : M W A) P
    (post : A -> state W -> Prop) (phi : Prop) :
  (forall st, pre st -> phi) ->
  (phi -> hoare pre m P post) ->
  hoare pre m P post.
Proof. intros Hphi H st Hst. apply H; eauto. Qed.

(** The handler of both [try] statements: [print(error)], then [raise]. *)
Lemma hoare_print_raise {A} e P (post : A -> state W -> Prop) :
  P (EvPrint e) ->
  hoare (fun _ => True) (emit (EvPrint e) ;; raise e) P post.
Proof.
  intros HP. eapply hoare_bind.
  - apply hoare_emit with (post := fun _ _ => True); auto.
  - intros ?. apply hoare_raise.
Qed.
End HoareRules.

(** Closes the side conditions of the rules. *)
Ltac hsolve :=
  intros; cbn beta in *;
  repeat match goal with
         | H : _ /\ _ |- _ => destruct H
         | H : exists _, _ |- _ => destruct H
         end;
  subst; eauto.

(** ** Who is called in which role *)

Section RoleProofs.
Context {W : Type} (ext : externals W).
Implicit Types (st : state W) (cfs pcs refs : list string).
Implicit Types (filters processors : list (string * pyfunc W)).

Lemma same_lists_stable cfs pcs st st' :
  capture_filter_scripts st' = capture_filter_scripts st ->
  process_capture_scripts st' = process_capture_scripts st ->
  same_lists cfs pcs st -> same_lists cfs pcs st'.
Proof. unfold same_lists. intros -> ->. done. Qed.

Lemma run_initializer_lists cfs pcs ref (f : pyfunc W) file P :
  (forall s g ok, P (EvInitialize s g ok)) ->
  hoare (same_lists cfs pcs) (run_initializer ref f file) P
        (fun _ => same_lists cfs pcs).
Proof.
  intros HP. unfold run_initializer. eapply hoare_bind.
  - apply hoare_extern with (post := fun _ => same_lists cfs pcs); [done|].
    intros st x w. by apply same_lists_stable.
  - intros ?. apply hoare_modify; [done|].
    intros st. by apply same_lists_stable.
Qed.

Lemma collect_capability_lists cfs pcs capability file P refs :
  (forall s g ok, P (EvInitialize s g ok)) ->
  forall all acc,
    refs ⊆ all -> taken_from all acc ->
    hoare (same_lists cfs pcs) (collect_capability capability file refs acc) P
          (fun l st => same_lists cfs pcs st /\ taken_from all l).
Proof.
  intros HP all. induction refs as [|ref rest IH]; intros acc Hsub Hacc; simpl.
  - apply hoare_ret. auto.
  - assert (Hrest : rest ⊆ all) by set_solver.
    assert (Href : ref ∈ all) by set_solver.
    eapply hoare_bind.
    { apply hoare_get with (post := fun s st => same_lists cfs pcs st /\ s = st).
      auto. }
    intros s. destruct (scripts s !! ref) as [env|].
    2:{ eapply hoare_conseq; [apply (IH acc Hrest Hacc)|..]; hsolve. }
    eapply hoare_bind with (mid := fun _ => same_lists cfs pcs).
    { destruct (functions env !! "initialize") as [initializer|].
      - destruct (negb (initialized env)).
        + eapply hoare_conseq;
            [by apply (run_initializer_lists cfs pcs)|..]; hsolve.
        + apply hoare_ret. hsolve.
      - apply hoare_ret. hsolve. }
    intros []. destruct (functions env !! capability) as [f|].
    + apply IH; [done|]. apply Forall_app. split; [done|]. by repeat constructor.
    + by apply IH.
Qed.

Lemma call_filter_lists cfs pcs (f : string * pyfunc W) capture :
  fst f ∈ cfs ->
  hoare (same_lists cfs pcs) (call_filter f capture) (role_ok cfs pcs)
        (fun _ => same_lists cfs pcs).
Proof.
  intros Hf. apply hoare_extern; [done|].
  intros st x w. by apply same_lists_stable.
Qed.

Lemma call_processor_lists cfs pcs (f : string * pyfunc W) capture :
  fst f ∈ pcs ->
  hoare (same_lists cfs pcs) (call_processor f capture) (role_ok cfs pcs)
        (fun _ => same_lists cfs pcs).
Proof.
  intros Hf. apply hoare_extern; [done|].
  intros st x w. by apply same_lists_stable.
Qed.

Lemma apply_filters_lists cfs pcs filters capture :
  taken_from cfs filters ->
  hoare (same_lists cfs pcs) (apply_filters filters capture) (role_ok cfs pcs)
        (fun _ => same_lists cfs pcs).
Proof.
  induction 1 as [|f rest Hf Hrest IH]; simpl.
  - by apply hoare_ret.
  - eapply hoare_bind; [by apply call_filter_lists|].
    intros result. destruct (negb (truthy result)); [by apply hoare_ret|done].
Qed.

Lemma apply_processors_lists cfs pcs processors capture :
  taken_from pcs processors ->
  hoare (same_lists cfs pcs) (apply_processors processors capture)
        (role_ok cfs pcs) (fun _ => same_lists cfs pcs).
Proof.
  induction 1 as [|f rest Hf Hrest IH]; simpl.
  - by apply hoare_ret.
  - eapply hoare_bind; [by apply call_processor_lists|]. done.
Qed.

Lemma process_record_lists cfs pcs filters processors record :
  taken_from cfs filters -> taken_from pcs processors ->
  hoare (same_lists cfs pcs) (process_record ext filters processors record)
        (role_ok cfs pcs) (fun _ => same_lists cfs pcs).
Proof.
  intros Hf Hp. unfold process_record. eapply hoare_bind.
  { apply hoare_extern with (post := fun _ => same_lists cfs pcs); [done|].
    intros st x w. by apply same_lists_stable. }
  intros capture. eapply hoare_bind; [by apply apply_filters_lists|].
  intros skip. destruct (negb skip).
  - by apply apply_processors_lists.
  - by apply hoare_ret.
Qed.

Lemma stream_loop_lists cfs pcs filters processors s :
  taken_from cfs filters -> taken_from pcs processors ->
  hoare (same_lists cfs pcs) (stream_loop ext filters processors s)
        (role_ok cfs pcs) (fun _ => same_lists cfs pcs).
Proof.
  intros Hf Hp. induction s as [|record rest IH|e]; simpl.
  - by apply hoare_ret.
  - eapply hoare_bind; [by apply process_record_lists|]. done.
  - apply hoare_raise.
Qed.

Lemma run_stream_lists cfs pcs filters processors file func :
  taken_from cfs filters -> taken_from pcs processors ->
  hoare (same_lists cfs pcs) (run_stream ext filters processors file func)
        (role_ok cfs pcs) (fun _ => same_lists cfs pcs).
Proof.
  intros Hf Hp. unfold run_stream. apply hoare_try.
  - eapply hoare_bind.
    { apply hoare_get with (post := fun _ => same_lists cfs pcs). auto. }
    intros s. eapply hoare_bind.
    { apply hoare_emit with (post := fun _ => same_lists cfs pcs); [done|].
      intros st. by apply same_lists_stable. }
    intros ?. by apply stream_loop_lists.
  - intros e. by apply hoare_print_raise.
Qed.

Lemma setup_plugins_lists cfs pcs file :
  hoare (same_lists cfs pcs) (setup_plugins file) (role_ok cfs pcs)
        (fun plugins st =>
           same_lists cfs pcs st
           /\ taken_from cfs (fst plugins) /\ taken_from pcs (snd plugins)).
Proof.
  unfold setup_plugins, reset_initialized. eapply hoare_bind.
  { apply hoare_modify with (post := fun _ => same_lists cfs pcs); [done|].
    intros st. by apply same_lists_stable. }
  intros ?. eapply hoare_bind.
  { apply hoare_get with (post := fun s st => same_lists cfs pcs st /\ s = st).
    auto. }
  intros s.
  apply hoare_assume with (phi := same_lists cfs pcs s); [hsolve|].
  intros [Hcfs Hpcs]. rewrite Hcfs, Hpcs.
  apply hoare_bind with
    (mid := fun l st => same_lists cfs pcs st /\ taken_from cfs l).
  { eapply hoare_conseq;
      [apply (collect_capability_lists cfs pcs _ _ (role_ok cfs pcs) cfs
                (fun _ _ _ => I) cfs []); [done|constructor]|..]; hsolve. }
  intros filters.
  apply hoare_bind with
    (mid := fun l st => same_lists cfs pcs st
                        /\ taken_from cfs filters /\ taken_from pcs l).
  { intros st [Hst Hfilters].
    destruct (collect_capability_lists cfs pcs "process_capture" file
                (role_ok cfs pcs) pcs (fun _ _ _ => I) pcs []
                (reflexivity _) (List.Forall_nil _) st Hst)
      as (new & ? & ? & Hpost).
    exists new. split; [done|]. split; [done|].
    intros l Hl. destruct (Hpost l Hl). auto. }
  intros processors. apply hoare_ret. auto.
Qed.

Lemma parse_one_file_lists cfs pcs file func :
  hoare (same_lists cfs pcs) (parse_one_file ext file func) (role_ok cfs pcs)
        (fun _ => same_lists cfs pcs).
Proof.
  unfold parse_one_file. eapply hoare_bind.
  { apply hoare_emit with (post := fun _ => same_lists cfs pcs); [done|].
    intros st. by apply same_lists_stable. }
  intros ?. eapply hoare_bind; [apply setup_plugins_lists|].
  intros [filters processors]. simpl.
  intros st (Hst & Hf & Hp). by apply run_stream_lists.
Qed.

Lemma parse_files_lists cfs pcs func file_list :
  hoare (same_lists cfs pcs) (parse_files ext func file_list) (role_ok cfs pcs)
        (fun _ => same_lists cfs pcs).
Proof.
  induction file_list as [|file rest IH]; simpl.
  - by apply hoare_ret.
  - eapply hoare_bind; [apply parse_one_file_lists|]. done.
Qed.

Lemma fileargs_loop_lists cfs pcs func arg file_list :
  hoare (same_lists cfs pcs) (fileargs_loop ext func arg file_list)
        (role_ok cfs pcs) (fun _ => same_lists cfs pcs).
Proof.
  revert file_list. induction arg as [|filearg rest IH]; intros file_list; simpl.
  - by apply hoare_ret.
  - eapply hoare_bind.
    { apply hoare_get with (post := fun _ => same_lists cfs pcs). auto. }
    intros s. eapply hoare_bind with (mid := fun _ => same_lists cfs pcs).
    { destruct (contains_char _ filearg); [apply hoare_raise|].
      destruct (os_path_exists _ _ _); by apply hoare_ret. }
    intros [l|]; [|apply hoare_raise].
    eapply hoare_bind; [apply parse_files_lists|]. done.
Qed.

Lemma formats_loop_lists cfs pcs a defs file_list :
  hoare (same_lists cfs pcs) (formats_loop ext a defs file_list)
        (role_ok cfs pcs) (fun _ => same_lists cfs pcs).
Proof.
  revert file_list. induction defs as [|name rest IH]; intros file_list; simpl.
  - by apply hoare_ret.
  - destruct (arg_files a name) as [arg|]; [|done].
    eapply hoare_bind; [apply fileargs_loop_lists|]. done.
Qed.

Lemma run_parse_process_loop_lists cfs pcs a :
  hoare (same_lists cfs pcs) (run_parse_process_loop ext a) (role_ok cfs pcs)
        (fun _ => same_lists cfs pcs).
Proof.
  unfold run_parse_process_loop.
  eapply hoare_bind; [apply formats_loop_lists|].
  intros ?. by apply hoare_ret.
Qed.

Lemma collect_methods_lists cfs pcs path (inst : instance W) items
    (env : script_env W) P :
  (forall ev, is_load_event ev = true -> P ev) ->
  hoare (same_lists cfs pcs) (collect_methods path inst items env) P
        (fun _ => same_lists cfs pcs).
Proof.
  intros HP. revert env.
  induction items as [|item rest IH]; intros env; simpl.
  - by apply hoare_ret.
  - destruct (negb (startswith_char "_" item)); [|done].
    eapply hoare_bind.
    { apply hoare_extern with (post := fun _ => same_lists cfs pcs).
      - intros r. by apply HP.
      - intros st x w. by apply same_lists_stable. }
    intros [m|ty c]; done.
Qed.

Lemma collect_bindings_lists cfs pcs path ns (env : script_env W) P :
  (forall ev, is_load_event ev = true -> P ev) ->
  hoare (same_lists cfs pcs) (collect_bindings path ns env) P
        (fun _ => same_lists cfs pcs).
Proof.
  intros HP. revert env.
  induction ns as [|[key value] rest IH]; intros env; simpl.
  - by apply hoare_ret.
  - destruct value as [construct|f|ty c]; [|done..].
    eapply hoare_bind.
    { apply hoare_extern with (post := fun _ => same_lists cfs pcs).
      - intros r. by apply HP.
      - intros st x w. by apply same_lists_stable. }
    intros inst. eapply hoare_bind.
    { apply hoare_extern with (post := fun _ => same_lists cfs pcs).
      - intros r. by apply HP.
      - intros st x w. by apply same_lists_stable. }
    intros items. eapply hoare_bind; [by apply collect_methods_lists|].
    done.
Qed.

Lemma load_script_file_lists cfs pcs path P :
  (forall ev, is_load_event ev = true -> P ev) ->
  (forall e, P (EvPrint e)) ->
  hoare (same_lists cfs pcs) (load_script_file ext path) P
        (fun ref st => ref = path /\ same_lists cfs pcs st).
Proof.
  intros HP Hprint. unfold load_script_file, compile_and_collect.
  eapply hoare_bind.
  { apply hoare_get with (post := fun _ => same_lists cfs pcs). auto. }
  intros s. destruct (scripts s !! path); [by apply hoare_ret|].
  eapply hoare_bind.
  { apply hoare_extern with (post := fun _ => same_lists cfs pcs).
    - intros r. by apply HP.
    - intros st x w. by apply same_lists_stable. }
  intros python_code.
  eapply hoare_bind with (mid := fun _ => same_lists cfs pcs).
  { apply hoare_try; [|intros e; by apply hoare_print_raise].
    eapply hoare_bind.
    { apply hoare_extern with (post := fun _ => same_lists cfs pcs).
      - intros r. by apply HP.
      - intros st x w. by apply same_lists_stable. }
    intros ?. eapply hoare_bind.
    { apply hoare_extern with (post := fun _ => same_lists cfs pcs).
      - intros r. by apply HP.
      - intros st x w. by apply same_lists_stable. }
    intros ns. apply collect_bindings_lists. intros. by apply HP. }
  intros env. eapply hoare_bind.
  { apply hoare_modify with (post := fun _ => same_lists cfs pcs); [done|].
    intros st. by apply same_lists_stable. }
  intros ?. by apply hoare_ret.
Qed.

Lemma load_capture_filter_scripts_lists pcs arg P :
  (forall ev, is_load_event ev = true -> P ev) ->
  (forall e, P (EvPrint e)) ->
  forall cfs,
    hoare (same_lists cfs pcs)
          (load_scripts ext append_capture_filter_script arg) P
          (fun _ => same_lists (cfs ++ arg) pcs).
Proof.
  intros HP Hprint. induction arg as [|filearg rest IH]; intros cfs; simpl.
  - apply hoare_ret. intros st. by rewrite app_nil_r.
  - eapply hoare_bind; [by apply load_script_file_lists|].
    intros ref. eapply hoare_bind with
      (mid := fun _ => same_lists (cfs ++ [filearg]) pcs).
    + apply hoare_modify; [done|]. intros st (-> & [<- <-]). done.
    + intros ?. eapply hoare_conseq; [apply IH|..]; hsolve.
      match goal with H : same_lists _ _ _ |- _ =>
        by rewrite <- app_assoc in H end.
Qed.

Lemma load_process_capture_scripts_lists cfs arg P :
  (forall ev, is_load_event ev = true -> P ev) ->
  (forall e, P (EvPrint e)) ->
  forall pcs,
    hoare (same_lists cfs pcs)
          (load_scripts ext append_process_capture_script arg) P
          (fun _ => same_lists cfs (pcs ++ arg)).
Proof.
  intros HP Hprint. induction arg as [|filearg rest IH]; intros pcs; simpl.
  - apply hoare_ret. intros st. by rewrite app_nil_r.
  - eapply hoare_bind; [by apply load_script_file_lists|].
    intros ref. eapply hoare_bind with
      (mid := fun _ => same_lists cfs (pcs ++ [filearg])).
    + apply hoare_modify; [done|]. intros st (-> & [<- <-]). done.
    + intros ?. eapply hoare_conseq; [apply IH|..]; hsolve.
      match goal with H : same_lists _ _ _ |- _ =>
        by rewrite <- app_assoc in H end.
Qed.

(** After the two loading loops the lists hold the scripts named after
    [--capture-filter] and [--process-capture], in that order. *)
Lemma load_plugins_lists a P :
  (forall ev, is_load_event ev = true -> P ev) ->
  (forall e, P (EvPrint e)) ->
  hoare (fun _ => True) (load_plugins ext a) P
        (fun _ => same_lists (default [] (arg_capture_filter a))
                             (default [] (arg_process_capture a))).
Proof.
  intros Hload Hprint.
  set (cf := default [] (arg_capture_filter a)).
  set (pc := default [] (arg_process_capture a)).
  unfold load_plugins.
  apply hoare_bind with
    (mid := fun _ st => capture_filter_scripts st = []).
  { by apply hoare_modify. }
  intros ?. apply hoare_bind with
    (mid := fun _ st => capture_filter_scripts st = cf).
  { destruct (arg_capture_filter a) as [arg|] eqn:E; subst cf; simpl.
    - intros st Hst.
      destruct (load_capture_filter_scripts_lists
                  (process_capture_scripts st) arg P
                  Hload Hprint [] st) as (new & ? & ? & Hpost); [done|].
      exists new. split; [done|]. split; [done|].
      intros x Hx. by destruct (Hpost x Hx).
    - by apply hoare_ret. }
  intros ?. apply hoare_bind with (mid := fun _ => same_lists cf []).
  { by apply hoare_modify. }
  intros ?. destruct (arg_process_capture a) as [arg|] eqn:E; subst pc; simpl.
  - by apply (load_process_capture_scripts_lists cf arg _ Hload Hprint []).
  - by apply hoare_ret.
Qed.

Lemma load_plugins_registers a st st' :
  load_plugins ext a st = (Ok tt, st') ->
  capture_filter_scripts st' = default [] (arg_capture_filter a)
  /\ process_capture_scripts st' = default [] (arg_process_capture a).
Proof.
  intros Hrun.
  destruct (load_plugins_lists a (fun _ => True) (fun _ _ => I) (fun _ => I)
              st I) as (new & _ & _ & Hpost).
  rewrite Hrun in Hpost. by apply (Hpost tt).
Qed.

Lemma process_args_roles a :
  hoare (fun _ => True) (process_args ext a)
        (role_ok (default [] (arg_capture_filter a))
                 (default [] (arg_process_capture a)))
        (fun _ _ => True).
Proof.
  set (cf := default [] (arg_capture_filter a)).
  set (pc := default [] (arg_process_capture a)).
  unfold process_args. eapply hoare_bind.
  { apply hoare_get with (post := fun _ _ => True). auto. }
  intros s. destruct (db_missing ext a (world s)) as [message|].
  { eapply hoare_bind with (mid := fun _ _ => True); [by apply hoare_emit|].
    intros ?. by apply hoare_ret. }
  eapply hoare_bind.
  { apply load_plugins_lists; [by intros []|done]. }
  intros ?. apply hoare_bind with (mid := fun _ _ => True).
  { destruct (arg_import a); [by apply hoare_ret|].
    destruct (arg_parse a).
    - eapply hoare_conseq; [apply run_parse_process_loop_lists|..]; hsolve.
    - apply hoare_emit; [done|]. hsolve. }
  intros ?. by apply hoare_ret.
Qed.
End RoleProofs.

(** ** One record: filters, then processors *)

Section RecordProofs.
Context {W : Type} (ext : externals W).
Implicit Types (st : state W) (capture record : pyval).
Implicit Types (filters processors : list (string * pyfunc W)).

Lemma apply_filters_cons (f : string * pyfunc W) filters capture st :
  apply_filters (f :: filters) capture st =
  match fn_call (snd f) capture (world st) with
  | (Ok v, w) =>
      let st1 := log (EvFilter (fst f) capture (Ok v)) (set_world w st) in
      if truthy v then apply_filters filters capture st1 else (Ok true, st1)
  | (Raise e, w) =>
      (Raise e, log (EvFilter (fst f) capture (Raise e)) (set_world w st))
  end.
Proof.
  simpl. unfold bind, call_filter, extern.
  destruct (fn_call (snd f) capture (world st)) as [[v|e] w]; [|done].
  by destruct (truthy v).
Qed.

Lemma apply_processors_cons (f : string * pyfunc W) processors capture st :
  apply_processors (f :: processors) capture st =
  match fn_call (snd f) capture (world st) with
  | (Ok v, w) =>
      apply_processors processors capture
        (log (EvProcess (fst f) capture (Ok v)) (set_world w st))
  | (Raise e, w) =>
      (Raise e, log (EvProcess (fst f) capture (Raise e)) (set_world w st))
  end.
Proof.
  simpl. unfold bind, call_processor, extern.
  by destruct (fn_call (snd f) capture (world st)) as [[v|e] w].
Qed.

(** The filter loop calls a prefix of the filters, each on [capture]; it
    stops early exactly when a filter raises or returns a falsy value, and
    answers [skip = True] exactly in the second case. *)
Lemma apply_filters_run filters capture st :
  exists new,
    trace (snd (apply_filters filters capture st)) = trace st ++ new
    /\ Forall (fun ev => is_filter_event ev = true) new
    /\ filter_calls new `prefix_of` calls_with capture filters
    /\ existsb falsy_filter new
       = bool_decide (fst (apply_filters filters capture st) = Ok true)
    /\ (fst (apply_filters filters capture st) = Ok false ->
        filter_calls new = calls_with capture filters).
Proof.
  revert st. induction filters as [|f rest IH]; intros st.
  - exists []. simpl. rewrite app_nil_r. repeat split; auto.
  - rewrite apply_filters_cons.
    destruct (fn_call (snd f) capture (world st)) as [[v|e] w]; simpl.
    + destruct (truthy v) eqn:Hv.
      * destruct (IH (log (EvFilter (fst f) capture (Ok v)) (set_world w st)))
          as (new & Htr & Hall & Hpre & Hex & Hfull).
        exists (EvFilter (fst f) capture (Ok v) :: new).
        rewrite Htr. simpl. rewrite Hv, <- app_assoc. simpl.
        repeat split; auto.
        -- by apply prefix_cons.
        -- intros Hok. by rewrite (Hfull Hok).
      * exists [EvFilter (fst f) capture (Ok v)]. simpl. rewrite Hv.
        repeat split; auto.
        -- apply prefix_cons, prefix_nil.
        -- intros [=].
    + exists [EvFilter (fst f) capture (Raise e)]. simpl.
      repeat split; auto.
      * apply prefix_cons, prefix_nil.
      * intros [=].
Qed.

(** The processor loop calls a prefix of the processors, each on
    [capture]; all of them when none raises. *)
Lemma apply_processors_run processors capture st :
  exists new,
    trace (snd (apply_processors processors capture st)) = trace st ++ new
    /\ Forall (fun ev => is_process_event ev = true) new
    /\ process_calls new `prefix_of` calls_with capture processors
    /\ (fst (apply_processors processors capture st) = Ok tt ->
        process_calls new = calls_with capture processors).
Proof.
  revert st. induction processors as [|f rest IH]; intros st.
  - exists []. simpl. rewrite app_nil_r. repeat split; auto.
  - rewrite apply_processors_cons.
    destruct (fn_call (snd f) capture (world st)) as [[v|e] w]; simpl.
    + destruct (IH (log (EvProcess (fst f) capture (Ok v)) (set_world w st)))
        as (new & Htr & Hall & Hpre & Hfull).
      exists (EvProcess (fst f) capture (Ok v) :: new).
      rewrite Htr. simpl. rewrite <- app_assoc. simpl.
      repeat split; auto.
      * by apply prefix_cons.
      * intros Hok. by rewrite (Hfull Hok).
    + exists [EvProcess (fst f) capture (Raise e)]. simpl.
      repeat split; auto.
      * apply prefix_cons, prefix_nil.
      * intros [=].
Qed.

Lemma process_record_eq filters processors record st :
  process_record ext filters processors record st =
  match adapter_adapt ext record with
  | Ok capture =>
      match apply_filters filters capture
              (log (EvAdapt record (Ok capture)) (set_world (world st) st))
      with
      | (Ok false, st2) => apply_processors processors capture st2
      | (Ok true, st2) => (Ok tt, st2)
      | (Raise e, st2) => (Raise e, st2)
      end
  | Raise e =>
      (Raise e, log (EvAdapt record (Raise e)) (set_world (world st) st))
  end.
Proof.
  unfold process_record, bind, extern.
  destruct (adapter_adapt ext record) as [capture|e]; [|done].
  destruct (apply_filters filters capture _) as [[[]|e] st2]; done.
Qed.

Lemma filter_calls_app tr1 tr2 :
  filter_calls (tr1 ++ tr2) = filter_calls tr1 ++ filter_calls tr2.
Proof. apply omap_app. Qed.

Lemma process_calls_app tr1 tr2 :
  process_calls (tr1 ++ tr2) = process_calls tr1 ++ process_calls tr2.
Proof. apply omap_app. Qed.

Lemma filter_events_no_process tr :
  Forall (fun ev => is_filter_event ev = true) tr -> process_calls tr = [].
Proof.
  induction 1 as [|ev tr Hev _ IH]; [done|]. by destruct ev.
Qed.

Lemma process_events_no_filter tr :
  Forall (fun ev => is_process_event ev = true) tr ->
  filter_calls tr = [] /\ existsb falsy_filter tr = false.
Proof.
  induction 1 as [|ev tr Hev _ [IH1 IH2]]; [done|]. by destruct ev.
Qed.

(** What one record adds to the trace: the adapter call, then filter
    calls, then processor calls. *)
Lemma process_record_run filters processors record st :
  exists res fs ps,
    trace (snd (process_record ext filters processors record st))
    = trace st ++ EvAdapt record res :: fs ++ ps
    /\ res = adapter_adapt ext record
    /\ Forall (fun ev => is_filter_event ev = true) fs
    /\ Forall (fun ev => is_process_event ev = true) ps
    /\ forall capture,
         res = Ok capture ->
         filter_calls fs `prefix_of` calls_with capture filters
         /\ process_calls ps `prefix_of` calls_with capture processors
         /\ (existsb falsy_filter fs = true ->
             fst (process_record ext filters processors record st) = Ok tt
             /\ ps = [])
         /\ (existsb falsy_filter fs = false ->
             fst (process_record ext filters processors record st) = Ok tt ->
             filter_calls fs = calls_with capture filters
             /\ process_calls ps = calls_with capture processors).
Proof.
  rewrite process_record_eq.
  destruct (adapter_adapt ext record) as [capture|e] eqn:Hadapt.
  2:{ exists (Raise e), [], []. simpl.
      do 4 (split; [done|]). intros c [=]. }
  set (st1 := log (EvAdapt record (Ok capture)) (set_world (world st) st)).
  destruct (apply_filters_run filters capture st1)
    as (fs & Htr & Hfs & Hpre & Hex & Hfull).
  destruct (apply_filters filters capture st1) as [[[]|e] st2] eqn:Hrun;
    simpl in *.
  - exists (Ok capture), fs, []. rewrite Htr, app_nil_r. simpl.
    rewrite <- app_assoc. simpl.
    do 4 (split; [done|]). intros c [= <-].
    split; [done|]. split; [apply prefix_nil|].
    split; [done|]. rewrite Hex. intros [=].
  - destruct (apply_processors_run processors capture st2)
      as (ps & Htr2 & Hps & Hpre2 & Hfull2).
    exists (Ok capture), fs, ps. rewrite Htr2, Htr. simpl.
    rewrite <- !app_assoc. simpl.
    do 4 (split; [done|]). intros c [= <-].
    split; [done|]. split; [done|].
    split; [rewrite Hex; intros [=]|]. auto.
  - exists (Ok capture), fs, []. rewrite Htr, app_nil_r. simpl.
    rewrite <- app_assoc. simpl.
    do 4 (split; [done|]). intros c [= <-].
    split; [done|]. split; [apply prefix_nil|].
    split; [rewrite Hex; intros [=]|]. intros _ [=].
Qed.
End RecordProofs.

(** ** Walking the registered scripts *)

Section SetupProofs.
Context {W : Type} (ext : externals W).
Implicit Types (st : state W) (m : gmap string (script_env W)).
Implicit Types (refs : list string).
Implicit Types (acc : list (string * pyfunc W)).

Lemma init_count_app script file tr1 tr2 :
  init_count script file (tr1 ++ tr2)
  = init_count script file tr1 + init_count script file tr2.
Proof.
  unfold init_count, init_calls. by rewrite omap_app, filter_app, length_app.
Qed.

Lemma init_count_cons script file s f ok tr :
  init_count script file (EvInitialize s f ok :: tr)
  = (if bool_decide ((s, f) = (script, file)) then 1 else 0)
    + init_count script file tr.
Proof.
  unfold init_count. simpl. rewrite filter_cons.
  case_decide; case_bool_decide; simpl; congruence.
Qed.

Lemma same_functions_refl m : same_functions m m.
Proof. by intros ref. Qed.

Lemma same_functions_trans m1 m2 m3 :
  same_functions m1 m2 -> same_functions m2 m3 -> same_functions m1 m3.
Proof. intros H1 H2 ref. by rewrite H2, H1. Qed.

Lemma same_functions_alter b ref m :
  same_functions m (alter (set_initialized b) ref m).
Proof.
  intros p. rewrite lookup_alter. case_decide; [|done].
  subst. by destruct (m !! p).
Qed.

Lemma same_functions_reset m :
  same_functions m (set_initialized false <$> m).
Proof. intros p. rewrite lookup_fmap. by destruct (m !! p). Qed.

Lemma active_same_functions capability m m' refs :
  same_functions m m' -> active capability m' refs = active capability m refs.
Proof.
  intros H. unfold active. induction refs as [|ref rest IH]; [done|].
  simpl. unfold omap in IH. rewrite IH. specialize (H ref).
  destruct (m' !! ref) as [e'|], (m !! ref) as [e|]; simpl in *;
    try done; by injection H as ->.
Qed.

Lemma pending_alter ref m p :
  pending (alter (set_initialized true) ref m) p
  = if bool_decide (p = ref) then false else pending m p.
Proof.
  unfold pending. rewrite lookup_alter.
  case_decide; case_bool_decide; try congruence.
  subst. destruct (m !! p); simpl; [|done]. by rewrite andb_false_r.
Qed.

Lemma pending_reset m p :
  pending (set_initialized false <$> m) p = has_initialize m p.
Proof.
  unfold pending, has_initialize. rewrite lookup_fmap.
  destruct (m !! p); simpl; [|done]. by rewrite andb_true_r.
Qed.

Lemma collect_capability_cons capability file ref refs acc st :
  collect_capability capability file (ref :: refs) acc st =
  match scripts st !! ref with
  | None => collect_capability capability file refs acc st
  | Some env =>
      let acc' := match functions env !! capability with
                  | Some f => acc ++ [(ref, f)]
                  | None => acc
                  end in
      match functions env !! "initialize" with
      | Some initializer =>
          if initialized env
          then collect_capability capability file refs acc' st
          else
            match fn_call initializer (PyStr file) (world st) with
            | (Ok _, w) =>
                let st1 := log (EvInitialize ref file true) (set_world w st) in
                collect_capability capability file refs acc'
                  (set_scripts (alter (set_initialized true) ref (scripts st1))
                               st1)
            | (Raise e, w) =>
                (Raise e, log (EvInitialize ref file false) (set_world w st))
            end
      | None => collect_capability capability file refs acc' st
      end
  end.
Proof.
  simpl. unfold bind at 1. simpl.
  destruct (scripts st !! ref) as [env|]; [|done].
  unfold bind at 1.
  destruct (functions env !! "initialize") as [initializer|].
  - destruct (initialized env); simpl.
    + by destruct (functions env !! capability).
    + unfold run_initializer, bind, extern, modify.
      destruct (fn_call initializer (PyStr file) (world st)) as [[v|e] w];
        [|done].
      by destruct (functions env !! capability).
  - simpl. by destruct (functions env !! capability).
Qed.

Lemma bool_decide_elem_cons (p ref : string) refs :
  bool_decide (p ∈ ref :: refs)
  = bool_decide (p = ref) || bool_decide (p ∈ refs).
Proof.
  apply eq_true_iff_eq.
  rewrite orb_true_iff, !bool_decide_eq_true, elem_of_cons. done.
Qed.

Lemma bool_decide_elem_app (p : string) (refs1 refs2 : list string) :
  bool_decide (p ∈ refs1 ++ refs2)
  = bool_decide (p ∈ refs1) || bool_decide (p ∈ refs2).
Proof.
  apply eq_true_iff_eq.
  rewrite orb_true_iff, !bool_decide_eq_true, elem_of_app. done.
Qed.

Lemma owed_nil m p : owed m [] p = 0.
Proof.
  unfold owed. rewrite bool_decide_eq_false_2 by apply not_elem_of_nil.
  by rewrite andb_false_r.
Qed.

Lemma owed_cons_skip m ref refs p :
  pending m ref = false -> owed m (ref :: refs) p = owed m refs p.
Proof.
  intros H. unfold owed. rewrite bool_decide_elem_cons.
  case_bool_decide; [|done]. subst. by rewrite H.
Qed.

Lemma owed_cons_call m ref refs p :
  pending m ref = true ->
  owed m (ref :: refs) p
  = (if bool_decide (p = ref) then 1 else 0)
    + owed (alter (set_initialized true) ref m) refs p.
Proof.
  intros H. unfold owed. rewrite bool_decide_elem_cons, pending_alter.
  case_bool_decide; simplify_eq; simpl; [by rewrite H|done].
Qed.

Lemma collect_contract_skip capability file ref refs acc acc' st run :
  pending (scripts st) ref = false ->
  acc' ++ active capability (scripts st) refs
  = acc ++ active capability (scripts st) (ref :: refs) ->
  collect_contract capability file refs acc' st run ->
  collect_contract capability file (ref :: refs) acc st run.
Proof.
  intros Hpend Hacc (new & Htr & Hev & Hcf & Hpc & Hsame & Hle & Hother & Hres).
  exists new. do 5 (split; [done|]).
  split; [intros p; by rewrite owed_cons_skip|]. split; [done|].
  destruct (fst run) as [l|e]; [|done].
  destruct Hres as (-> & Hfail & Hcount & Hp).
  split; [done|]. split; [done|].
  split; [intros p; by rewrite owed_cons_skip|].
  intros p. rewrite Hp, bool_decide_elem_cons.
  destruct (decide (p = ref)) as [->|Hne].
  - by rewrite Hpend.
  - by rewrite (bool_decide_eq_false_2 _ Hne).
Qed.

(** Every walk honours its contract. *)
Lemma collect_capability_run capability file refs :
  forall acc st,
    collect_contract capability file refs acc st
      (collect_capability capability file refs acc st).
Proof.
  induction refs as [|ref rest IH]; intros acc st.
  { exists []. simpl. rewrite !app_nil_r.
    do 4 (split; [done|]). split; [apply same_functions_refl|].
    split; [intros p; rewrite owed_nil; done|]. split; [done|].
    split; [done|]. split; [done|].
    split; [intros p; by rewrite owed_nil|].
    intros p. by rewrite andb_true_r. }
  rewrite collect_capability_cons.
  destruct (scripts st !! ref) as [env|] eqn:Henv.
  2:{ apply collect_contract_skip with (acc' := acc); [|..|apply IH].
      - unfold pending. by rewrite Henv.
      - unfold active. simpl. by rewrite Henv. }
  set (acc' := match functions env !! capability with
               | Some f => acc ++ [(ref, f)]
               | None => acc
               end).
  assert (Hacc : acc' ++ active capability (scripts st) rest
                 = acc ++ active capability (scripts st) (ref :: rest)).
  { unfold active, acc'. simpl. rewrite Henv. simpl.
    destruct (functions env !! capability); simpl; [|done].
    by rewrite <- app_assoc. }
  simpl. fold acc'.
  destruct (functions env !! "initialize") as [initializer|] eqn:Hinit.
  2:{ apply collect_contract_skip with (acc' := acc'); [|done|apply IH].
      unfold pending. by rewrite Henv, Hinit. }
  destruct (initialized env) eqn:Hflag.
  { apply collect_contract_skip with (acc' := acc'); [|done|apply IH].
    unfold pending. rewrite Henv, Hflag. by rewrite andb_false_r. }
  assert (Hpend : pending (scripts st) ref = true).
  { unfold pending. rewrite Henv, Hinit, Hflag.
    rewrite bool_decide_eq_true_2 by eauto. done. }
  destruct (fn_call initializer (PyStr file) (world st)) as [[v|e] w].
  2:{ exists [EvInitialize ref file false]. simpl.
      split; [done|]. split; [by repeat constructor|].
      do 2 (split; [done|]). split; [apply same_functions_refl|].
      split.
      { intros p. rewrite init_count_cons. unfold init_count. simpl.
        unfold owed. rewrite bool_decide_elem_cons.
        case_bool_decide as Hp; simplify_eq; simpl; [|lia].
        rewrite Hpend, bool_decide_eq_true_2 by done. simpl. lia. }
      split; [|done].
      intros p f Hf. rewrite init_count_cons. unfold init_count. simpl.
      rewrite bool_decide_eq_false_2; [done|congruence]. }
  cbv zeta.
  set (st1 := log (EvInitialize ref file true) (set_world w st)).
  set (st2 := set_scripts (alter (set_initialized true) ref (scripts st)) st1).
  destruct (IH acc' st2)
    as (new & Htr & Hev & Hcf & Hpc & Hsame & Hle & Hother & Hres).
  assert (Hcount : forall p n,
             init_count p file new = n ->
             init_count p file (EvInitialize ref file true :: new)
             = (if bool_decide (p = ref) then 1 else 0) + n).
  { intros p n <-. rewrite init_count_cons. f_equal.
    repeat case_bool_decide; simplify_eq; done. }
  assert (Hactive : active capability (scripts st2) rest
                    = active capability (scripts st) rest).
  { apply active_same_functions. apply same_functions_alter. }
  exists (EvInitialize ref file true :: new).
  split; [rewrite Htr; simpl; by rewrite <- app_assoc|].
  split; [by constructor|]. split; [done|]. split; [done|].
  split.
  { eapply same_functions_trans; [|exact Hsame].
    apply (same_functions_alter true ref (scripts st)). }
  split.
  { intros p. rewrite (owed_cons_call _ _ _ _ Hpend).
    rewrite (Hcount p _ eq_refl). specialize (Hle p). simpl in Hle. lia. }
  split.
  { intros p f Hf. rewrite init_count_cons, (Hother p f Hf).
    rewrite bool_decide_eq_false_2; [done|congruence]. }
  destruct (fst (collect_capability capability file rest acc' st2)) as [l|e];
    [|done].
  destruct Hres as (-> & Hfail & Hexact & Hp).
  split; [by rewrite Hactive, Hacc|]. split; [done|].
  split.
  { intros p. rewrite (owed_cons_call _ _ _ _ Hpend).
    by rewrite (Hcount p _ (Hexact p)). }
  intros p. rewrite Hp. simpl. rewrite pending_alter, bool_decide_elem_cons.
  case_bool_decide; simpl; [by rewrite andb_false_r|done].
Qed.

Lemma setup_plugins_eq file st :
  setup_plugins file st =
  let st0 := set_scripts (set_initialized false <$> scripts st) st in
  match collect_capability "capture_filter" file
          (capture_filter_scripts st) [] st0 with
  | (Ok filters, st1) =>
      match collect_capability "process_capture" file
              (process_capture_scripts st) [] st1 with
      | (Ok processors, st2) => (Ok (filters, processors), st2)
      | (Raise e, st2) => (Raise e, st2)
      end
  | (Raise e, st1) => (Raise e, st1)
  end.
Proof.
  unfold setup_plugins, reset_initialized, bind, modify, get, ret. simpl.
  destruct (collect_capability "capture_filter" _ _ _ _) as [[fs|e] st1];
    [|done].
  by destruct (collect_capability "process_capture" _ _ _ _) as [[ps|e] st2].
Qed.

Lemma owed_le_1 m refs p : owed m refs p <= 1.
Proof. unfold owed. destruct (_ && _); lia. Qed.

Lemma existsb_failed_init_app tr1 tr2 :
  existsb failed_init (tr1 ++ tr2)
  = existsb failed_init tr1 || existsb failed_init tr2.
Proof. apply existsb_app. Qed.

Lemma setup_plugins_run file st :
  setup_contract file st (setup_plugins file st).
Proof.
  rewrite setup_plugins_eq. cbv zeta.
  destruct (collect_capability_run "capture_filter" file
              (capture_filter_scripts st) []
              (set_scripts (set_initialized false <$> scripts st) st))
    as (new1 & Htr1 & Hev1 & Hcf1 & Hpc1 & Hsame1 & Hle1 & Hoth1 & Hres1).
  pose proof (same_functions_reset (scripts st)) as Hreset.
  destruct (collect_capability "capture_filter" file _ [] _)
    as [[fs|e] st1] eqn:Hrun1;
    cbn [fst snd scripts set_scripts trace capture_filter_scripts
         process_capture_scripts] in *.
  2:{ exists new1. do 4 (split; [done|]).
      split; [by eapply same_functions_trans|].
      split; [|done].
      intros p. etrans; [apply Hle1|apply owed_le_1]. }
  destruct Hres1 as (-> & Hfail1 & Hexact1 & Hpend1).
  destruct (collect_capability_run "process_capture" file
              (process_capture_scripts st) [] st1)
    as (new2 & Htr2 & Hev2 & Hcf2 & Hpc2 & Hsame2 & Hle2 & Hoth2 & Hres2).
  assert (Hsum : forall p,
             owed (set_initialized false <$> scripts st)
                  (capture_filter_scripts st) p
             + owed (scripts st1) (process_capture_scripts st) p
             = if has_initialize (scripts st) p
                  && bool_decide (p ∈ capture_filter_scripts st
                                      ++ process_capture_scripts st)
               then 1 else 0).
  { intros p. unfold owed. rewrite Hpend1, !pending_reset.
    destruct (has_initialize (scripts st) p); [|done].
    rewrite bool_decide_elem_app.
    by destruct (bool_decide (p ∈ capture_filter_scripts st)),
                (bool_decide (p ∈ process_capture_scripts st)). }
  assert (Hle : forall p, init_count p file (new1 ++ new2) <= 1).
  { intros p. rewrite init_count_app, Hexact1.
    specialize (Hle2 p). specialize (Hsum p).
    destruct (has_initialize (scripts st) p && _); lia. }
  assert (Hactive : active "process_capture" (scripts st1)
                           (process_capture_scripts st)
                    = active "process_capture" (scripts st)
                             (process_capture_scripts st)).
  { apply active_same_functions. by eapply same_functions_trans. }
  rewrite (active_same_functions _ _ _ _ Hreset).
  destruct (collect_capability "process_capture" file _ [] st1)
    as [[ps|e] st2] eqn:Hrun2; cbn [fst snd] in *; exists (new1 ++ new2);
    cbn [fst snd].
  - destruct Hres2 as (-> & Hfail2 & Hexact2 & Hpend2).
    split; [by rewrite Htr2, Htr1, app_assoc|].
    split; [by apply Forall_app|].
    split; [by rewrite Hcf2|]. split; [by rewrite Hpc2|].
    split; [eauto using same_functions_trans|].
    split; [done|].
    split; [intros p f Hf; by rewrite init_count_app, Hoth1, Hoth2|].
    split; [done|]. split; [done|].
    split; [by rewrite existsb_failed_init_app, Hfail1, Hfail2|].
    intros p. by rewrite init_count_app, Hexact1, Hexact2, Hsum.
  - split; [by rewrite Htr2, Htr1, app_assoc|].
    split; [by apply Forall_app|].
    split; [by rewrite Hcf2|]. split; [by rewrite Hpc2|].
    split; [eauto using same_functions_trans|].
    split; [done|].
    split; [intros p f Hf; by rewrite init_count_app, Hoth1, Hoth2|].
    by rewrite existsb_failed_init_app, Hres2, orb_true_r.
Qed.
End SetupProofs.

(** ** The stream of one file *)

Section StreamProofs.
Context {W : Type} (ext : externals W).
Implicit Types (st : state W) (capture record : pyval) (s : stream).
Implicit Types (filters processors : list (string * pyfunc W)).

Lemma process_record_events filters processors record P :
  (forall ev, is_record_event ev = true -> P ev) ->
  hoare (fun _ => True) (process_record ext filters processors record) P
        (fun _ _ => True).
Proof.
  intros HP st _.
  destruct (process_record_run ext filters processors record st)
    as (res & fs & ps & Htr & _ & Hfs & Hps & _).
  exists (EvAdapt record res :: fs ++ ps). split; [done|]. split; [|done].
  constructor; [by apply HP|]. apply Forall_app. split.
  - eapply Forall_impl; [exact Hfs|]. intros []; try done. intros _. by apply HP.
  - eapply Forall_impl; [exact Hps|]. intros []; try done. intros _. by apply HP.
Qed.

Lemma stream_loop_events filters processors s P :
  (forall ev, is_record_event ev = true -> P ev) ->
  hoare (fun _ => True) (stream_loop ext filters processors s) P
        (fun _ _ => True).
Proof.
  intros HP. induction s as [|record rest IH|e]; simpl.
  - by apply hoare_ret.
  - eapply hoare_bind; [by apply process_record_events|]. done.
  - apply hoare_raise.
Qed.

Lemma run_stream_eq filters processors file func st :
  run_stream ext filters processors file func st =
  match stream_loop ext filters processors
          (file_processor ext func file (world st))
          (log (EvParse func file) st) with
  | (Ok x, st2) => (Ok x, st2)
  | (Raise e, st2) =>
      if exc_is_Exception e then (Raise e, log (EvPrint e) st2)
      else (Raise e, st2)
  end.
Proof.
  unfold run_stream, try_except, bind, get, emit, modify, raise. simpl.
  destruct (stream_loop ext filters processors _ _) as [[x|e] st2]; [done|].
  by destruct (exc_is_Exception e).
Qed.


Lemma parse_one_file_eq file func st :
  parse_one_file ext file func st =
  match setup_plugins file
          (log (EvStderr ("processing [" +:+ file +:+ "]" +:+ nl)) st) with
  | (Ok plugins, st1) =>
      run_stream ext (fst plugins) (snd plugins) file func st1
  | (Raise e, st1) => (Raise e, st1)
  end.
Proof.
  unfold parse_one_file, bind, emit, modify. simpl.
  by destruct (setup_plugins file _) as [[plugins|e] st1].
Qed.


End StreamProofs.


(** ** Filters and processors of one record *)

Section PipelineProofs.
Context {W : Type} (ext : externals W).
Implicit Types (st : state W) (capture record : pyval).
Implicit Types (filters processors : list (string * pyfunc W)).

Lemma adapted_record_events tr :
  Forall (fun ev => is_filter_event ev = true \/ is_process_event ev = true) tr ->
  adapted tr = [].
Proof.
  induction 1 as [|ev tr [Hev|Hev] _ IH]; [done|..]; by destruct ev.
Qed.

(** The calls of one record, read off its trace. *)
Lemma process_record_summary filters processors record st capture :
  adapter_adapt ext record = Ok capture ->
  let run := process_record ext filters processors record st in
  let new := emitted (process_record ext filters processors record) st in
  filter_calls new `prefix_of` calls_with capture filters
  /\ process_calls new `prefix_of` calls_with capture processors
  /\ (existsb falsy_filter new = true ->
      fst run = Ok tt /\ process_calls new = [])
  /\ (existsb falsy_filter new = false -> fst run = Ok tt ->
      filter_calls new = calls_with capture filters
      /\ process_calls new = calls_with capture processors)
  /\ adapted new = [record].
Proof.
  intros Hadapt run new.
  destruct (process_record_run ext filters processors record st)
    as (res & fs & ps & Htr & -> & Hfs & Hps & Hres).
  apply emitted_eq in Htr. fold new in Htr.
  destruct (Hres capture Hadapt) as (Hpre1 & Hpre2 & Hskip & Hfull).
  destruct (process_events_no_filter ps Hps) as [Hps1 Hps2].
  pose proof (filter_events_no_process fs Hfs) as Hfs1.
  assert (Hf : filter_calls new = filter_calls fs).
  { rewrite Htr. change (EvAdapt ?r ?x :: fs ++ ps)
      with ([EvAdapt r x] ++ fs ++ ps).
    rewrite !filter_calls_app, Hps1, app_nil_r. done. }
  assert (Hp : process_calls new = process_calls ps).
  { rewrite Htr. change (EvAdapt ?r ?x :: fs ++ ps)
      with ([EvAdapt r x] ++ fs ++ ps).
    rewrite !process_calls_app, Hfs1. done. }
  assert (Hx : existsb falsy_filter new = existsb falsy_filter fs).
  { rewrite Htr. simpl. by rewrite existsb_app, Hps2, orb_false_r. }
  rewrite Hf, Hp, Hx. do 2 (split; [done|]).
  split.
  { intros H. destruct (Hskip H) as [? ->]. done. }
  split; [done|].
  rewrite Htr. unfold adapted. simpl. f_equal.
  apply adapted_record_events, Forall_app. split.
  - eapply Forall_impl; [exact Hfs|]. auto.
  - eapply Forall_impl; [exact Hps|]. auto.
Qed.

End PipelineProofs.

(** C1, as the code has it.  For a record that the adapter turns into
    [capture]: the filters are called in order and each one receives
    [capture] itself, whatever the filters before it returned; the value a
    filter returns is only tested for truth, and the processors receive
    [capture] too.  All filters are called unless one returns a falsy value
    or something raises. *)
Theorem filters_receive_adapted_capture {W} (ext : externals W)
    (filters processors : list (string * pyfunc W)) (record capture : pyval)
    (st : state W) :
  adapter_adapt ext record = Ok capture ->
  let run := process_record ext filters processors record st in
  let new := emitted (process_record ext filters processors record) st in
  filter_calls new `prefix_of` calls_with capture filters
  /\ Forall (fun io => fst io = capture) (filter_io new)
  /\ process_calls new `prefix_of` calls_with capture processors
  /\ (existsb falsy_filter new = false -> fst run = Ok tt ->
      filter_calls new = calls_with capture filters).
Proof.
  intros Hadapt run new.
  destruct (process_record_summary ext filters processors record st capture
              Hadapt) as (Hpre & Hpre2 & _ & Hfull & _).
  fold new in Hpre, Hpre2, Hfull. fold run in Hfull.
  split; [done|]. split; [|split; [done|]].
  - destruct Hpre as [k Hk].
    assert (Hall : Forall (fun c => snd c = capture) (filter_calls new)).
    { assert (Forall (fun c : string * pyval => snd c = capture)
                     (calls_with capture filters)) as Hc.
      { unfold calls_with. apply Forall_forall. intros c Hc.
        apply list_elem_of_fmap in Hc as (f & -> & _). done. }
      rewrite Hk in Hc. by apply Forall_app in Hc as [? _]. }
    clear -Hall. induction new as [|ev tr IH]; [constructor|].
    destruct ev; simpl in *; try (by apply IH).
    inversion Hall; subst. constructor; [done|]. by apply IH.
  - intros H1 H2. by destruct (Hfull H1 H2).
Qed.

Lemma filters_receive_adapted_capture_witness :
  filter_calls
    (emitted (process_record Demo.ext demo_rewrite_filters [] (PyInt 1))
             (init Demo.w0))
  = calls_with (PyObj 1) demo_rewrite_filters.
Proof.
  apply (filters_receive_adapted_capture Demo.ext demo_rewrite_filters []
           (PyInt 1) (PyObj 1) (init Demo.w0)).
  - reflexivity.
  - vm_compute. reflexivity.
  - vm_compute. reflexivity.
Defined.

(** C1, as the specification words it, fails: [rewrite.py] returns the
    truthy capture 101 for capture 1, and [keep_odd.py], the next filter,
    is still called on capture 1. *)
Lemma filter_outputs_not_chained :
  let new := emitted (process_record Demo.ext demo_rewrite_filters []
                                     (PyInt 1)) (init Demo.w0) in
  filter_io new
  = [(PyObj 1, Ok (PyObj 101)); (PyObj 1, Ok (PyObj 1))]
  /\ outputs_chained (PyObj 1) (filter_io new) = false.
Proof. vm_compute. split; reflexivity. Qed.








(** ** Errors: printed once, then the run is over *)

Section ErrorProofs.
Context {W : Type} (ext : externals W).
Implicit Types (st : state W) (s tail : stream).
Implicit Types (filters processors : list (string * pyfunc W)).

Lemma printed_app tr1 tr2 : printed (tr1 ++ tr2) = printed tr1 ++ printed tr2.
Proof. apply omap_app. Qed.

Lemma printed_silent tr :
  Forall (fun ev => is_print ev = false) tr -> printed tr = [].
Proof. induction 1 as [|ev tr Hev _ IH]; [done|]. by destruct ev. Qed.

Lemma print_is_final_silent {A} (m : M W A) :
  silent m -> print_is_final m.
Proof.
  intros H st. destruct (H st I) as (new & Htr & Hall & _).
  exists new. split; [done|]. left. by apply printed_silent.
Qed.

Lemma print_is_final_bind {A B} (m : M W A) (k : A -> M W B) :
  print_is_final m -> (forall a, print_is_final (k a)) ->
  print_is_final (bind m k).
Proof.
  intros Hm Hk st. destruct (Hm st) as (new1 & Htr1 & H1). unfold bind.
  destruct (m st) as [[a|e] st1]; simpl in *.
  - destruct H1 as [H1|(e & pre & _ & _ & [=] & _)].
    destruct (Hk a st1) as (new2 & Htr2 & H2).
    exists (new1 ++ new2). rewrite Htr2, Htr1, app_assoc. split; [done|].
    destruct H2 as [H2|(e & pre & -> & Hpre & Hres)].
    + left. by rewrite printed_app, H1, H2.
    + right. exists e, (new1 ++ pre). rewrite app_assoc.
      split; [done|]. split; [|done]. by rewrite printed_app, H1, Hpre.
  - exists new1. split; [done|].
    destruct H1 as [H1|(e0 & pre & -> & Hpre & [= ->] & He)]; [by left|].
    right. by exists e0, pre.
Qed.

(** Both [try] statements: a body that prints nothing, a handler that
    prints the error and raises it again. *)
Lemma print_is_final_try {A} (body : M W A) :
  silent body ->
  print_is_final
    (try_except body (fun error => emit (EvPrint error) ;; raise error)).
Proof.
  intros Hb st. destruct (Hb st I) as (new & Htr & Hall & _).
  apply printed_silent in Hall. unfold try_except.
  destruct (body st) as [[a|e] st1]; simpl in *.
  - exists new. auto.
  - destruct (exc_is_Exception e) eqn:He.
    + exists (new ++ [EvPrint e]). simpl. rewrite Htr, app_assoc.
      split; [done|]. right. by exists e, new.
    + exists new. auto.
Qed.

Lemma silent_ret {A} (a : A) : silent (ret a : M W A).
Proof. by apply hoare_ret. Qed.

Lemma silent_get : silent (get : M W (state W)).
Proof. by apply hoare_get. Qed.

Lemma silent_modify (f : state W -> state W) :
  (forall st, trace (f st) = trace st) -> silent (modify f).
Proof. intros H. by apply hoare_modify. Qed.

Lemma silent_raise {A} e : silent (raise e : M W A).
Proof. apply hoare_raise. Qed.

Lemma silent_bind {A B} (m : M W A) (k : A -> M W B) :
  silent m -> (forall a, silent (k a)) -> silent (bind m k).
Proof. intros Hm Hk. eapply hoare_bind; [exact Hm|]. intros a. apply Hk. Qed.

Lemma silent_setup_plugins file : silent (@setup_plugins W file).
Proof.
  intros st _. destruct (setup_plugins_run file st) as (new & Htr & Hall & _).
  exists new. split; [done|]. split; [|done].
  eapply Forall_impl; [exact Hall|]. by intros [].
Qed.

Lemma silent_stream_loop filters processors s :
  silent (stream_loop ext filters processors s).
Proof. apply stream_loop_events. by intros []. Qed.

Lemma silent_compile_and_collect path python_code :
  silent (compile_and_collect ext path python_code).
Proof.
  unfold compile_and_collect. apply silent_bind.
  { by apply hoare_extern. }
  intros ?. apply silent_bind.
  { by apply hoare_extern. }
  intros ns st _.
  destruct (collect_bindings_lists (capture_filter_scripts st)
              (process_capture_scripts st) path ns
              (set_local_ns ns (new_script_env path))
              (fun ev => is_print ev = false) ltac:(by intros []) st)
    as (new & ? & ? & _); [done|].
  exists new. auto.
Qed.

Lemma print_is_final_load_script_file path :
  print_is_final (load_script_file ext path).
Proof.
  unfold load_script_file. apply print_is_final_bind.
  { apply print_is_final_silent, silent_get. }
  intros st. destruct (scripts st !! path).
  { apply print_is_final_silent, silent_ret. }
  apply print_is_final_bind.
  { apply print_is_final_silent. by apply hoare_extern. }
  intros python_code. apply print_is_final_bind.
  { apply print_is_final_try, silent_compile_and_collect. }
  intros env. apply print_is_final_silent, silent_bind.
  - by apply silent_modify.
  - intros ?. apply silent_ret.
Qed.

Lemma print_is_final_run_stream filters processors file func :
  print_is_final (run_stream ext filters processors file func).
Proof.
  unfold run_stream. apply print_is_final_try, silent_bind.
  { apply silent_get. }
  intros st. apply silent_bind.
  { by apply hoare_emit. }
  intros ?. apply silent_stream_loop.
Qed.

Lemma print_is_final_parse_one_file file func :
  print_is_final (parse_one_file ext file func).
Proof.
  unfold parse_one_file. apply print_is_final_bind.
  { apply print_is_final_silent. by apply hoare_emit. }
  intros ?. apply print_is_final_bind.
  { apply print_is_final_silent, silent_setup_plugins. }
  intros plugins. apply print_is_final_run_stream.
Qed.

Lemma print_is_final_parse_files func file_list :
  print_is_final (parse_files ext func file_list).
Proof.
  induction file_list as [|file rest IH]; simpl.
  - apply print_is_final_silent, silent_ret.
  - apply print_is_final_bind; [apply print_is_final_parse_one_file|done].
Qed.

Lemma print_is_final_fileargs_loop func arg file_list :
  print_is_final (fileargs_loop ext func arg file_list).
Proof.
  revert file_list. induction arg as [|filearg rest IH]; intros file_list; simpl.
  - apply print_is_final_silent, silent_ret.
  - apply print_is_final_bind; [apply print_is_final_silent, silent_get|].
    intros st. apply print_is_final_bind.
    { apply print_is_final_silent.
      destruct (contains_char _ filearg); [apply silent_raise|].
      destruct (os_path_exists _ _ _); apply silent_ret. }
    intros [l|]; [|apply print_is_final_silent, silent_raise].
    apply print_is_final_bind; [apply print_is_final_parse_files|done].
Qed.

Lemma print_is_final_formats_loop a defs file_list :
  print_is_final (formats_loop ext a defs file_list).
Proof.
  revert file_list. induction defs as [|name rest IH]; intros file_list; simpl.
  - apply print_is_final_silent, silent_ret.
  - destruct (arg_files a name) as [arg|]; [|done].
    apply print_is_final_bind; [apply print_is_final_fileargs_loop|done].
Qed.

Lemma print_is_final_load_scripts (append : string -> M W unit) arg :
  (forall ref, silent (append ref)) ->
  print_is_final (load_scripts ext append arg).
Proof.
  intros Happend. induction arg as [|filearg rest IH]; simpl.
  - apply print_is_final_silent, silent_ret.
  - apply print_is_final_bind; [apply print_is_final_load_script_file|].
    intros ref. apply print_is_final_bind; [|done].
    apply print_is_final_silent, Happend.
Qed.

Lemma print_is_final_process_args a :
  print_is_final (process_args ext a).
Proof.
  unfold process_args. apply print_is_final_bind.
  { apply print_is_final_silent, silent_get. }
  intros st. destruct (db_missing ext a (world st)) as [message|].
  { apply print_is_final_silent, silent_bind; [by apply hoare_emit|].
    intros ?. apply silent_ret. }
  apply print_is_final_bind.
  { unfold load_plugins. apply print_is_final_bind.
    { apply print_is_final_silent. by apply silent_modify. }
    intros ?. apply print_is_final_bind.
    { destruct (arg_capture_filter a) as [arg|].
      - apply print_is_final_load_scripts. intros ref. by apply silent_modify.
      - apply print_is_final_silent, silent_ret. }
    intros ?. apply print_is_final_bind.
    { apply print_is_final_silent. by apply silent_modify. }
    intros ?. destruct (arg_process_capture a) as [arg|].
    - apply print_is_final_load_scripts. intros ref. by apply silent_modify.
    - apply print_is_final_silent, silent_ret. }
  intros ?. apply print_is_final_bind;
    [|intros ?; apply print_is_final_silent, silent_ret].
  destruct (arg_import a); [apply print_is_final_silent, silent_ret|].
  destruct (arg_parse a).
  - unfold run_parse_process_loop. apply print_is_final_bind.
    + apply print_is_final_formats_loop.
    + intros ?. apply print_is_final_silent, silent_ret.
  - apply print_is_final_silent. by apply hoare_emit.
Qed.

Lemma print_is_final_main a : print_is_final (main ext a).
Proof.
  unfold main. apply print_is_final_bind.
  { apply print_is_final_silent. by apply hoare_emit. }
  intros ?. apply print_is_final_bind; [apply print_is_final_process_args|].
  intros ?. apply print_is_final_silent, silent_ret.
Qed.
End ErrorProofs.

Section AbortProofs.
Context {W : Type} (ext : externals W).
Implicit Types (st : state W) (s tail : stream).
Implicit Types (filters processors : list (string * pyfunc W)).


Lemma elem_of_printed e tr : EvPrint e ∈ tr -> e ∈ printed tr.
Proof.
  induction tr as [|ev tr IH]; [by intros ?%not_elem_of_nil|].
  intros [<-|Hin]%elem_of_cons.
  - simpl. left.
  - destruct ev; simpl; try (by apply IH). right. by apply IH.
Qed.

Lemma print_is_final_use {A} (m : M W A) st e :
  print_is_final m ->
  EvPrint e ∈ emitted m st ->
  fst (m st) = Raise e
  /\ printed (emitted m st) = [e]
  /\ last (emitted m st) = Some (EvPrint e).
Proof.
  intros Hm Hin. destruct (Hm st) as (new & Htr & Hnew).
  rewrite (emitted_eq _ _ _ Htr) in *.
  apply elem_of_printed in Hin.
  destruct Hnew as [Hnew|(e0 & pre & -> & Hpre & Hres & _)].
  { rewrite Hnew in Hin. by apply not_elem_of_nil in Hin. }
  rewrite printed_app, Hpre in *. simpl in *.
  apply list_elem_of_singleton in Hin as ->.
  split; [done|]. split; [done|]. apply last_snoc.
Qed.

Lemma print_is_final_Exception {A} (m : M W A) st e :
  print_is_final m ->
  EvPrint e ∈ emitted m st ->
  exc_is_Exception e = true.
Proof.
  intros Hm Hin. destruct (Hm st) as (new & Htr & Hnew).
  rewrite (emitted_eq _ _ _ Htr) in *.
  apply elem_of_printed in Hin.
  destruct Hnew as [Hnew|(e0 & pre & -> & Hpre & _ & He)].
  { rewrite Hnew in Hin. by apply not_elem_of_nil in Hin. }
  rewrite printed_app, Hpre in *. simpl in *.
  by apply list_elem_of_singleton in Hin as ->.
Qed.

(** A printed error ends the process with status 1. *)
Lemma exit_status_printed a w e :
  EvPrint e ∈ trace (snd (main ext a (init w))) ->
  print_is_final (main ext a) ->
  exit_status ext a w = 1%Z.
Proof.
  intros Hin Hfinal. unfold exit_status.
  assert (Hin' : EvPrint e ∈ emitted (main ext a) (init w)).
  { unfold emitted. simpl. by rewrite drop_0. }
  destruct (print_is_final_use (main ext a) (init w) e Hfinal Hin')
    as (-> & _).
  by rewrite (print_is_final_Exception (main ext a) (init w) e Hfinal Hin').
Qed.

End AbortProofs.



(** The scenario of the specification: the filter raises on record 2 of 5;
    records 3 to 5 are never adapted, the next file is never parsed. *)
Example boom_on_record_2_of_5 :
  let run := process_args Demo.ext demo_args_boom (init Demo.w0) in
  fst run = Raise Demo.ValueError
  /\ adapted (trace (snd run)) = [PyInt 1; PyInt 2]
  /\ parsed (trace (snd run)) = [(burp_xml, "five.xml")]
  /\ printed (trace (snd run)) = [Demo.ValueError]
  /\ exit_status Demo.ext demo_args_boom Demo.w0 = 1%Z.
Proof. vm_compute. repeat split; reflexivity. Qed.

(** ** The script cache *)

Section CacheProofs.
Context {W : Type} (ext : externals W).
Implicit Types (st : state W) (path : string).

Lemma load_script_file_cached path st env :
  scripts st !! path = Some env ->
  load_script_file ext path st = (Ok path, st).
Proof.
  intros H. unfold load_script_file, bind, get. simpl. by rewrite H.
Qed.

Lemma load_script_file_eq path st :
  scripts st !! path = None ->
  load_script_file ext path st =
  match open_read ext path (world st) with
  | (Ok python_code, w) =>
      match compile_and_collect ext path python_code
              (log (EvOpen path true) (set_world w st)) with
      | (Ok env, st2) =>
          (Ok path, set_scripts (<[path := env]> (scripts st2)) st2)
      | (Raise e, st2) =>
          (Raise e, if exc_is_Exception e then log (EvPrint e) st2 else st2)
      end
  | (Raise e, w) => (Raise e, log (EvOpen path false) (set_world w st))
  end.
Proof.
  intros H. unfold load_script_file, bind at 1, get. simpl. rewrite H.
  unfold bind at 1, extern.
  destruct (open_read ext path (world st)) as [[code|e] w]; [|done].
  simpl. unfold bind at 1, try_except.
  destruct (compile_and_collect ext path code _) as [[env|e] st2]; [done|].
  unfold bind, emit, modify, raise. simpl.
  by destruct (exc_is_Exception e).
Qed.

(** A successful load leaves the dictionary of [path] in the cache. *)
Lemma load_script_file_stores path st ref st1 :
  load_script_file ext path st = (Ok ref, st1) ->
  ref = path /\ is_Some (scripts st1 !! path).
Proof.
  destruct (scripts st !! path) as [env|] eqn:Hpath.
  - rewrite (load_script_file_cached _ _ _ Hpath). intros [= <- <-]. eauto.
  - rewrite (load_script_file_eq _ _ Hpath).
    destruct (open_read ext path (world st)) as [[code|e] w]; [|done].
    destruct (compile_and_collect ext path code _) as [[env|e] st2]; [|done].
    intros [= <- <-]. split; [done|]. simpl. rewrite lookup_insert_eq. eauto.
Qed.

Lemma collect_methods_scripts path (inst : instance W) items :
  forall st (env : script_env W),
    scripts (snd (collect_methods path inst items env st)) = scripts st.
Proof.
  induction items as [|item rest IH]; intros st env; simpl; [done|].
  destruct (negb (startswith_char "_" item)); [|apply IH].
  unfold bind, extern.
  destruct (inst_getattr inst item (world st)) as [[[m|ty c]|e] w]; [..|done];
    by rewrite IH.
Qed.

Lemma collect_bindings_scripts path ns :
  forall st (env : script_env W),
    scripts (snd (collect_bindings path ns env st)) = scripts st.
Proof.
  induction ns as [|[key value] rest IH]; intros st env; simpl; [done|].
  destruct value as [construct|f|ty c]; [|apply IH..].
  unfold bind at 1, extern.
  destruct (construct (world st)) as [[inst|e] w]; [|done].
  unfold bind at 1.
  destruct (inst_dir inst _) as [[items|e] w']; [|done].
  unfold bind.
  match goal with |- context [collect_methods path inst items ?env' ?st'] =>
    pose proof (collect_methods_scripts path inst items st' env') as Hm;
    destruct (collect_methods path inst items env' st') as [[env2|e] st2]
  end; simpl in *; [|done].
  by rewrite IH.
Qed.

Lemma compile_and_collect_scripts path code st :
  scripts (snd (compile_and_collect ext path code st)) = scripts st.
Proof.
  unfold compile_and_collect, bind, extern.
  destruct (py_compile ext code) as [[]|e]; [|done].
  simpl. destruct (py_exec ext code (world st)) as [[ns|e] w]; [|done].
  by rewrite collect_bindings_scripts.
Qed.

(** Loading never replaces or removes a cached dictionary. *)
Lemma load_script_file_keeps path other st env :
  scripts st !! path = Some env ->
  scripts (snd (load_script_file ext other st)) !! path = Some env.
Proof.
  intros Hpath. destruct (scripts st !! other) as [env'|] eqn:Hother.
  - by rewrite (load_script_file_cached _ _ _ Hother).
  - assert (other <> path) as Hne by congruence.
    rewrite (load_script_file_eq _ _ Hother).
    destruct (open_read ext other (world st)) as [[code|e] w]; [|done].
    pose proof (compile_and_collect_scripts other code
                  (log (EvOpen other true) (set_world w st))) as Hkeep.
    destruct (compile_and_collect ext other code _) as [[env2|e] st2];
      simpl in *.
    + rewrite lookup_insert_ne by done. by rewrite Hkeep.
    + destruct (exc_is_Exception e); simpl; by rewrite Hkeep.
Qed.
End CacheProofs.

(** C4.  When a load of [path] has succeeded, the dictionary of [path] is
    in the cache; a second load of [path] returns the same reference and
    leaves the whole state as it is, so that nothing is read, compiled,
    executed or instantiated again; the same holds after a load of any
    other path in between. *)
Theorem load_is_idempotent {W} (ext : externals W) (path : string)
    (st st1 : state W) (ref : string) :
  load_script_file ext path st = (Ok ref, st1) ->
  exists env,
    scripts st1 !! ref = Some env
    /\ load_script_file ext path st1 = (Ok ref, st1)
    /\ emitted (load_script_file ext path) st1 = []
    /\ forall other,
         let st2 := snd (load_script_file ext other st1) in
         scripts st2 !! ref = Some env
         /\ load_script_file ext path st2 = (Ok ref, st2).
Proof.
  intros Hload.
  destruct (load_script_file_stores ext path st ref st1 Hload) as [-> [env Henv]].
  exists env. split; [done|].
  pose proof (load_script_file_cached ext path st1 env Henv) as Hagain.
  split; [done|]. split.
  { unfold emitted. rewrite Hagain. simpl. by rewrite drop_all. }
  intros other st2.
  pose proof (load_script_file_keeps ext path other st1 env Henv) as Hkeep.
  split; [done|]. by apply (load_script_file_cached ext path st2 env).
Qed.

Lemma load_is_idempotent_witness :
  load_script_file Demo.ext "keep_odd.py"
    (snd (load_script_file Demo.ext "keep_odd.py" (init Demo.w0)))
  = (Ok "keep_odd.py",
     snd (load_script_file Demo.ext "keep_odd.py" (init Demo.w0))).
Proof.
  destruct (load_is_idempotent Demo.ext "keep_odd.py" (init Demo.w0)
              (snd (load_script_file Demo.ext "keep_odd.py" (init Demo.w0)))
              "keep_odd.py") as (env & _ & Hagain & _).
  - vm_compute. reflexivity.
  - exact Hagain.
Defined.

(** ** What the loader collects *)

Section CollectProofs.
Context {W : Type} (ext : externals W).
Implicit Types (st : state W) (env : script_env W).
Implicit Types (ns : list (string * ns_value W)).

Lemma functions_add_functions (l : list (string * pyfunc W)) env :
  functions (add_functions l env)
  = list_to_map (reverse l) ∪ functions env.
Proof.
  revert env. induction l as [|[k f] l IH]; intros env; simpl.
  - by rewrite (left_id_L ∅ (∪)).
  - unfold add_functions in *. simpl. rewrite IH. simpl.
    rewrite reverse_cons, list_to_map_app. simpl.
    rewrite insert_empty, <- (assoc_L (∪)).
    by rewrite <- insert_union_singleton_l.
Qed.

Lemma instance_add_functions (l : list (string * pyfunc W)) env :
  instance_ (add_functions l env) = instance_ env.
Proof.
  unfold add_functions. revert env.
  induction l as [|kv l IH]; intros env; simpl; [done|]. by rewrite IH.
Qed.

Lemma compile_and_collect_eq path python_code st :
  compile_and_collect ext path python_code st =
  match py_compile ext python_code with
  | Ok _ =>
      let st1 := log (EvCompile path true) (set_world (world st) st) in
      match py_exec ext python_code (world st) with
      | (Ok ns, w) =>
          collect_bindings path ns (set_local_ns ns (new_script_env path))
            (log (EvExec path true) (set_world w st1))
      | (Raise e, w) => (Raise e, log (EvExec path false) (set_world w st1))
      end
  | Raise e =>
      (Raise e, log (EvCompile path false) (set_world (world st) st))
  end.
Proof.
  unfold compile_and_collect, bind, extern.
  destruct (py_compile ext python_code) as [[]|e]; simpl; [|done].
  by destruct (py_exec ext python_code (world st)) as [[ns|e] w].
Qed.

Lemma collect_bindings_class path key construct ns env st :
  collect_bindings path ((key, NsClass construct) :: ns) env st =
  match construct (world st) with
  | (Ok inst, w) =>
      let st1 := log (EvNew path key true) (set_world w st) in
      match inst_dir inst w with
      | (Ok items, w') =>
          match collect_methods path inst items (set_instance inst env)
                  (log (EvDir path key true) (set_world w' st1)) with
          | (Ok env', st3) => collect_bindings path ns env' st3
          | (Raise e, st3) => (Raise e, st3)
          end
      | (Raise e, w') =>
          (Raise e, log (EvDir path key false) (set_world w' st1))
      end
  | (Raise e, w) => (Raise e, log (EvNew path key false) (set_world w st))
  end.
Proof.
  simpl. unfold bind at 1, extern.
  destruct (construct (world st)) as [[inst|e] w]; [|done]. simpl.
  unfold bind at 1. simpl.
  destruct (inst_dir inst w) as [[items|e] w']; [|done]. simpl.
  unfold bind at 1.
  by destruct (collect_methods path inst items _ _) as [[env'|e] st3].
Qed.


(** What [collect_methods] does, in terms of [read_attrs]: it reads the
    same attributes in the same worlds, writes one [EvGetattr] for each
    and stores the bound methods among the values read; it raises when a
    read raises. *)
Lemma collect_methods_run path (inst : instance W) items :
  forall env st,
    exists new,
      trace (snd (collect_methods path inst items env st)) = trace st ++ new
      /\ Forall (fun ev => exists item ok, ev = EvGetattr path item ok) new
      /\ world (snd (collect_methods path inst items env st))
         = snd (read_attrs inst items (world st))
      /\ fst (collect_methods path inst items env st)
         = match fst (read_attrs inst items (world st)) with
           | Ok attrs => Ok (add_functions (public_methods attrs) env)
           | Raise e => Raise e
           end.
Proof.
  induction items as [|item rest IH]; intros env st; simpl.
  - exists []. by rewrite app_nil_r.
  - destruct (startswith_char "_" item) eqn:Hitem; simpl; [apply IH|].
    unfold bind, extern.
    destruct (inst_getattr inst item (world st)) as [[itemvalue|e] w1].
    2:{ exists [EvGetattr path item false]. simpl.
        split; [done|]. split; [|done]. repeat constructor. eauto. }
    set (st1 := log (EvGetattr path item true) (set_world w1 st)).
    assert (Hstep : forall env',
              exists new,
                trace (snd (collect_methods path inst rest env' st1))
                = trace st ++ new
                /\ Forall (fun ev => exists item ok,
                             ev = EvGetattr path item ok) new
                /\ world (snd (collect_methods path inst rest env' st1))
                   = snd (read_attrs inst rest w1)
                /\ fst (collect_methods path inst rest env' st1)
                   = match fst (read_attrs inst rest w1) with
                     | Ok attrs => Ok (add_functions (public_methods attrs) env')
                     | Raise e => Raise e
                     end).
    { intros env'. destruct (IH env' st1) as (new & Htr & Hall & Hw & Hres).
      exists (EvGetattr path item true :: new). split.
      { rewrite Htr. subst st1. simpl. by rewrite <- app_assoc. }
      split; [constructor; eauto|]. done. }
    destruct itemvalue as [m|ty c].
    + destruct (Hstep (set_function item m env)) as (new & Htr & Hall & Hw & Hres).
      exists new. split; [done|]. split; [done|].
      destruct (read_attrs inst rest w1) as [[attrs|e] w2]; simpl in *;
        [|done].
      split; [done|]. etrans; [exact Hres|].
      by rewrite Hitem.
    + destruct (Hstep env) as (new & Htr & Hall & Hw & Hres).
      exists new. split; [done|]. split; [done|].
      destruct (read_attrs inst rest w1) as [[attrs|e] w2]; simpl in *;
        [|done].
      split; [done|]. etrans; [exact Hres|].
      by rewrite Hitem.
Qed.

(** A namespace without a class: the plain functions are stored, nothing
    is called. *)
Lemma collect_bindings_no_class path ns :
  class_bindings ns = [] ->
  forall env st,
    collect_bindings path ns env st
    = (Ok (add_functions (plain_functions ns) env), st).
Proof.
  induction ns as [|[key value] rest IH]; intros Hno env st; [done|].
  destruct value as [construct|f|ty c]; simpl in *.
  - discriminate Hno.
  - by rewrite (IH Hno).
  - by rewrite (IH Hno).
Qed.

(** Bindings [pre] that hold no class, before the rest of a namespace. *)
Lemma collect_bindings_prefix path pre ns :
  class_bindings pre = [] ->
  forall env st,
    collect_bindings path (pre ++ ns) env st
    = collect_bindings path ns (add_functions (plain_functions pre) env) st.
Proof.
  induction pre as [|[k value] pre IH]; intros Hpre env st; [done|].
  destruct value as [c|f|ty c]; simpl in *.
  - discriminate Hpre.
  - by rewrite (IH Hpre).
  - by rewrite (IH Hpre).
Qed.

(** A namespace with one class, between bindings [pre] and [post] that
    hold no class, when the class can be instantiated and [dir] returns. *)
Lemma collect_bindings_one_class path pre key construct post env st inst w
    items w' :
  class_bindings pre = [] -> class_bindings post = [] ->
  construct (world st) = (Ok inst, w) ->
  inst_dir inst w = (Ok items, w') ->
  let run :=
    collect_bindings path (pre ++ (key, NsClass construct) :: post) env st in
  exists new,
    trace (snd run)
    = trace st ++ EvNew path key true :: EvDir path key true :: new
    /\ Forall (fun ev => exists item ok, ev = EvGetattr path item ok) new
    /\ world (snd run) = snd (read_attrs inst items w')
    /\ fst run
       = match fst (read_attrs inst items w') with
         | Ok attrs =>
             Ok (add_functions (plain_functions post)
                   (add_functions (public_methods attrs)
                      (set_instance inst
                         (add_functions (plain_functions pre) env))))
         | Raise e => Raise e
         end.
Proof.
  intros Hpre Hpost Hnew Hdir. cbv zeta.
  rewrite (collect_bindings_prefix path pre _ Hpre), collect_bindings_class.
  rewrite Hnew, Hdir. cbv zeta.
  set (env1 := set_instance inst (add_functions (plain_functions pre) env)).
  set (st2 := log (EvDir path key true)
                (set_world w' (log (EvNew path key true) (set_world w st)))).
  destruct (collect_methods_run path inst items env1 st2)
    as (new & Htr & Hall & Hw & Hres).
  exists new. subst st2. simpl in Htr, Hw, Hres.
  rewrite <- !app_assoc in Htr. simpl in Htr.
  destruct (collect_methods path inst items env1 _) as [[env'|e] st3];
    simpl in *.
  - rewrite (collect_bindings_no_class path post Hpost). simpl.
    split; [done|]. split; [done|]. split; [done|].
    destruct (fst (read_attrs inst items w')) as [attrs|e]; [|done].
    by injection Hres as ->.
  - split; [done|]. split; [done|]. split; [done|].
    by destruct (fst (read_attrs inst items w')).
Qed.

(** The same namespace when [dir] raises. *)
Lemma collect_bindings_dir_raises path pre key construct post env st inst w
    e w' :
  class_bindings pre = [] ->
  construct (world st) = (Ok inst, w) ->
  inst_dir inst w = (Raise e, w') ->
  fst (collect_bindings path (pre ++ (key, NsClass construct) :: post) env st)
  = Raise e.
Proof.
  intros Hpre Hnew Hdir.
  rewrite (collect_bindings_prefix path pre _ Hpre), collect_bindings_class.
  by rewrite Hnew, Hdir.
Qed.

(** A source that is read, compiles and executes: the load is the loop
    over the namespace, followed by the store into the cache. *)
Lemma load_script_file_collect path code st w1 w2 ns :
  scripts st !! path = None ->
  open_read ext path (world st) = (Ok code, w1) ->
  py_compile ext code = Ok tt ->
  py_exec ext code w1 = (Ok ns, w2) ->
  load_script_file ext path st =
  match collect_bindings path ns (set_local_ns ns (new_script_env path))
          (log (EvExec path true)
             (set_world w2
                (log (EvCompile path true)
                   (set_world w1 (log (EvOpen path true)
                                    (set_world w1 st)))))) with
  | (Ok env, st2) => (Ok path, set_scripts (<[path := env]> (scripts st2)) st2)
  | (Raise e, st2) =>
      (Raise e, if exc_is_Exception e then log (EvPrint e) st2 else st2)
  end.
Proof.
  intros Hpath Hopen Hcompile Hexec.
  rewrite (load_script_file_eq ext path st Hpath), Hopen.
  rewrite compile_and_collect_eq, Hcompile. simpl. by rewrite Hexec.
Qed.
End CollectProofs.

Lemma plain_functions_app {W} (ns1 ns2 : list (string * ns_value W)) :
  plain_functions (ns1 ++ ns2) = plain_functions ns1 ++ plain_functions ns2.
Proof. apply omap_app. Qed.

Lemma new_count_getattr path (tr : list event) :
  Forall (fun ev => exists item ok, ev = EvGetattr path item ok) tr ->
  new_count path tr = 0.
Proof.
  unfold new_count. induction 1 as [|ev tr (item & ok & ->) _ IH]; [done|].
  simpl. exact IH.
Qed.

Lemma printed_getattr path (tr : list event) :
  Forall (fun ev => exists item ok, ev = EvGetattr path item ok) tr ->
  printed tr = [].
Proof.
  induction 1 as [|ev tr (item & ok & ->) _ IH]; [done|]. exact IH.
Qed.

(** C6, as the code has it.  The source of [path] was read, compiled and
    executed, leaving the bindings [ns].  If [ns] holds no class, the
    capability map is exactly the top-level plain functions, keyed by name,
    and nothing is instantiated.  If [ns] holds exactly one class and the
    class can be instantiated, the loader calls [dir] on the instance and
    reads the attribute of every public name with [getattr].  When [dir]
    and every such read return, the class was instantiated once and the
    capability map holds the plain functions bound before the class, then
    the public bound methods among the attributes read, then the plain
    functions bound after it, a later name replacing an earlier one; with
    no plain function it is exactly those public bound methods.  When
    [dir] or one of the reads raises, the load raises that error and
    nothing is cached for [path]. *)
Theorem loader_collects_methods_and_functions {W} (ext : externals W)
    (path code : string) (st : state W) (w1 w2 : W)
    (ns : list (string * ns_value W)) :
  scripts st !! path = None ->
  open_read ext path (world st) = (Ok code, w1) ->
  py_compile ext code = Ok tt ->
  py_exec ext code w1 = (Ok ns, w2) ->
  (class_bindings ns = [] ->
   exists st1 env,
     load_script_file ext path st = (Ok path, st1)
     /\ scripts st1 !! path = Some env
     /\ functions env = list_to_map (reverse (plain_functions ns))
     /\ instance_ env = None
     /\ new_count path (emitted (load_script_file ext path) st) = 0)
  /\ (forall pre key construct post inst w3,
        ns = pre ++ (key, NsClass construct) :: post ->
        class_bindings pre = [] -> class_bindings post = [] ->
        construct w2 = (Ok inst, w3) ->
        (forall items w4 attrs w5,
            inst_dir inst w3 = (Ok items, w4) ->
            read_attrs inst items w4 = (Ok attrs, w5) ->
            exists st1 env,
              load_script_file ext path st = (Ok path, st1)
              /\ scripts st1 !! path = Some env
              /\ functions env
                 = list_to_map (reverse (plain_functions pre
                                         ++ public_methods attrs
                                         ++ plain_functions post))
              /\ (plain_functions ns = [] ->
                  functions env
                  = list_to_map (reverse (public_methods attrs)))
              /\ instance_ env = Some inst
              /\ new_count path (emitted (load_script_file ext path) st) = 1
              /\ world st1 = w5)
        /\ (forall e w4,
              inst_dir inst w3 = (Raise e, w4) ->
              fst (load_script_file ext path st) = Raise e
              /\ scripts (snd (load_script_file ext path st)) !! path = None)
        /\ (forall items w4 e w5,
              inst_dir inst w3 = (Ok items, w4) ->
              read_attrs inst items w4 = (Raise e, w5) ->
              fst (load_script_file ext path st) = Raise e
              /\ scripts (snd (load_script_file ext path st)) !! path
                 = None)).
Proof.
  intros Hpath Hopen Hcompile Hexec.
  pose proof (load_script_file_collect ext path code st w1 w2 ns
                Hpath Hopen Hcompile Hexec) as Hload.
  set (st0 := log (EvExec path true)
                (set_world w2
                   (log (EvCompile path true)
                      (set_world w1 (log (EvOpen path true)
                                       (set_world w1 st)))))) in Hload.
  pose proof (collect_bindings_scripts path ns st0
                (set_local_ns ns (new_script_env path))) as Hscripts.
  assert (Hfail : forall e,
             fst (collect_bindings path ns
                    (set_local_ns ns (new_script_env path)) st0) = Raise e ->
             fst (load_script_file ext path st) = Raise e
             /\ scripts (snd (load_script_file ext path st)) !! path = None).
  { intros e Hraise. rewrite Hload.
    destruct (collect_bindings path ns _ st0) as [[env|e0] st2]; [done|].
    simpl in *. injection Hraise as ->. split; [done|].
    destruct (exc_is_Exception e); simpl; by rewrite Hscripts. }
  split.
  - intros Hno. rewrite Hload, (collect_bindings_no_class path ns Hno).
    eexists _, _. split; [reflexivity|]. simpl.
    split; [apply lookup_insert_eq|].
    split; [|split; [|]].
    + rewrite functions_add_functions. simpl. by rewrite (right_id_L ∅ (∪)).
    + by rewrite instance_add_functions.
    + unfold emitted. rewrite Hload, (collect_bindings_no_class path ns Hno).
      simpl. rewrite <- !app_assoc, drop_app_length. simpl.
      unfold new_count. done.
  - intros pre key construct post inst w3 Hns Hpre Hpost Hnew.
    split; [|split].
    + intros items w4 attrs w5 Hdir Hattrs.
      destruct (collect_bindings_one_class path pre key construct post
                  (set_local_ns ns (new_script_env path)) st0 inst w3 items w4
                  Hpre Hpost Hnew Hdir) as (new & Htr & Hall & Hw & Hres).
      rewrite <- Hns, Hattrs in *. simpl in Hw, Hres.
      destruct (collect_bindings path ns _ st0) as [[env|e0] st2] eqn:Hrun;
        [|done].
      simpl in *. injection Hres as ->.
      eexists _, _. split; [exact Hload|]. simpl.
      split; [apply lookup_insert_eq|].
      assert (Hf : functions
                (add_functions (plain_functions post)
                   (add_functions (public_methods attrs)
                      (set_instance inst
                         (add_functions (plain_functions pre)
                            (set_local_ns ns (new_script_env path))))))
              = list_to_map (reverse (plain_functions pre
                                      ++ public_methods attrs
                                      ++ plain_functions post))).
      { rewrite !functions_add_functions. simpl.
        rewrite !functions_add_functions. simpl.
        rewrite (right_id_L ∅ (∪)), !reverse_app, !list_to_map_app.
        by rewrite (assoc_L (∪)). }
      split; [done|]. split; [|split; [|split]].
      * intros Hplain. rewrite Hf. rewrite Hns in Hplain.
        rewrite plain_functions_app in Hplain. simpl in Hplain.
        apply app_eq_nil in Hplain as [-> ->]. by rewrite app_nil_r.
      * by rewrite !instance_add_functions.
      * unfold emitted. rewrite Hload. simpl. rewrite Htr. subst st0. simpl.
        rewrite <- !app_assoc, drop_app_length. simpl.
        unfold new_count. simpl. rewrite String.eqb_refl. simpl.
        f_equal. by apply (new_count_getattr path).
      * done.
    + intros e w4 Hdir. apply Hfail. rewrite Hns.
      by apply (collect_bindings_dir_raises path pre key construct post _ st0
                  inst w3 e w4).
    + intros items w4 e w5 Hdir Hattrs. apply Hfail.
      destruct (collect_bindings_one_class path pre key construct post
                  (set_local_ns ns (new_script_env path)) st0 inst w3 items w4
                  Hpre Hpost Hnew Hdir) as (new & _ & _ & _ & Hres).
      rewrite <- Hns, Hattrs in Hres. exact Hres.
Qed.

Lemma loader_collects_methods_and_functions_witness :
  (exists st1 env,
     load_script_file Demo.ext "single.py" (init Demo.w0)
     = (Ok "single.py", st1)
     /\ scripts st1 !! "single.py" = Some env
     /\ functions env
        = list_to_map [("capture_filter", Demo.Plugin_capture_filter)]
     /\ new_count "single.py"
          (emitted (load_script_file Demo.ext "single.py") (init Demo.w0)) = 1)
  /\ fst (load_script_file Demo.ext "prop.py" (init Demo.w0))
     = Raise Demo.RuntimeError
  /\ scripts (snd (load_script_file Demo.ext "prop.py" (init Demo.w0)))
       !! "prop.py" = None.
Proof.
  split.
  - destruct (loader_collects_methods_and_functions Demo.ext "single.py"
                "class Plugin: ..." (init Demo.w0) [] ["exec"]
                (demo_namespace "single.py")) as [_ Hone].
    + reflexivity.
    + reflexivity.
    + reflexivity.
    + reflexivity.
    + destruct (Hone [("os", NsOther "module" None)] "Plugin" Demo.Plugin_new
                  [] Demo.Plugin_instance ["exec"; "Plugin.__init__"])
        as [Hok _].
      * reflexivity.
      * reflexivity.
      * reflexivity.
      * reflexivity.
      * destruct (Hok ["_helper"; "capture_filter"; "process_capture";
                       "verbose"]
                      ["exec"; "Plugin.__init__"]
                      [("capture_filter",
                        AttrMethod Demo.Plugin_capture_filter);
                       ("process_capture",
                        AttrOther "function"
                          (Some Demo.Plugin_process_capture));
                       ("verbose", AttrOther "bool" None)]
                      ["exec"; "Plugin.__init__"])
          as (st1 & env & Hload & Henv & _ & Hfun & _ & Hnew & _).
        -- reflexivity.
        -- reflexivity.
        -- exists st1, env. split; [exact Hload|]. split; [exact Henv|].
           split; [|exact Hnew]. apply Hfun. reflexivity.
  - destruct (loader_collects_methods_and_functions Demo.ext "prop.py"
                "class Probe: ... @property def status(self): raise"
                (init Demo.w0) [] ["exec"]
                (demo_namespace "prop.py")) as [_ Hone].
    + reflexivity.
    + reflexivity.
    + reflexivity.
    + reflexivity.
    + destruct (Hone [] "Probe" Demo.Probe_new [] Demo.Probe_instance
                  ["exec"; "Probe.__init__"]) as (_ & _ & Hraise).
      * reflexivity.
      * reflexivity.
      * reflexivity.
      * reflexivity.
      * apply (Hraise ["capture_filter"; "status"] ["exec"; "Probe.__init__"]
                 Demo.RuntimeError
                 ["exec"; "Probe.__init__"; "Probe.status: raise"]).
        -- reflexivity.
        -- reflexivity.
Defined.

(** C6, as the specification words it, fails.  [plugin.py] defines one
    class and, after it, a top-level function [capture_filter]: the map the
    loader builds holds the top-level function under that name, not the
    method of the instance, and it does not hold the static method
    [process_capture], a public callable attribute of the instance.
    [partial.py] defines no class and binds [capture_filter] to a callable
    object that is not a function: the loader does not collect it. *)
Lemma capability_map_differs_from_spec :
  (fn_qualname <$> demo_capabilities "plugin.py" !! "capture_filter"
   = Some "capture_filter"
   /\ fn_qualname <$> demo_capabilities "plugin.py" !! "process_capture" = None
   /\ fn_qualname <$> (demo_spec_capabilities "plugin.py"
                         ≫= (fun m => m !! "capture_filter"))
      = Some "Plugin.capture_filter"
   /\ fn_qualname <$> (demo_spec_capabilities "plugin.py"
                         ≫= (fun m => m !! "process_capture"))
      = Some "Plugin.process_capture")
  /\ (fn_qualname <$> demo_capabilities "partial.py" !! "capture_filter" = None
      /\ fn_qualname <$> (demo_spec_capabilities "partial.py"
                            ≫= (fun m => m !! "capture_filter"))
         = Some "functools.partial")
  /\ demo_spec_capabilities "plugin.py" <> Some (demo_capabilities "plugin.py")
  /\ demo_spec_capabilities "partial.py" <> Some (demo_capabilities "partial.py").
Proof.
  assert (H1 : fn_qualname <$> demo_capabilities "plugin.py" !! "process_capture"
               = None) by (vm_compute; reflexivity).
  assert (H2 : fn_qualname <$> (demo_spec_capabilities "plugin.py"
                                  ≫= (fun m => m !! "process_capture"))
               = Some "Plugin.process_capture") by (vm_compute; reflexivity).
  assert (H3 : fn_qualname <$> demo_capabilities "partial.py" !! "capture_filter"
               = None) by (vm_compute; reflexivity).
  assert (H4 : fn_qualname <$> (demo_spec_capabilities "partial.py"
                                  ≫= (fun m => m !! "capture_filter"))
               = Some "functools.partial") by (vm_compute; reflexivity).
  split; [|split; [done|split]].
  - split; [vm_compute; reflexivity|]. split; [done|].
    split; [vm_compute; reflexivity|done].
  - intros Heq. rewrite Heq in H2. simpl in H2. rewrite H1 in H2. discriminate.
  - intros Heq. rewrite Heq in H4. simpl in H4. rewrite H3 in H4. discriminate.
Qed.

Lemma load_scripts_abort {W} (ext : externals W) (append : string -> M W unit)
    (path : string) (more : list string) (st : state W) (e : exn) :
  fst (load_script_file ext path st) = Raise e ->
  load_scripts ext append (path :: more) st
  = (Raise e, snd (load_script_file ext path st)).
Proof.
  intros H. simpl. unfold bind.
  destruct (load_script_file ext path st) as [[ref|e0] st1]; [done|].
  simpl in H. by injection H as ->.
Qed.

(** C7, as the code has it.  The source of [path] was read and the body of
    the [try] statement (compile, execute, collect) raises [e].  Then
    [load_script_file] raises that same error object [e], unchanged and
    unwrapped, after printing it once when it is an instance of
    [Exception]; nothing is added to the cache; the loop that loads the
    scripts stops there; an error of [compile] or of [exec] is such an
    [e]; in a whole run a printed error is the last event, the run raises
    it and the process ends with status 1. *)
Theorem load_error_is_reraised {W} (ext : externals W) (path code : string)
    (st st2 : state W) (w1 : W) (e : exn) :
  scripts st !! path = None ->
  open_read ext path (world st) = (Ok code, w1) ->
  compile_and_collect ext path code (log (EvOpen path true) (set_world w1 st))
  = (Raise e, st2) ->
  load_script_file ext path st
  = (Raise e, if exc_is_Exception e then log (EvPrint e) st2 else st2)
  /\ scripts (snd (load_script_file ext path st)) = scripts st
  /\ (forall append more,
        load_scripts ext append (path :: more) st
        = (Raise e, snd (load_script_file ext path st)))
  /\ (forall e0, py_compile ext code = Raise e0 -> e = e0)
  /\ (forall e0 w2,
        py_compile ext code = Ok tt ->
        py_exec ext code w1 = (Raise e0, w2) -> e = e0)
  /\ (forall a st0 e',
        EvPrint e' ∈ emitted (process_args ext a) st0 ->
        fst (process_args ext a st0) = Raise e'
        /\ printed (emitted (process_args ext a) st0) = [e'])
  /\ (forall a w e',
        EvPrint e' ∈ trace (snd (main ext a (init w))) ->
        exit_status ext a w = 1%Z).
Proof.
  intros Hpath Hopen Hbody.
  assert (Hload : load_script_file ext path st
                  = (Raise e, if exc_is_Exception e then log (EvPrint e) st2
                              else st2)).
  { by rewrite (load_script_file_eq ext path st Hpath), Hopen, Hbody. }
  split; [done|]. split.
  { rewrite Hload. simpl.
    pose proof (compile_and_collect_scripts ext path code
                  (log (EvOpen path true) (set_world w1 st))) as Hkeep.
    rewrite Hbody in Hkeep. simpl in Hkeep.
    by destruct (exc_is_Exception e). }
  split.
  { intros append more. apply load_scripts_abort. by rewrite Hload. }
  split.
  { intros e0 Hc. unfold compile_and_collect, bind, extern in Hbody.
    rewrite Hc in Hbody. simpl in Hbody. by injection Hbody as ->. }
  split.
  { intros e0 w2 Hc Hx. unfold compile_and_collect, bind, extern in Hbody.
    rewrite Hc in Hbody. simpl in Hbody. rewrite Hx in Hbody.
    by injection Hbody as ->. }
  split.
  { intros a st0 e' Hin.
    by destruct (print_is_final_use (process_args ext a) st0 e'
                   (print_is_final_process_args ext a) Hin) as (? & ? & _). }
  intros a w e' Hin.
  exact (exit_status_printed ext a w e' Hin (print_is_final_main ext a)).
Qed.

Lemma load_error_is_reraised_witness :
  fst (load_script_file Demo.ext "bad.py" (init Demo.w0))
  = Raise Demo.SyntaxError
  /\ scripts (snd (load_script_file Demo.ext "bad.py" (init Demo.w0)))
     = scripts (init Demo.w0).
Proof.
  destruct (load_error_is_reraised Demo.ext "bad.py" "def (" (init Demo.w0)
              (snd (compile_and_collect Demo.ext "bad.py" "def ("
                      (log (EvOpen "bad.py" true)
                           (set_world Demo.w0 (init Demo.w0)))))
              Demo.w0 Demo.SyntaxError) as (Hload & Hkeep & _).
  - reflexivity.
  - reflexivity.
  - reflexivity.
  - rewrite Hload. split; [reflexivity|exact Hkeep].
Defined.

(** C7, as the specification words it, fails: [bad.py] and [bad2.py] hold
    the same text, and loading either raises the very same [SyntaxError],
    which therefore cannot tell the path it was raised for. *)
Lemma load_error_does_not_carry_path : ~ load_error_carries_path.
Proof.
  intros [path_of H].
  assert (H1 : path_of Demo.SyntaxError = "bad.py").
  { apply (H Demo.world Demo.ext "bad.py" (init Demo.w0)
             (snd (load_script_file Demo.ext "bad.py" (init Demo.w0))));
      reflexivity. }
  assert (H2 : path_of Demo.SyntaxError = "bad2.py").
  { apply (H Demo.world Demo.ext "bad2.py" (init Demo.w0)
             (snd (load_script_file Demo.ext "bad2.py" (init Demo.w0))));
      reflexivity. }
  rewrite H1 in H2. discriminate H2.
Qed.

(** ** The database check and the exit status *)

Section ExitProofs.
Context {W : Type} (ext : externals W).
Implicit Types (st : state W) (a : args).

Example db_file_appends_suffix : db_file "mydb" = "mydb.raftdb".
Proof. reflexivity. Qed.

Example db_file_keeps_suffix : db_file "mydb.raftdb" = "mydb.raftdb".
Proof. reflexivity. Qed.

(** With a missing database and no [--create], [process_args] writes the
    message, returns 1 and does nothing else. *)
Lemma process_args_missing_db a st message :
  db_missing ext a (world st) = Some message ->
  process_args ext a st = (Ok 1%Z, log (EvStderr message) st).
Proof.
  intros H. unfold process_args, bind, get. simpl. by rewrite H.
Qed.

(** Whatever [process_args] returns, the process ends with status 0. *)
Lemma exit_status_ignores_result a w :
  is_ok (fst (main ext a (init w))) = true -> exit_status ext a w = 0%Z.
Proof.
  unfold exit_status. by destruct (fst (main ext a (init w))).
Qed.

Lemma exit_status_missing_db a w message :
  db_missing ext a w = Some message -> exit_status ext a w = 0%Z.
Proof.
  intros H. apply exit_status_ignores_result.
  unfold main, bind, emit, modify. simpl.
  rewrite (process_args_missing_db a _ message); done.
Qed.

(** ** File arguments *)

Lemma fileargs_loop_glob func filearg rest file_list st :
  contains_char "*" filearg = true ->
  fileargs_loop ext func (filearg :: rest) file_list st
  = (Raise NameError_glob, st).
Proof. intros H. simpl. unfold bind, get. simpl. by rewrite H. Qed.

Lemma fileargs_loop_missing_first func filearg rest st :
  contains_char "*" filearg = false ->
  os_path_exists ext filearg (world st) = false ->
  fileargs_loop ext func (filearg :: rest) None st
  = (Raise UnboundLocalError_file_list, st).
Proof. intros H1 H2. simpl. unfold bind, get. simpl. by rewrite H1, H2. Qed.

Lemma fileargs_loop_missing_later func filearg rest l st :
  contains_char "*" filearg = false ->
  os_path_exists ext filearg (world st) = false ->
  fileargs_loop ext func (filearg :: rest) (Some l) st
  = (parse_files ext func l ;; fileargs_loop ext func rest (Some l)) st.
Proof. intros H1 H2. simpl. unfold bind, get. simpl. by rewrite H1, H2. Qed.
End ExitProofs.

(** C8: the code at the failing input.  With [--db mydb --parse --burp-xml
    a.xml], no [mydb.raftdb] and no [--create], [process_args] reports the
    missing file, returns 1 and neither loads nor parses anything, but
    [main] drops that value and the process ends with status 0. *)
Theorem missing_db_exit_status_is_0 :
  let run := process_args Demo.ext Demo.args_missing_db (init Demo.w0) in
  fst run = Ok 1%Z
  /\ trace (snd run)
     = [EvStderr (nl +:+ "DB file [mydb.raftdb] does not exist" +:+ nl)]
  /\ exit_status Demo.ext Demo.args_missing_db Demo.w0 = 0%Z.
Proof. vm_compute. repeat split; reflexivity. Qed.

(** C9: the code at the failing inputs.  A file argument that does not
    exist raises [UnboundLocalError] when it comes first, and makes the
    files of the argument before it be parsed a second time otherwise, also
    across format flags; a pattern with [*] raises [NameError], whether it
    matches or not, because the module never imports [glob]. *)
Theorem missing_file_is_not_skipped :
  fst (process_args Demo.ext demo_args_missing (init Demo.w0))
  = Raise UnboundLocalError_file_list
  /\ parsed (trace (snd (process_args Demo.ext demo_args_stale (init Demo.w0))))
     = [(burp_xml, "a.xml"); (burp_xml, "a.xml")]
  /\ parsed (trace (snd (process_args Demo.ext demo_args_stale_format
                           (init Demo.w0))))
     = [(burp_log, "a.xml"); (burp_xml, "a.xml")]
  /\ fst (process_args Demo.ext demo_args_glob (init Demo.w0))
     = Raise NameError_glob.
Proof. vm_compute. repeat split; reflexivity. Qed.

(** ** The references of the lists always point into [self.scripts] *)

Section FrameProofs.
Context {W : Type} (ext : externals W).
Implicit Types (st : state W).

Lemma frame_refl st : frame st st.
Proof. by repeat split. Qed.

Lemma frame_trans st1 st2 st3 : frame st1 st2 -> frame st2 st3 -> frame st1 st3.
Proof.
  intros (H1 & H2 & H3) (H4 & H5 & H6).
  split; [congruence|]. split; [congruence|].
  intros ref. by rewrite H6, H3.
Qed.

Lemma frame_registered_ok st st' :
  frame st st' -> registered_ok st -> registered_ok st'.
Proof.
  intros (H1 & H2 & H3) Hok ref. rewrite H1, H2. intros Hin.
  destruct (Hok ref Hin) as [env Henv]. specialize (H3 ref).
  rewrite Henv in H3. by destruct (scripts st' !! ref).
Qed.

Lemma keeps_ret {A} (a : A) : keeps (ret a : M W A).
Proof. intros st. apply frame_refl. Qed.

Lemma keeps_raise {A} e : keeps (raise e : M W A).
Proof. intros st. apply frame_refl. Qed.

Lemma keeps_get : keeps (get : M W (state W)).
Proof. intros st. apply frame_refl. Qed.

Lemma frame_same_scripts st st' :
  capture_filter_scripts st' = capture_filter_scripts st ->
  process_capture_scripts st' = process_capture_scripts st ->
  scripts st' = scripts st ->
  frame st st'.
Proof. intros H1 H2 H3. repeat split; [done..|]. intros ref. by rewrite H3. Qed.

Lemma keeps_emit ev : keeps (emit ev : M W unit).
Proof. intros st. by apply frame_same_scripts. Qed.

Lemma keeps_extern {A} (call : W -> outcome A * W) ev :
  keeps (extern call ev).
Proof.
  intros st. unfold extern. destruct (call (world st)).
  by apply frame_same_scripts.
Qed.

Lemma keeps_bind {A B} (m : M W A) (k : A -> M W B) :
  keeps m -> (forall a, keeps (k a)) -> keeps (bind m k).
Proof.
  intros Hm Hk st. specialize (Hm st). unfold bind.
  destruct (m st) as [[a|e] st1]; [|done].
  eapply frame_trans; [exact Hm|apply Hk].
Qed.

Lemma keeps_try {A} (body : M W A) (handler : exn -> M W A) :
  keeps body -> (forall e, keeps (handler e)) ->
  keeps (try_except body handler).
Proof.
  intros Hb Hh st. specialize (Hb st). unfold try_except.
  destruct (body st) as [[a|e] st1]; [done|].
  destruct (exc_is_Exception e); [|done].
  eapply frame_trans; [exact Hb|apply Hh].
Qed.

Lemma keeps_setup_plugins file : keeps (@setup_plugins W file).
Proof.
  intros st. destruct (setup_plugins_run file st)
    as (new & _ & _ & Hcf & Hpc & Hsame & _).
  by repeat split.
Qed.

Lemma keeps_stream_loop filters processors s :
  keeps (stream_loop ext filters processors s).
Proof.
  induction s as [|record rest IH|e]; simpl.
  - apply keeps_ret.
  - apply keeps_bind; [|done]. unfold process_record.
    apply keeps_bind; [apply keeps_extern|]. intros capture.
    apply keeps_bind.
    + clear. induction filters as [|f rest IH]; simpl; [apply keeps_ret|].
      apply keeps_bind; [apply keeps_extern|]. intros result.
      destruct (negb (truthy result)); [apply keeps_ret|done].
    + intros skip. destruct (negb skip); [|apply keeps_ret].
      clear. induction processors as [|f rest IH]; simpl; [apply keeps_ret|].
      apply keeps_bind; [apply keeps_extern|done].
  - apply keeps_raise.
Qed.

Lemma keeps_parse_one_file file func : keeps (parse_one_file ext file func).
Proof.
  unfold parse_one_file. apply keeps_bind; [apply keeps_emit|].
  intros ?. apply keeps_bind; [apply keeps_setup_plugins|].
  intros plugins. unfold run_stream. apply keeps_try.
  - apply keeps_bind; [apply keeps_get|]. intros st.
    apply keeps_bind; [apply keeps_emit|]. intros ?. apply keeps_stream_loop.
  - intros e. apply keeps_bind; [apply keeps_emit|]. intros ?.
    apply keeps_raise.
Qed.

Lemma keeps_run_parse_process_loop a : keeps (run_parse_process_loop ext a).
Proof.
  unfold run_parse_process_loop. apply keeps_bind; [|intros ?; apply keeps_ret].
  generalize (@None (list string)). generalize FILE_PROCESSOR_DEFINTIONS.
  intros defs. induction defs as [|name rest IH]; intros file_list; simpl.
  { apply keeps_ret. }
  destruct (arg_files a name) as [arg|]; [|done].
  apply keeps_bind; [|done]. clear.
  revert file_list. induction arg as [|filearg rest IH]; intros file_list; simpl.
  { apply keeps_ret. }
  apply keeps_bind; [apply keeps_get|]. intros st. apply keeps_bind.
  { destruct (contains_char _ filearg); [apply keeps_raise|].
    destruct (os_path_exists _ _ _); apply keeps_ret. }
  intros [l|]; [|apply keeps_raise].
  apply keeps_bind; [|done]. clear.
  induction l as [|file rest IH]; simpl; [apply keeps_ret|].
  apply keeps_bind; [apply keeps_parse_one_file|done].
Qed.

Lemma load_script_file_ok path st ref st1 :
  load_script_file ext path st = (Ok ref, st1) ->
  ref = path
  /\ is_Some (scripts st1 !! path)
  /\ capture_filter_scripts st1 = capture_filter_scripts st
  /\ process_capture_scripts st1 = process_capture_scripts st
  /\ (forall r, is_Some (scripts st !! r) -> is_Some (scripts st1 !! r)).
Proof.
  intros Hload.
  destruct (load_script_file_stores ext path st ref st1 Hload) as [-> Hin].
  destruct (load_script_file_lists ext (capture_filter_scripts st)
              (process_capture_scripts st) path (fun _ => True)
              (fun _ _ => I) (fun _ => I) st) as (_ & _ & _ & Hpost); [done|].
  rewrite Hload in Hpost. destruct (Hpost path eq_refl) as (_ & Hcf & Hpc).
  do 4 (split; [done|]). intros r [env Henv].
  pose proof (load_script_file_keeps ext r path st env Henv) as Hkeep.
  rewrite Hload in Hkeep. eauto.
Qed.

(** One loading loop: what it appends to its list is in the cache, the
    other list is left alone, and the cache only grows. *)
Lemma load_scripts_registers (sel other : state W -> list string)
    (append : string -> M W unit) arg :
  (forall path st, sel (snd (load_script_file ext path st)) = sel st
                   \/ is_ok (fst (load_script_file ext path st)) = false) ->
  (forall path st, other (snd (load_script_file ext path st)) = other st
                   \/ is_ok (fst (load_script_file ext path st)) = false) ->
  (forall ref st,
      fst (append ref st) = Ok tt
      /\ sel (snd (append ref st)) = sel st ++ [ref]
      /\ other (snd (append ref st)) = other st
      /\ scripts (snd (append ref st)) = scripts st) ->
  forall st st',
    load_scripts ext append arg st = (Ok tt, st') ->
    (forall r, r ∈ sel st -> is_Some (scripts st !! r)) ->
    (forall r, r ∈ sel st' -> is_Some (scripts st' !! r))
    /\ other st' = other st
    /\ (forall r, is_Some (scripts st !! r) -> is_Some (scripts st' !! r)).
Proof.
  intros Hsel Hother Happend.
  induction arg as [|filearg rest IH]; intros st st' Hrun Hok.
  { injection Hrun as <-. auto. }
  simpl in Hrun. unfold bind at 1 in Hrun.
  destruct (Hsel filearg st) as [Hs|Hs], (Hother filearg st) as [Ho|Ho];
    destruct (load_script_file ext filearg st) as [[ref|e] st1] eqn:Hload;
    try done.
  destruct (load_script_file_ok filearg st ref st1 Hload)
    as (-> & Hin & _ & _ & Hgrow).
  unfold bind at 1 in Hrun.
  destruct (Happend filearg st1) as (Hres & Hs2 & Ho2 & Hscripts).
  destruct (append filearg st1) as [[[]|e] st2]; [|done].
  simpl in *.
  destruct (IH st2 st' Hrun) as (Hok' & Ho' & Hgrow').
  { intros r. rewrite Hs2, Hs, elem_of_app, list_elem_of_singleton.
    rewrite Hscripts. intros [Hr| ->]; [apply Hgrow, Hok, Hr|done]. }
  split; [done|]. split; [congruence|].
  intros r Hr. apply Hgrow'. rewrite Hscripts. by apply Hgrow.
Qed.

Lemma load_script_file_lists_or_raise path st :
  (capture_filter_scripts (snd (load_script_file ext path st))
   = capture_filter_scripts st
   \/ is_ok (fst (load_script_file ext path st)) = false)
  /\ (process_capture_scripts (snd (load_script_file ext path st))
      = process_capture_scripts st
      \/ is_ok (fst (load_script_file ext path st)) = false).
Proof.
  destruct (load_script_file ext path st) as [[ref|e] st1] eqn:Hload.
  - destruct (load_script_file_ok path st ref st1 Hload)
      as (_ & _ & Hcf & Hpc & _).
    split; by left.
  - split; by right.
Qed.

Lemma load_plugins_eq a st :
  load_plugins ext a st =
  match
    match arg_capture_filter a with
    | Some arg => load_scripts ext append_capture_filter_script arg
    | None => ret tt
    end (set_capture_filter_scripts [] st)
  with
  | (Ok _, st1) =>
      match arg_process_capture a with
      | Some arg => load_scripts ext append_process_capture_script arg
      | None => ret tt
      end (set_process_capture_scripts [] st1)
  | (Raise e, st1) => (Raise e, st1)
  end.
Proof.
  unfold load_plugins, bind, modify. simpl.
  by destruct (match arg_capture_filter a with
               | Some arg => load_scripts ext append_capture_filter_script arg
               | None => ret tt
               end (set_capture_filter_scripts [] st)) as [[[]|e] st1].
Qed.

(** After the two loading loops every reference of the two lists points
    into [self.scripts]. *)
Lemma load_plugins_registered_ok a st st' :
  load_plugins ext a st = (Ok tt, st') -> registered_ok st'.
Proof.
  rewrite load_plugins_eq.
  set (st0 := set_capture_filter_scripts [] st).
  destruct (match arg_capture_filter a with
            | Some arg => load_scripts ext append_capture_filter_script arg
            | None => ret tt
            end st0) as [[[]|e] st1] eqn:Hcfrun; [|done].
  assert (Hcf : forall r, r ∈ capture_filter_scripts st1 ->
                          is_Some (scripts st1 !! r)).
  { destruct (arg_capture_filter a) as [arg|].
    - eapply (load_scripts_registers capture_filter_scripts
                process_capture_scripts append_capture_filter_script arg);
        [..|exact Hcfrun|].
      + intros path s. apply load_script_file_lists_or_raise.
      + intros path s. apply load_script_file_lists_or_raise.
      + by intros ref s.
      + by intros r ?%not_elem_of_nil.
    - injection Hcfrun as <-. by intros r ?%not_elem_of_nil. }
  set (st2 := set_process_capture_scripts [] st1).
  intros Hrun. destruct (arg_process_capture a) as [arg|].
  - destruct (load_scripts_registers process_capture_scripts
                capture_filter_scripts append_process_capture_script arg)
      with (st := st2) (st' := st') as (Hpc & Hsame & Hgrow); try done.
    + intros path s. apply load_script_file_lists_or_raise.
    + intros path s. apply load_script_file_lists_or_raise.
    + by intros r ?%not_elem_of_nil.
    + intros ref [Hin|Hin]%elem_of_app; [|by apply Hpc].
      rewrite Hsame in Hin. apply Hgrow. by apply Hcf.
  - injection Hrun as <-. intros ref [Hin|Hin]%elem_of_app.
    + by apply Hcf.
    + by apply not_elem_of_nil in Hin.
Qed.

(** And parsing keeps it so. *)
Lemma run_parse_process_loop_registered_ok a st :
  registered_ok st ->
  registered_ok (snd (run_parse_process_loop ext a st)).
Proof.
  apply frame_registered_ok, keeps_run_parse_process_loop.
Qed.
End FrameProofs.

(** An exception that is not an instance of [Exception] passes through
    the [try] statement of [parse_one_file] without being printed. *)
Lemma run_stream_not_Exception {W} (ext : externals W)
    (filters processors : list (string * pyfunc W)) (file : string)
    (func : format) (st st2 : state W) (e : exn) :
  stream_loop ext filters processors (file_processor ext func file (world st))
              (log (EvParse func file) st)
  = (Raise e, st2) ->
  exc_is_Exception e = false ->
  run_stream ext filters processors file func st = (Raise e, st2).
Proof.
  intros Hraise Hexc. by rewrite run_stream_eq, Hraise, Hexc.
Qed.

(** The run of the specification's first scenario: three records, no
    filter and no processor registered. *)
Example three_records_no_plugins :
  let a := Args None false false true None None
                (Demo.only raft_capture_xml ["a.xml"]) in
  let run := process_args Demo.ext a (init Demo.w0) in
  fst run = Ok 0%Z
  /\ adapted (trace (snd run)) = [PyInt 1; PyInt 2; PyInt 3]
  /\ filter_calls (trace (snd run)) = []
  /\ process_calls (trace (snd run)) = []
  /\ init_calls (trace (snd run)) = []
  /\ exit_status Demo.ext a Demo.w0 = 0%Z.
Proof. vm_compute. repeat split; reflexivity. Qed.

(** The pipeline of [Demo.args_pipeline] on ["a.xml"]: capture 2 is
    dropped by [keep_odd.py]; [both.py] is initialized once. *)
Example demo_pipeline_trace :
  let tr := trace (snd (process_args Demo.ext Demo.args_pipeline
                          (init Demo.w0))) in
  filter_calls tr
  = [("keep_odd.py", PyObj 1); ("both.py", PyObj 1);
     ("keep_odd.py", PyObj 2);
     ("keep_odd.py", PyObj 3); ("both.py", PyObj 3)]
  /\ process_calls tr
     = [("store.py", PyObj 1); ("both.py", PyObj 1);
        ("store.py", PyObj 3); ("both.py", PyObj 3)]
  /\ init_calls tr
     = [("keep_odd.py", "a.xml"); ("both.py", "a.xml"); ("store.py", "a.xml")].
Proof. vm_compute. repeat split; reflexivity. Qed.

(** ** The database file name *)

Section StringProofs.
Implicit Types (s suffix : string).

Lemma length_append s1 s2 :
  String.length (s1 +:+ s2) = String.length s1 + String.length s2.
Proof. induction s1 as [|c s1 IH]; simpl; [done|]. by rewrite IH. Qed.

Lemma substring_all s : String.substring 0 (String.length s) s = s.
Proof. induction s as [|c s IH]; simpl; [done|]. by rewrite IH. Qed.

Lemma substring_append s1 s2 n :
  String.substring (String.length s1) n (s1 +:+ s2) = String.substring 0 n s2.
Proof. induction s1 as [|c s1 IH]; simpl; done. Qed.

Lemma substring_split s :
  forall n, n <= String.length s ->
    String.substring 0 n s
    +:+ String.substring n (String.length s - n) s = s.
Proof.
  induction s as [|c s IH]; intros [|n] Hn; simpl in *; try lia; try done.
  - by rewrite substring_all.
  - change (String c (String.substring 0 n s
                      +:+ String.substring n (String.length s - n) s)
            = String c s).
    by rewrite IH by lia.
Qed.

Lemma endswith_append s suffix : endswith (s +:+ suffix) suffix = true.
Proof.
  unfold endswith. rewrite length_append.
  rewrite (proj2 (Nat.leb_le _ _)) by lia.
  replace (String.length s + String.length suffix - String.length suffix)
    with (String.length s) by lia.
  rewrite substring_append, substring_all. apply String.eqb_refl.
Qed.

Lemma endswith_inv s suffix :
  endswith s suffix = true -> exists stem, s = stem +:+ suffix.
Proof.
  unfold endswith. destruct (Nat.leb_spec (String.length suffix)
                                          (String.length s)) as [Hle|]; [|done].
  intros Heq. apply String.eqb_eq in Heq.
  exists (String.substring 0 (String.length s - String.length suffix) s).
  pose proof (substring_split s (String.length s - String.length suffix))
    as Hsplit.
  replace (String.length s - (String.length s - String.length suffix))
    with (String.length suffix) in Hsplit by lia.
  rewrite Heq in Hsplit. symmetry. apply Hsplit. lia.
Qed.
End StringProofs.

(** X1.  The database file name [process_args] checks always ends in
    [.raftdb]: a name that has the suffix is used as it is, any other name
    becomes the name followed by [.raftdb], and normalising twice changes
    nothing. *)
Theorem db_file_ends_with_raftdb (name : string) :
  (exists stem, db_file name = stem +:+ ".raftdb")
  /\ endswith (db_file name) ".raftdb" = true
  /\ db_file (db_file name) = db_file name
  /\ (db_file name = name <-> endswith name ".raftdb" = true)
  /\ ((exists stem, name = stem +:+ ".raftdb") -> db_file name = name)
  /\ ((~ exists stem, name = stem +:+ ".raftdb") ->
      db_file name = name +:+ ".raftdb").
Proof.
  assert (Hends : endswith (db_file name) ".raftdb" = true).
  { unfold db_file. destruct (endswith name ".raftdb") eqn:E; [done|].
    apply endswith_append. }
  split; [by apply endswith_inv|]. split; [done|]. split.
  { unfold db_file at 1. by rewrite Hends. }
  split.
  { split.
    - intros Heq. by rewrite <- Heq.
    - intros Hname. unfold db_file. by rewrite Hname. }
  split.
  - intros [stem ->]. unfold db_file. by rewrite endswith_append.
  - intros Hnot. unfold db_file.
    destruct (endswith name ".raftdb") eqn:E; [|done].
    destruct Hnot. by apply endswith_inv.
Qed.

(** ** The value of [process_args] *)

Section ResultProofs.
Context {W : Type} (ext : externals W).
Implicit Types (st : state W) (a : args).

Lemma process_args_eq a st :
  process_args ext a st =
  match db_missing ext a (world st) with
  | Some message => (Ok 1%Z, log (EvStderr message) st)
  | None =>
      match load_plugins ext a st with
      | (Ok _, st1) =>
          match
            (if arg_import a then ret tt
             else if arg_parse a then run_parse_process_loop ext a
             else emit (EvStderr (nl +:+ "No recognized options" +:+ nl))) st1
          with
          | (Ok _, st2) => (Ok 0%Z, st2)
          | (Raise e, st2) => (Raise e, st2)
          end
      | (Raise e, st1) => (Raise e, st1)
      end
  end.
Proof.
  unfold process_args, bind, get.
  destruct (db_missing ext a (world st)) as [message|]; [done|].
  destruct (load_plugins ext a st) as [[[]|e] st1]; [|done].
  match goal with |- context [?m st1] => destruct (m st1) as [[[]|e] st2] end;
    done.
Qed.

Lemma db_missing_inv a (w : W) message :
  db_missing ext a w = Some message ->
  exists db,
    arg_db a = Some db
    /\ os_path_exists ext (db_file db) w = false
    /\ arg_create a = false
    /\ message = nl +:+ "DB file [" +:+ db_file db +:+ "] does not exist" +:+ nl.
Proof.
  unfold db_missing. destruct (arg_db a) as [db|]; [|done].
  destruct (os_path_exists ext (db_file db) w) eqn:Hexists;
    destruct (arg_create a) eqn:Hcreate; simpl; try done.
  intros [= <-]. by exists db.
Qed.
End ResultProofs.

(** X2.  When [process_args] returns, its value is 1 or 0.  It is 1 only
    when [--db] names a file that, with the suffix [.raftdb], does not exist
    and [--create] is absent; then the one thing that happened is the
    message on stderr: no plugin was loaded, no file parsed.  It is 0 only
    when the database check passed and every plugin was loaded. *)
Theorem process_args_returns_1_for_missing_db_only {W} (ext : externals W)
    (a : args) (st st' : state W) (z : Z) :
  process_args ext a st = (Ok z, st') ->
  (z = 1%Z
   /\ exists db,
        arg_db a = Some db
        /\ os_path_exists ext (db_file db) (world st) = false
        /\ arg_create a = false
        /\ st' = log (EvStderr (nl +:+ "DB file [" +:+ db_file db
                                   +:+ "] does not exist" +:+ nl)) st)
  \/ (z = 0%Z
      /\ db_missing ext a (world st) = None
      /\ exists st1, load_plugins ext a st = (Ok tt, st1)).
Proof.
  rewrite process_args_eq.
  destruct (db_missing ext a (world st)) as [message|] eqn:Hdb.
  - intros [= <- <-]. left. split; [done|].
    destruct (db_missing_inv ext a _ _ Hdb) as (db & ? & ? & ? & ->).
    by exists db.
  - destruct (load_plugins ext a st) as [[[]|e] st1]; [|done].
    match goal with |- context [?m st1] => destruct (m st1) as [[[]|e] st2] end;
      [|done].
    intros [= <- <-]. right. split; [done|]. split; [done|]. by exists st1.
Qed.

Lemma process_args_returns_1_for_missing_db_only_witness :
  (1 = 1
   /\ exists db,
        arg_db Demo.args_missing_db = Some db
        /\ os_path_exists Demo.ext (db_file db) (world (init Demo.w0)) = false
        /\ arg_create Demo.args_missing_db = false
        /\ snd (process_args Demo.ext Demo.args_missing_db (init Demo.w0))
           = log (EvStderr (nl +:+ "DB file [" +:+ db_file db
                               +:+ "] does not exist" +:+ nl)) (init Demo.w0))%Z
  \/ (1 = 0
      /\ db_missing Demo.ext Demo.args_missing_db (world (init Demo.w0)) = None
      /\ exists st1,
           load_plugins Demo.ext Demo.args_missing_db (init Demo.w0)
           = (Ok tt, st1))%Z.
Proof.
  apply (process_args_returns_1_for_missing_db_only Demo.ext
           Demo.args_missing_db (init Demo.w0)).
  vm_compute. reflexivity.
Defined.

(** ** What each phase of a run may do *)

Section PhaseProofs.
Context {W : Type} (ext : externals W).
Implicit Types (st : state W) (P : event -> Prop) (a : args).

Lemma hoare_try_Exception {A} (pre : state W -> Prop) (body : M W A)
    (handler : exn -> M W A) P (post : A -> state W -> Prop) :
  hoare pre body P post ->
  (forall e, exc_is_Exception e = true ->
             hoare (fun _ => True) (handler e) P post) ->
  hoare pre (try_except body handler) P post.
Proof.
  intros Hb Hh st Hst.
  destruct (Hb st Hst) as (new1 & Htr1 & HP1 & Hok1).
  unfold try_except. destruct (body st) as [[x|e] st1] eqn:E; simpl in *.
  - exists new1. auto.
  - destruct (exc_is_Exception e) eqn:He.
    + destruct (Hh e He st1 I) as (new2 & Htr2 & HP2 & Hok2).
      exists (new1 ++ new2). rewrite Htr2, Htr1, app_assoc.
      split; [done|]. split; [by apply Forall_app|]. done.
    + exists new1. split; [done|]. split; [done|]. intros b [=].
Qed.

Lemma emits_bind {A B} (m : M W A) (k : A -> M W B) P :
  hoare (fun _ => True) m P (fun _ _ => True) ->
  (forall x, hoare (fun _ => True) (k x) P (fun _ _ => True)) ->
  hoare (fun _ => True) (bind m k) P (fun _ _ => True).
Proof. intros Hm Hk. eapply hoare_bind; [exact Hm|]. intros x. apply Hk. Qed.

Lemma emits_ret {A} (x : A) P :
  hoare (fun _ : state W => True) (ret x) P (fun _ _ => True).
Proof. by apply hoare_ret. Qed.

Lemma emits_get P :
  hoare (fun _ : state W => True) get P (fun _ _ => True).
Proof. by apply hoare_get. Qed.

Lemma emits_modify (f : state W -> state W) P :
  (forall st, trace (f st) = trace st) ->
  hoare (fun _ => True) (modify f) P (fun _ _ => True).
Proof. intros Hf. by apply hoare_modify. Qed.

Lemma emits_emit ev P :
  P ev -> hoare (fun _ : state W => True) (emit ev) P (fun _ _ => True).
Proof. intros Hev. by apply hoare_emit. Qed.

Lemma emits_extern {A} (call : W -> outcome A * W) (ev : outcome A -> event) P :
  (forall r, P (ev r)) ->
  hoare (fun _ => True) (extern call ev) P (fun _ _ => True).
Proof. intros Hev. by apply hoare_extern. Qed.

Lemma emits_print_raise {A} P :
  (forall e, exc_is_Exception e = true -> P (EvPrint e)) ->
  forall e, exc_is_Exception e = true ->
    hoare (fun _ : state W => True)
          (emit (EvPrint e) ;; raise e : M W A) P (fun _ _ => True).
Proof.
  intros Hprint e He. apply emits_bind; [apply emits_emit; auto|].
  intros ?. apply hoare_raise.
Qed.

(** *** Loading *)

Lemma collect_methods_events path (inst : instance W) items
    (env : script_env W) P :
  (forall item ok, P (EvGetattr path item ok)) ->
  hoare (fun _ => True) (collect_methods path inst items env) P
        (fun _ _ => True).
Proof.
  intros Hget. revert env.
  induction items as [|item rest IH]; intros env; simpl.
  - apply emits_ret.
  - destruct (negb (startswith_char "_" item)); [|done].
    apply emits_bind; [apply emits_extern; intros r; apply Hget|].
    intros [m|ty c]; done.
Qed.

Lemma collect_bindings_events path ns (env : script_env W) P :
  (forall key ok, P (EvNew path key ok)) ->
  (forall key ok, P (EvDir path key ok)) ->
  (forall item ok, P (EvGetattr path item ok)) ->
  hoare (fun _ => True) (collect_bindings path ns env) P (fun _ _ => True).
Proof.
  intros Hnew Hdir Hget. revert env.
  induction ns as [|[key value] rest IH]; intros env; simpl.
  - apply emits_ret.
  - destruct value as [construct|f|ty c]; [|done..].
    apply emits_bind; [apply emits_extern; intros r; apply Hnew|].
    intros inst.
    apply emits_bind; [apply emits_extern; intros r; apply Hdir|].
    intros items.
    apply emits_bind; [by apply collect_methods_events|]. done.
Qed.

Lemma compile_and_collect_events path python_code P :
  (forall ok, P (EvCompile path ok)) ->
  (forall ok, P (EvExec path ok)) ->
  (forall key ok, P (EvNew path key ok)) ->
  (forall key ok, P (EvDir path key ok)) ->
  (forall item ok, P (EvGetattr path item ok)) ->
  hoare (fun _ => True) (compile_and_collect ext path python_code) P
        (fun _ _ => True).
Proof.
  intros Hcompile Hexec Hnew Hdir Hget. unfold compile_and_collect.
  apply emits_bind; [apply emits_extern; intros r; apply Hcompile|].
  intros ?.
  apply emits_bind; [apply emits_extern; intros r; apply Hexec|].
  intros ns. by apply collect_bindings_events.
Qed.

Lemma load_script_file_events path P :
  (forall ev, is_load_event ev = true -> P ev) ->
  (forall e, exc_is_Exception e = true -> P (EvPrint e)) ->
  hoare (fun _ => True) (load_script_file ext path) P (fun _ _ => True).
Proof.
  intros Hload Hprint. unfold load_script_file.
  apply emits_bind; [apply emits_get|]. intros s.
  destruct (scripts s !! path); [apply emits_ret|].
  apply emits_bind; [apply emits_extern; intros r; by apply Hload|].
  intros python_code. apply emits_bind.
  { apply hoare_try_Exception; [|by apply emits_print_raise].
    apply compile_and_collect_events; intros; by apply Hload. }
  intros env. apply emits_bind; [by apply emits_modify|].
  intros ?. apply emits_ret.
Qed.

Lemma load_scripts_events (append : string -> M W unit) arg P :
  (forall ev, is_load_event ev = true -> P ev) ->
  (forall e, exc_is_Exception e = true -> P (EvPrint e)) ->
  (forall ref, hoare (fun _ => True) (append ref) P (fun _ _ => True)) ->
  hoare (fun _ => True) (load_scripts ext append arg) P (fun _ _ => True).
Proof.
  intros Hload Hprint Happend. induction arg as [|filearg rest IH]; simpl.
  - apply emits_ret.
  - apply emits_bind; [by apply load_script_file_events|].
    intros ref. apply emits_bind; [apply Happend|]. done.
Qed.

Lemma load_plugins_events a P :
  (forall ev, is_load_event ev = true -> P ev) ->
  (forall e, exc_is_Exception e = true -> P (EvPrint e)) ->
  hoare (fun _ => True) (load_plugins ext a) P (fun _ _ => True).
Proof.
  intros Hload Hprint. unfold load_plugins.
  apply emits_bind; [by apply emits_modify|]. intros ?.
  apply emits_bind.
  { destruct (arg_capture_filter a) as [arg|]; [|apply emits_ret].
    apply load_scripts_events; [done..|].
    intros ref. by apply emits_modify. }
  intros ?. apply emits_bind; [by apply emits_modify|]. intros ?.
  destruct (arg_process_capture a) as [arg|]; [|apply emits_ret].
  apply load_scripts_events; [done..|].
  intros ref. by apply emits_modify.
Qed.

(** *** Parsing *)

Lemma init_event_is_parse_event ev :
  is_init_event ev = true -> is_parse_event ev = true.
Proof. by destruct ev. Qed.

Lemma record_event_is_parse_event ev :
  is_record_event ev = true -> is_parse_event ev = true.
Proof. by destruct ev. Qed.

Lemma setup_plugins_events file P :
  (forall ev, is_parse_event ev = true -> P ev) ->
  hoare (fun _ => True) (@setup_plugins W file) P (fun _ _ => True).
Proof.
  intros Hparse st _.
  destruct (setup_plugins_run file st) as (new & Htr & Hall & _).
  exists new. split; [done|]. split; [|done].
  eapply Forall_impl; [exact Hall|].
  intros ev Hev. by apply Hparse, init_event_is_parse_event.
Qed.

Lemma run_stream_phase filters processors file func P :
  (forall ev, is_parse_event ev = true -> P ev) ->
  (forall e, exc_is_Exception e = true -> P (EvPrint e)) ->
  hoare (fun _ => True) (run_stream ext filters processors file func) P
        (fun _ _ => True).
Proof.
  intros Hparse Hprint. unfold run_stream.
  apply hoare_try_Exception; [|by apply emits_print_raise].
  apply emits_bind; [apply emits_get|]. intros s.
  apply emits_bind; [apply emits_emit; by apply Hparse|]. intros ?.
  apply stream_loop_events.
  intros ev Hev. by apply Hparse, record_event_is_parse_event.
Qed.

Section Parsing.
Variable P : event -> Prop.
Hypothesis Hparse : forall ev, is_parse_event ev = true -> P ev.
Hypothesis Hprint : forall e, exc_is_Exception e = true -> P (EvPrint e).
Hypothesis Hstderr : forall s, P (EvStderr s).

Lemma parse_one_file_phase file func :
  hoare (fun _ => True) (parse_one_file ext file func) P (fun _ _ => True).
Proof using Hparse Hprint Hstderr.
  unfold parse_one_file.
  apply emits_bind; [by apply emits_emit|]. intros ?.
  apply emits_bind; [by apply setup_plugins_events|]. intros plugins.
  by apply run_stream_phase.
Qed.

Lemma parse_files_phase func file_list :
  hoare (fun _ => True) (parse_files ext func file_list) P (fun _ _ => True).
Proof using Hparse Hprint Hstderr.
  induction file_list as [|file rest IH]; simpl.
  - apply emits_ret.
  - apply emits_bind; [apply parse_one_file_phase|]. done.
Qed.

Lemma fileargs_loop_phase func arg file_list :
  hoare (fun _ => True) (fileargs_loop ext func arg file_list) P
        (fun _ _ => True).
Proof using Hparse Hprint Hstderr.
  revert file_list. induction arg as [|filearg rest IH]; intros file_list; simpl.
  - apply emits_ret.
  - apply emits_bind; [apply emits_get|]. intros s. apply emits_bind.
    { destruct (contains_char _ filearg); [apply hoare_raise|].
      destruct (os_path_exists _ _ _); apply emits_ret. }
    intros [l|]; [|apply hoare_raise].
    apply emits_bind; [apply parse_files_phase|]. done.
Qed.

Lemma formats_loop_phase a defs file_list :
  hoare (fun _ => True) (formats_loop ext a defs file_list) P
        (fun _ _ => True).
Proof using Hparse Hprint Hstderr.
  revert file_list. induction defs as [|name rest IH]; intros file_list; simpl.
  - apply emits_ret.
  - destruct (arg_files a name) as [arg|]; [|done].
    apply emits_bind; [apply fileargs_loop_phase|]. done.
Qed.

Lemma run_parse_process_loop_phase a :
  hoare (fun _ => True) (run_parse_process_loop ext a) P (fun _ _ => True).
Proof using Hparse Hprint Hstderr.
  unfold run_parse_process_loop.
  apply emits_bind; [apply formats_loop_phase|]. intros ?. apply emits_ret.
Qed.

Lemma process_args_phase a :
  (forall ev, is_load_event ev = true -> P ev) ->
  hoare (fun _ => True) (process_args ext a) P (fun _ _ => True).
Proof using Hparse Hprint Hstderr.
  intros Hload. unfold process_args.
  apply emits_bind; [apply emits_get|]. intros s.
  destruct (db_missing ext a (world s)) as [message|].
  { apply emits_bind; [by apply emits_emit|]. intros ?. apply emits_ret. }
  apply emits_bind; [by apply load_plugins_events|]. intros ?.
  apply emits_bind; [|intros ?; apply emits_ret].
  destruct (arg_import a); [apply emits_ret|].
  destruct (arg_parse a); [apply run_parse_process_loop_phase|].
  by apply emits_emit.
Qed.
End Parsing.
End PhaseProofs.

Lemma load_event_is_no_parse_event ev :
  is_load_event ev = true -> is_parse_event ev = false.
Proof. by destruct ev. Qed.

Lemma parse_event_is_no_load_event ev :
  is_parse_event ev = true -> is_load_event ev = false.
Proof. by destruct ev. Qed.

(** X3.  [--import] wins over [--parse], and without either nothing is
    parsed: in both cases [process_args] calls no parser, no adapter, no
    [initialize], no filter and no processor.  The plugins are loaded all
    the same: when it returns 0, the two lists hold the scripts named on
    the command line and each of them is cached. *)
Theorem import_mode_runs_no_pipeline {W} (ext : externals W) (a : args)
    (st : state W) :
  arg_import a = true \/ arg_parse a = false ->
  Forall (fun ev => is_parse_event ev = false)
         (emitted (process_args ext a) st)
  /\ (fst (process_args ext a st) = Ok 0%Z ->
      capture_filter_scripts (snd (process_args ext a st))
      = default [] (arg_capture_filter a)
      /\ process_capture_scripts (snd (process_args ext a st))
         = default [] (arg_process_capture a)
      /\ registered_ok (snd (process_args ext a st))).
Proof.
  intros Hmode. split.
  - apply (hoare_trace (fun _ => True) _ _ (fun _ _ => True)); [|done].
    unfold process_args.
    apply emits_bind; [apply emits_get|]. intros s.
    destruct (db_missing ext a (world s)) as [message|].
    { apply emits_bind; [by apply emits_emit|]. intros ?. apply emits_ret. }
    apply emits_bind.
    { apply load_plugins_events; [apply load_event_is_no_parse_event|done]. }
    intros ?. apply emits_bind; [|intros ?; apply emits_ret].
    destruct (arg_import a); [apply emits_ret|].
    destruct (arg_parse a); [by destruct Hmode|].
    by apply emits_emit.
  - rewrite process_args_eq.
    destruct (db_missing ext a (world st)) as [message|]; [done|].
    destruct (load_plugins ext a st) as [[[]|e] st1] eqn:Hload; [|done].
    destruct (load_plugins_registers ext a st st1 Hload) as [Hcfs Hpcs].
    pose proof (load_plugins_registered_ok ext a st st1 Hload) as Hreg.
    destruct (arg_import a); [done|].
    destruct (arg_parse a); [by destruct Hmode|]. done.
Qed.

Lemma import_mode_runs_no_pipeline_witness :
  Forall (fun ev => is_parse_event ev = false)
         (emitted (process_args Demo.ext demo_args_import) (init Demo.w0))
  /\ (fst (process_args Demo.ext demo_args_import (init Demo.w0)) = Ok 0%Z ->
      capture_filter_scripts
        (snd (process_args Demo.ext demo_args_import (init Demo.w0)))
      = default [] (arg_capture_filter demo_args_import)
      /\ process_capture_scripts
           (snd (process_args Demo.ext demo_args_import (init Demo.w0)))
         = default [] (arg_process_capture demo_args_import)
      /\ registered_ok
           (snd (process_args Demo.ext demo_args_import (init Demo.w0)))).
Proof.
  apply (import_mode_runs_no_pipeline Demo.ext demo_args_import (init Demo.w0)).
  left. reflexivity.
Defined.

(** X4.  A run of [process_args] has two phases.  Whatever the first one
    does, it calls no parser, adapter, [initialize], filter or processor;
    the second one reads, compiles and executes no plugin source and
    instantiates no class.  The second phase only begins once both loading
    loops have returned. *)
Theorem loading_precedes_parsing {W} (ext : externals W) (a : args)
    (st : state W) :
  exists loads rest,
    emitted (process_args ext a) st = loads ++ rest
    /\ Forall (fun ev => is_parse_event ev = false) loads
    /\ Forall (fun ev => is_load_event ev = false) rest
    /\ (rest <> [] ->
        exists st1,
          load_plugins ext a st = (Ok tt, st1)
          /\ loads = emitted (load_plugins ext a) st).
Proof.
  destruct (db_missing ext a (world st)) as [message|] eqn:Hdb.
  { exists [EvStderr message], []. unfold emitted.
    rewrite process_args_eq, Hdb. simpl.
    rewrite drop_app_length. repeat split; [by repeat constructor..|done]. }
  destruct (hoare_trace _ _ _ _ st
              (load_plugins_events ext a (fun ev => is_parse_event ev = false)
                 load_event_is_no_parse_event (fun _ _ => eq_refl)) I)
    as [Hloads Hno_parse].
  destruct (load_plugins ext a st) as [[[]|e] st1] eqn:Hload; simpl in *.
  2:{ exists (emitted (load_plugins ext a) st), []. unfold emitted at 1.
      rewrite process_args_eq, Hdb, Hload. simpl.
      rewrite Hloads, drop_app_length, app_nil_r.
      repeat split; [done|constructor|done]. }
  set (mode := if arg_import a then ret tt
               else if arg_parse a then run_parse_process_loop ext a
               else emit (EvStderr (nl +:+ "No recognized options" +:+ nl))).
  assert (Hmode : hoare (fun _ => True) mode
                        (fun ev => is_load_event ev = false)
                        (fun _ _ => True)).
  { subst mode. destruct (arg_import a); [apply emits_ret|].
    destruct (arg_parse a); [|by apply emits_emit].
    apply run_parse_process_loop_phase;
      [apply parse_event_is_no_load_event|done..]. }
  destruct (hoare_trace _ _ _ _ st1 Hmode I) as [Hrest Hno_load].
  exists (emitted (load_plugins ext a) st), (emitted mode st1).
  split.
  { unfold emitted at 1. rewrite process_args_eq, Hdb, Hload. fold mode.
    destruct (mode st1) as [[[]|e] st2]; simpl in *;
      by rewrite Hrest, Hloads, <- app_assoc, drop_app_length. }
  split; [done|]. split; [done|]. intros _. by exists st1.
Qed.

(** X5.  [print(error)] is only reached through [except Exception]: every
    error a run prints is an instance of [Exception], and a run that ends
    with an error that is not one, such as [KeyboardInterrupt], has printed
    no error at all. *)
Theorem only_Exceptions_are_printed {W} (ext : externals W) (a : args)
    (st : state W) (e : exn) :
  (EvPrint e ∈ emitted (process_args ext a) st -> exc_is_Exception e = true)
  /\ (fst (process_args ext a st) = Raise e ->
      exc_is_Exception e = false ->
      printed (emitted (process_args ext a) st) = []).
Proof.
  assert (Hall : forall e',
             EvPrint e' ∈ emitted (process_args ext a) st ->
             exc_is_Exception e' = true).
  { intros e' Hin.
    destruct (hoare_trace _ _ _ _ st
                (process_args_phase ext prints_Exception
                   ltac:(by intros []) ltac:(done) ltac:(done) a
                   ltac:(by intros [])) I) as [_ Hnew].
    rewrite Forall_forall in Hnew. exact (Hnew _ Hin). }
  split; [apply Hall|]. intros Hraise He.
  destruct (print_is_final_process_args ext a st)
    as (new & Htr & [Hnone|(e' & pre & -> & _ & Hraise' & _)]).
  - by rewrite (emitted_eq _ _ _ Htr).
  - rewrite Hraise in Hraise'. injection Hraise' as <-.
    rewrite (Hall e) in He; [done|].
    rewrite (emitted_eq _ _ _ Htr). set_solver.
Qed.

Lemma only_Exceptions_are_printed_witness :
  fst (process_args demo_ext_interrupted demo_args_boom (init Demo.w0))
  = Raise Demo.KeyboardInterrupt
  /\ printed (emitted (process_args demo_ext_interrupted demo_args_boom)
                      (init Demo.w0)) = [].
Proof.
  split; [vm_compute; reflexivity|].
  apply (only_Exceptions_are_printed demo_ext_interrupted demo_args_boom
           (init Demo.w0) Demo.KeyboardInterrupt).
  - vm_compute. reflexivity.
  - reflexivity.
Defined.

(** ** Each source is read once *)

Section OpenProofs.
Context {W : Type} (ext : externals W).
Implicit Types (st : state W) (path : string) (a : args).

Lemma open_count_app path tr1 tr2 :
  open_count path (tr1 ++ tr2) = open_count path tr1 + open_count path tr2.
Proof. unfold open_count. by rewrite List.filter_app, length_app. Qed.

Lemma open_count_none path tr :
  Forall (fun ev => is_open_of path ev = false) tr -> open_count path tr = 0.
Proof.
  unfold open_count. induction 1 as [|ev tr Hev _ IH]; simpl; [done|].
  by rewrite Hev.
Qed.

Lemma opens_left_frame path st st' :
  frame st st' -> opens_left path st' = opens_left path st.
Proof.
  intros (_ & _ & Hsame). specialize (Hsame path). unfold opens_left.
  by destruct (scripts st' !! path), (scripts st !! path).
Qed.

Lemma opens_once_bind {A B} path (m : M W A) (k : A -> M W B) :
  opens_once path m -> (forall x, opens_once path (k x)) ->
  opens_once path (bind m k).
Proof.
  intros Hm Hk st. destruct (Hm st) as (new1 & Htr1 & Hle1).
  unfold bind. destruct (m st) as [[x|e] st1]; simpl in *.
  - destruct (Hk x st1) as (new2 & Htr2 & Hle2).
    exists (new1 ++ new2). rewrite Htr2, Htr1, app_assoc. split; [done|].
    rewrite open_count_app. lia.
  - exists new1. split; [done|]. simpl. lia.
Qed.

(** A computation that opens nothing and caches nothing. *)
Lemma opens_once_quiet {A} path (m : M W A) :
  hoare (fun _ => True) m (fun ev => is_open_of path ev = false)
        (fun _ _ => True) ->
  (forall st, opens_left path (snd (m st)) = opens_left path st) ->
  opens_once path m.
Proof.
  intros Hm Hleft st. destruct (Hm st I) as (new & Htr & Hnew & _).
  exists new. split; [done|]. rewrite (open_count_none _ _ Hnew), Hleft.
  destruct (is_ok (fst (m st))); lia.
Qed.

Lemma opens_once_load_script_file path filearg :
  opens_once path (load_script_file ext filearg).
Proof.
  intros st. destruct (scripts st !! filearg) as [env|] eqn:Hcached.
  { rewrite (load_script_file_cached ext filearg st env Hcached).
    exists []. simpl. rewrite app_nil_r. split; [done|]. lia. }
  assert (Hleft : (if String.eqb filearg path then 1 else 0)
                  <= opens_left path st).
  { destruct (String.eqb_spec filearg path) as [<-|]; [|lia].
    unfold opens_left. by rewrite Hcached. }
  rewrite (load_script_file_eq ext filearg st Hcached).
  destruct (open_read ext filearg (world st)) as [[python_code|e] w].
  2:{ exists [EvOpen filearg false]. split; [done|].
      unfold open_count. simpl.
      destruct (String.eqb filearg path); simpl in *; lia. }
  set (st0 := log (EvOpen filearg true) (set_world w st)).
  destruct (compile_and_collect_events ext filearg python_code
              (fun ev => is_open_of path ev = false)
              (fun _ => eq_refl) (fun _ => eq_refl) (fun _ _ => eq_refl)
              (fun _ _ => eq_refl) (fun _ _ => eq_refl) st0 I)
    as (new & Htr & Hnew & _).
  pose proof (compile_and_collect_scripts ext filearg python_code st0)
    as Hscripts.
  pose proof (open_count_none _ _ Hnew) as Hnone.
  destruct (compile_and_collect ext filearg python_code st0)
    as [[env|e] st2]; simpl in *.
  - exists (EvOpen filearg true :: new). split.
    { rewrite Htr. by rewrite <- app_assoc. }
    change (EvOpen filearg true :: new) with ([EvOpen filearg true] ++ new).
    rewrite open_count_app, Hnone. unfold open_count at 1. simpl.
    unfold opens_left at 1. simpl. rewrite Hscripts.
    destruct (String.eqb_spec filearg path) as [<-|Hne]; simpl.
    + rewrite lookup_insert_eq. lia.
    + rewrite lookup_insert_ne by done. fold (opens_left path st). lia.
  - exists (EvOpen filearg true
            :: new ++ if exc_is_Exception e then [EvPrint e] else []).
    split.
    { destruct (exc_is_Exception e); simpl; rewrite Htr;
        rewrite <- ?app_assoc; simpl; by rewrite ?app_nil_r. }
    change (EvOpen filearg true :: ?l) with ([EvOpen filearg true] ++ l).
    rewrite !open_count_app, Hnone. unfold open_count at 1. simpl.
    destruct (exc_is_Exception e), (String.eqb filearg path);
      simpl in *; lia.
Qed.

Lemma opens_once_load_scripts path (append : string -> M W unit) arg :
  (forall ref, opens_once path (append ref)) ->
  opens_once path (load_scripts ext append arg).
Proof.
  intros Happend. induction arg as [|filearg rest IH]; simpl.
  - apply opens_once_quiet; [apply emits_ret|done].
  - apply opens_once_bind; [apply opens_once_load_script_file|].
    intros ref. apply opens_once_bind; [apply Happend|]. done.
Qed.

Lemma opens_once_modify path (f : state W -> state W) :
  (forall st, trace (f st) = trace st) ->
  (forall st, scripts (f st) = scripts st) ->
  opens_once path (modify f).
Proof.
  intros Htr Hscripts. apply opens_once_quiet; [by apply emits_modify|].
  intros st. unfold opens_left. simpl. by rewrite Hscripts.
Qed.

Lemma opens_once_load_plugins path a : opens_once path (load_plugins ext a).
Proof.
  unfold load_plugins.
  apply opens_once_bind; [by apply opens_once_modify|]. intros ?.
  apply opens_once_bind.
  { destruct (arg_capture_filter a) as [arg|].
    - apply opens_once_load_scripts. intros ref. by apply opens_once_modify.
    - apply opens_once_quiet; [apply emits_ret|done]. }
  intros ?. apply opens_once_bind; [by apply opens_once_modify|]. intros ?.
  destruct (arg_process_capture a) as [arg|].
  - apply opens_once_load_scripts. intros ref. by apply opens_once_modify.
  - apply opens_once_quiet; [apply emits_ret|done].
Qed.

Lemma opens_once_process_args path a : opens_once path (process_args ext a).
Proof.
  unfold process_args.
  apply opens_once_bind; [apply opens_once_quiet; [apply emits_get|done]|].
  intros s. destruct (db_missing ext a (world s)) as [message|].
  { apply opens_once_bind.
    - apply opens_once_quiet; [by apply emits_emit|done].
    - intros ?. apply opens_once_quiet; [apply emits_ret|done]. }
  apply opens_once_bind; [apply opens_once_load_plugins|]. intros ?.
  apply opens_once_bind.
  2:{ intros ?. apply opens_once_quiet; [apply emits_ret|done]. }
  destruct (arg_import a).
  { apply opens_once_quiet; [apply emits_ret|done]. }
  destruct (arg_parse a).
  - apply opens_once_quiet.
    + apply run_parse_process_loop_phase; [by intros []|done..].
    + intros st. apply opens_left_frame, keeps_run_parse_process_loop.
  - apply opens_once_quiet; [by apply emits_emit|done].
Qed.
End OpenProofs.

(** X6.  In a whole run of [process_args] the source of a plugin is opened
    at most once, however often its path is named under the two flags, and
    not at all when the object has it cached from an earlier call.  When
    the run returns, a source that was opened is cached. *)
Theorem plugin_source_is_opened_at_most_once {W} (ext : externals W)
    (a : args) (st : state W) (path : string) :
  let run := process_args ext a st in
  let new := emitted (process_args ext a) st in
  open_count path new <= 1
  /\ (is_Some (scripts st !! path) -> open_count path new = 0)
  /\ (is_ok (fst run) = true -> 1 <= open_count path new ->
      is_Some (scripts (snd run) !! path)).
Proof.
  intros run new.
  destruct (opens_once_process_args ext path a st) as (new' & Htr & Hle).
  subst new. rewrite (emitted_eq _ _ _ Htr). fold run in Hle.
  assert (Hmax : opens_left path st <= 1).
  { unfold opens_left. destruct (scripts st !! path); lia. }
  split; [lia|]. split.
  - intros [env Henv]. unfold opens_left in Hle at 2.
    rewrite Henv in Hle. lia.
  - intros Hok Hopened. rewrite Hok in Hle. unfold opens_left in Hle at 1.
    destruct (scripts (snd run) !! path); [done|lia].
Qed.

(** One script named twice after [--capture-filter] and once after
    [--process-capture] is read once. *)
Example shared_script_is_opened_once :
  open_count "both.py"
    (emitted (process_args Demo.ext demo_args_shared) (init Demo.w0)) = 1
  /\ capture_filter_scripts
       (snd (process_args Demo.ext demo_args_shared (init Demo.w0)))
     = ["both.py"; "both.py"].
Proof. vm_compute. split; reflexivity. Qed.

(** ** Loading again, and loading that fails *)

Section ReloadProofs.
Context {W : Type} (ext : externals W).
Implicit Types (st : state W) (path : string) (a : args).

Lemma load_capture_filter_scripts_cached arg :
  forall st,
    Forall (fun p => is_Some (scripts st !! p)) arg ->
    load_scripts ext append_capture_filter_script arg st
    = (Ok tt,
       set_capture_filter_scripts (capture_filter_scripts st ++ arg) st).
Proof.
  induction arg as [|filearg rest IH]; intros st Hall; simpl.
  - rewrite app_nil_r. by destruct st.
  - apply Forall_cons in Hall as [[env Henv] Hrest].
    unfold bind. rewrite (load_script_file_cached ext filearg st env Henv).
    unfold append_capture_filter_script, modify.
    rewrite IH by done. simpl. by rewrite <- app_assoc.
Qed.

Lemma load_process_capture_scripts_cached arg :
  forall st,
    Forall (fun p => is_Some (scripts st !! p)) arg ->
    load_scripts ext append_process_capture_script arg st
    = (Ok tt,
       set_process_capture_scripts (process_capture_scripts st ++ arg) st).
Proof.
  induction arg as [|filearg rest IH]; intros st Hall; simpl.
  - rewrite app_nil_r. by destruct st.
  - apply Forall_cons in Hall as [[env Henv] Hrest].
    unfold bind. rewrite (load_script_file_cached ext filearg st env Henv).
    unfold append_process_capture_script, modify.
    rewrite IH by done. simpl. by rewrite <- app_assoc.
Qed.
End ReloadProofs.

(** X7.  Loading again costs nothing.  When every script named after
    [--capture-filter] and [--process-capture] is cached already, as in a
    second call of [process_args] on the same object, the two loading loops
    only rebuild the two lists, in command-line order; no source is read or
    executed, the cache and the world stay as they are. *)
Theorem cached_plugins_are_not_loaded_again {W} (ext : externals W)
    (a : args) (st : state W) :
  Forall (fun p => is_Some (scripts st !! p))
         (default [] (arg_capture_filter a)
          ++ default [] (arg_process_capture a)) ->
  load_plugins ext a st
  = (Ok tt,
     set_process_capture_scripts (default [] (arg_process_capture a))
       (set_capture_filter_scripts (default [] (arg_capture_filter a)) st))
  /\ emitted (load_plugins ext a) st = [].
Proof.
  intros Hall. apply Forall_app in Hall as [Hcf Hpc].
  assert (Hrun : load_plugins ext a st
                 = (Ok tt,
                    set_process_capture_scripts
                      (default [] (arg_process_capture a))
                      (set_capture_filter_scripts
                         (default [] (arg_capture_filter a)) st))).
  { rewrite load_plugins_eq.
    destruct (arg_capture_filter a) as [cf|]; simpl in *.
    - rewrite load_capture_filter_scripts_cached by done. simpl.
      destruct (arg_process_capture a) as [pc|]; simpl in *; [|done].
      by rewrite load_process_capture_scripts_cached.
    - unfold ret at 1. simpl.
      destruct (arg_process_capture a) as [pc|]; simpl in *; [|done].
      by rewrite load_process_capture_scripts_cached. }
  split; [done|]. unfold emitted. rewrite Hrun. simpl. apply drop_all.
Qed.

Lemma cached_plugins_are_not_loaded_again_witness :
  load_plugins Demo.ext Demo.args_pipeline Demo.loaded
  = (Ok tt,
     set_process_capture_scripts
       (default [] (arg_process_capture Demo.args_pipeline))
       (set_capture_filter_scripts
          (default [] (arg_capture_filter Demo.args_pipeline)) Demo.loaded))
  /\ emitted (load_plugins Demo.ext Demo.args_pipeline) Demo.loaded = [].
Proof.
  apply (cached_plugins_are_not_loaded_again Demo.ext Demo.args_pipeline
           Demo.loaded).
  repeat constructor; vm_compute; eexists; reflexivity.
Defined.

Section FailedLoadProofs.
Context {W : Type} (ext : externals W).
Implicit Types (st : state W) (path : string).

Lemma keeps_collect_methods path (inst : instance W) items :
  forall env : script_env W, keeps (collect_methods path inst items env).
Proof.
  induction items as [|item rest IH]; intros env; simpl.
  - apply keeps_ret.
  - destruct (negb (startswith_char "_" item)); [|done].
    apply keeps_bind; [apply keeps_extern|]. intros [m|ty c]; apply IH.
Qed.

Lemma keeps_collect_bindings path ns :
  forall env : script_env W, keeps (collect_bindings path ns env).
Proof.
  induction ns as [|[key value] rest IH]; intros env; simpl.
  - apply keeps_ret.
  - destruct value as [construct|f|ty c]; [|done..].
    apply keeps_bind; [apply keeps_extern|]. intros inst.
    apply keeps_bind; [apply keeps_extern|]. intros items.
    apply keeps_bind; [apply keeps_collect_methods|]. intros env'. apply IH.
Qed.

Lemma keeps_compile_and_collect path python_code :
  keeps (compile_and_collect ext path python_code).
Proof.
  unfold compile_and_collect.
  apply keeps_bind; [apply keeps_extern|]. intros ?.
  apply keeps_bind; [apply keeps_extern|]. intros ns.
  apply keeps_collect_bindings.
Qed.
End FailedLoadProofs.

(** X8.  A load that fails, at whatever step, leaves the object as it was:
    nothing is cached for the path, so a later load starts from the source
    again, and the two lists are unchanged.  The error is printed once when
    it is an [Exception] and comes from a step inside the [try] statement:
    compiling, executing, instantiating a class, listing the attributes of
    the instance with [dir] or reading one with [getattr]; an error of
    [open] is raised without being printed, since the file is read before
    the [try] statement. *)
Theorem failed_load_is_not_cached {W} (ext : externals W) (path : string)
    (st : state W) (e : exn) :
  fst (load_script_file ext path st) = Raise e ->
  let st' := snd (load_script_file ext path st) in
  scripts st' = scripts st
  /\ scripts st' !! path = None
  /\ capture_filter_scripts st' = capture_filter_scripts st
  /\ process_capture_scripts st' = process_capture_scripts st
  /\ printed (emitted (load_script_file ext path) st)
     = if is_ok (fst (open_read ext path (world st))) && exc_is_Exception e
       then [e] else [].
Proof.
  destruct (scripts st !! path) as [env|] eqn:Hcached.
  { by rewrite (load_script_file_cached ext path st env Hcached). }
  unfold emitted. rewrite (load_script_file_eq ext path st Hcached).
  destruct (open_read ext path (world st)) as [[python_code|e0] w]; simpl.
  2:{ intros [= ->]. simpl. by rewrite drop_app_length. }
  set (st0 := log (EvOpen path true) (set_world w st)).
  destruct (silent_compile_and_collect ext path python_code st0 I)
    as (new & Htr & Hnew & _).
  apply printed_silent in Hnew.
  pose proof (compile_and_collect_scripts ext path python_code st0)
    as Hscripts.
  destruct (keeps_compile_and_collect ext path python_code st0)
    as (Hcfs & Hpcs & _).
  destruct (compile_and_collect ext path python_code st0) as [[env|e1] st2];
    simpl in *; [done|].
  intros [= ->].
  assert (Hprinted :
            printed (drop (length (trace st))
                          (trace (if exc_is_Exception e
                                  then log (EvPrint e) st2 else st2)))
            = if exc_is_Exception e then [e] else []).
  { destruct (exc_is_Exception e); simpl; rewrite Htr;
      rewrite <- !app_assoc, drop_app_length; simpl;
      rewrite ?printed_app, Hnew; done. }
  destruct (exc_is_Exception e); simpl in *;
    rewrite Hscripts, Hcfs, Hpcs, Hcached; done.
Qed.

Lemma failed_load_is_not_cached_witness :
  (scripts (snd (load_script_file Demo.ext "missing.py" (init Demo.w0)))
   = scripts (init Demo.w0)
   /\ printed (emitted (load_script_file Demo.ext "missing.py")
                       (init Demo.w0))
      = [])
  /\ (fst (load_script_file Demo.ext "prop.py" (init Demo.w0))
      = Raise Demo.RuntimeError
      /\ scripts (snd (load_script_file Demo.ext "prop.py" (init Demo.w0)))
           !! "prop.py" = None
      /\ printed (emitted (load_script_file Demo.ext "prop.py") (init Demo.w0))
         = [Demo.RuntimeError])
  /\ (scripts (snd (load_script_file Demo.ext "bad.py" (init Demo.w0)))
        !! "bad.py" = None
      /\ printed (emitted (load_script_file Demo.ext "bad.py") (init Demo.w0))
         = [Demo.SyntaxError]).
Proof.
  split; [|split].
  - destruct (failed_load_is_not_cached Demo.ext "missing.py" (init Demo.w0)
                Demo.FileNotFoundError) as (Hscripts & _ & _ & _ & Hprinted).
    + vm_compute. reflexivity.
    + split; [exact Hscripts|exact Hprinted].
  - destruct (failed_load_is_not_cached Demo.ext "prop.py" (init Demo.w0)
                Demo.RuntimeError) as (_ & Hpath & _ & _ & Hprinted).
    + vm_compute. reflexivity.
    + split; [vm_compute; reflexivity|]. split; [exact Hpath|exact Hprinted].
  - destruct (failed_load_is_not_cached Demo.ext "bad.py" (init Demo.w0)
                Demo.SyntaxError) as (_ & Hpath & _ & _ & Hprinted).
    + vm_compute. reflexivity.
    + split; [exact Hpath|exact Hprinted].
Defined.

(** ** One file: initialization, then the records *)

Section FileProofs.
Context {W : Type} (ext : externals W).
Implicit Types (st : state W) (file : string) (func : format).
Implicit Types (filters processors : list (string * pyfunc W)).

Lemma init_count_pos script file ok tr :
  EvInitialize script file ok ∈ tr -> 1 <= init_count script file tr.
Proof.
  intros Hin. unfold init_count.
  assert (Hcall : (script, file) ∈ filter (fun c => c = (script, file))
                                          (init_calls tr)).
  { apply list_elem_of_filter. split; [done|].
    unfold init_calls. apply list_elem_of_omap.
    by exists (EvInitialize script file ok). }
  destruct (filter _ (init_calls tr)); [by apply elem_of_nil in Hcall|].
  simpl. lia.
Qed.

Lemma pending_has_initialize (m : gmap string (script_env W)) p :
  pending m p = true -> has_initialize m p = true.
Proof.
  unfold pending, has_initialize. destruct (m !! p); [|done].
  by intros [? _]%andb_true_iff.
Qed.

Lemma collect_capability_inits capability file refs
    (acc : list (string * pyfunc W)) st script file' ok new :
  trace (snd (collect_capability capability file refs acc st))
  = trace st ++ new ->
  EvInitialize script file' ok ∈ new ->
  file' = file /\ script ∈ refs /\ pending (scripts st) script = true.
Proof.
  intros Htr Hin.
  destruct (collect_capability_run capability file refs acc st)
    as (new' & Htr' & _ & _ & _ & _ & Hle & Hother & _).
  rewrite Htr in Htr'. apply app_inv_head in Htr'. subst new'.
  pose proof (init_count_pos _ _ _ _ Hin) as Hpos.
  destruct (decide (file' = file)) as [->|Hne].
  2:{ rewrite (Hother _ _ Hne) in Hpos. lia. }
  split; [done|]. specialize (Hle script). unfold owed in Hle.
  destruct (pending (scripts st) script); simpl in Hle; [|lia].
  destruct (bool_decide_reflect (script ∈ refs)); [done|lia].
Qed.

(** Only a registered script that defines [initialize] is initialized, and
    for the file at hand. *)
Lemma setup_plugins_inits file st script file' ok new :
  trace (snd (setup_plugins file st)) = trace st ++ new ->
  EvInitialize script file' ok ∈ new ->
  file' = file
  /\ script ∈ capture_filter_scripts st ++ process_capture_scripts st
  /\ has_initialize (scripts st) script = true.
Proof.
  rewrite setup_plugins_eq. cbv zeta.
  set (st0 := set_scripts (set_initialized false <$> scripts st) st).
  destruct (collect_capability_run "capture_filter" file
              (capture_filter_scripts st) [] st0)
    as (new1 & Htr1 & _ & _ & _ & _ & _ & _ & Hres1).
  pose proof (collect_capability_inits "capture_filter" file
                (capture_filter_scripts st) [] st0 script file' ok new1 Htr1)
    as Hfirst.
  assert (Hin1 : EvInitialize script file' ok ∈ new1 ->
                 file' = file
                 /\ script ∈ capture_filter_scripts st
                             ++ process_capture_scripts st
                 /\ has_initialize (scripts st) script = true).
  { intros Hin. destruct (Hfirst Hin) as (-> & Href & Hpending).
    split; [done|]. split; [apply elem_of_app; by left|].
    apply pending_has_initialize in Hpending. subst st0. simpl in Hpending.
    unfold has_initialize in *. rewrite lookup_fmap in Hpending.
    by destruct (scripts st !! script). }
  destruct (collect_capability "capture_filter" file _ [] st0)
    as [[fs|e] st1] eqn:Hrun1; cbn [fst snd] in *.
  2:{ intros Htr. rewrite Htr1 in Htr. apply app_inv_head in Htr.
      by subst new. }
  destruct Hres1 as (_ & _ & _ & Hpend1).
  destruct (collect_capability_run "process_capture" file
              (process_capture_scripts st) [] st1)
    as (new2 & Htr2 & _).
  pose proof (collect_capability_inits "process_capture" file
                (process_capture_scripts st) [] st1 script file' ok new2 Htr2)
    as Hsecond.
  intros Htr Hin.
  assert (new = new1 ++ new2) as ->.
  { destruct (collect_capability "process_capture" file _ [] st1)
      as [[ps|e] st2]; cbn [fst snd] in *;
      rewrite Htr2, Htr1, <- app_assoc in Htr;
      by apply app_inv_head in Htr. }
  apply elem_of_app in Hin as [Hin|Hin]; [by apply Hin1|].
  destruct (Hsecond Hin) as (-> & Href & Hpending).
  split; [done|]. split; [apply elem_of_app; by right|].
  rewrite Hpend1 in Hpending. apply andb_true_iff in Hpending as [Hpending _].
  apply pending_has_initialize in Hpending. subst st0. simpl in Hpending.
  unfold has_initialize in *. rewrite lookup_fmap in Hpending.
  by destruct (scripts st !! script).
Qed.

Lemma elem_of_active capability (m : gmap string (script_env W)) refs s f :
  (s, f) ∈ active capability m refs ->
  s ∈ refs
  /\ exists env, m !! s = Some env /\ functions env !! capability = Some f.
Proof.
  unfold active. intros (ref & Href & Hsome)%list_elem_of_omap.
  destruct (m !! ref) as [env|] eqn:Henv; [|done]. simpl in Hsome.
  destruct (functions env !! capability) as [g|] eqn:Hg; [|done].
  simpl in Hsome. injection Hsome as <- <-. eauto.
Qed.

Lemma apply_filters_called all processors filters capture :
  filters ⊆ all ->
  hoare (fun _ => True) (apply_filters filters capture)
        (called_from all processors) (fun _ _ => True).
Proof.
  induction filters as [|[s f] rest IH]; intros Hsub; simpl.
  - apply emits_ret.
  - apply emits_bind.
    { apply emits_extern. intros r. exists f. set_solver. }
    intros result. destruct (negb (truthy result)); [apply emits_ret|].
    apply IH. set_solver.
Qed.

Lemma apply_processors_called filters all processors capture :
  processors ⊆ all ->
  hoare (fun _ => True) (apply_processors processors capture)
        (called_from filters all) (fun _ _ => True).
Proof.
  induction processors as [|[s f] rest IH]; intros Hsub; simpl.
  - apply emits_ret.
  - apply emits_bind.
    { apply emits_extern. intros r. exists f. set_solver. }
    intros ?. apply IH. set_solver.
Qed.

Lemma stream_loop_called filters processors s :
  hoare (fun _ => True) (stream_loop ext filters processors s)
        (called_from filters processors) (fun _ _ => True).
Proof.
  induction s as [|record rest IH|e]; simpl.
  - apply emits_ret.
  - apply emits_bind; [|done]. unfold process_record.
    apply emits_bind; [by apply emits_extern|]. intros capture.
    apply emits_bind; [by apply apply_filters_called|]. intros skip.
    destruct (negb skip); [by apply apply_processors_called|apply emits_ret].
  - apply hoare_raise.
Qed.

Lemma run_stream_called filters processors file func :
  hoare (fun _ => True) (run_stream ext filters processors file func)
        (called_from filters processors) (fun _ _ => True).
Proof.
  unfold run_stream. apply hoare_try.
  - apply emits_bind; [apply emits_get|]. intros s.
    apply emits_bind; [by apply emits_emit|]. intros ?.
    apply stream_loop_called.
  - intros e. by apply hoare_print_raise.
Qed.
End FileProofs.

(** X9.  For one file, initialization comes first: after the line
    [processing [file]] on stderr, [parse_one_file] makes its [initialize]
    calls, each with the name of that file, and only then calls the parser.
    When an [initialize] call raises, the parser is never called and
    nothing is printed, since the two loops that initialize stand before
    the [try] statement; otherwise the parser is called once, and all that
    follows is adapter, filter and processor calls and the printing of an
    error. *)
Theorem initialization_precedes_parsing {W} (ext : externals W)
    (file : string) (func : format) (st : state W) :
  exists inits rest,
    emitted (parse_one_file ext file func) st
    = EvStderr ("processing [" +:+ file +:+ "]" +:+ nl) :: inits ++ rest
    /\ Forall (fun ev => exists script ok, ev = EvInitialize script file ok)
              inits
    /\ (existsb failed_init inits = true ->
        rest = [] /\ is_ok (fst (parse_one_file ext file func st)) = false)
    /\ (existsb failed_init inits = false ->
        exists tail,
          rest = EvParse func file :: tail
          /\ Forall (fun ev => is_record_event ev = true \/ is_print ev = true)
                    tail).
Proof.
  set (line := EvStderr ("processing [" +:+ file +:+ "]" +:+ nl)).
  unfold emitted. rewrite parse_one_file_eq. fold line.
  destruct (setup_plugins_run file (log line st))
    as (inits & Htr & Hinits & _ & _ & _ & _ & _ & Hres).
  pose proof (setup_plugins_inits file (log line st)) as Hfile.
  specialize (fun s f ok => Hfile s f ok inits Htr).
  assert (Hfor : Forall (fun ev => exists script ok,
                           ev = EvInitialize script file ok) inits).
  { rewrite Forall_forall in Hinits. apply Forall_forall. intros ev Hin.
    specialize (Hinits ev Hin). destruct ev; try done.
    destruct (Hfile _ _ _ Hin) as (-> & _). eauto. }
  cbn [log trace] in Htr. rewrite <- app_assoc in Htr. simpl in Htr.
  destruct (setup_plugins file (log line st)) as [[plugins|e] st1];
    cbn [fst snd] in *.
  2:{ exists inits, []. rewrite Htr, drop_app_length, app_nil_r.
      split; [done|]. split; [done|]. split; [done|].
      rewrite Hres. intros [=]. }
  destruct Hres as (_ & _ & Hfail & _).
  rewrite run_stream_eq.
  destruct (stream_loop_events ext (fst plugins) (snd plugins)
              (file_processor ext func file (world st1))
              (fun ev => is_record_event ev = true \/ is_print ev = true)
              (fun _ H => or_introl H) (log (EvParse func file) st1) I)
    as (tail & Htr2 & Htail & _).
  cbn [log trace] in Htr2. rewrite Htr, <- !app_assoc in Htr2. simpl in Htr2.
  destruct (stream_loop ext (fst plugins) (snd plugins) _ _)
    as [[[]|e] st2]; cbn [fst snd] in *.
  - exists inits, (EvParse func file :: tail).
    rewrite Htr2, drop_app_length. split; [done|]. split; [done|].
    split; [by rewrite Hfail|]. intros _. by exists tail.
  - exists inits,
      (EvParse func file
       :: tail ++ if exc_is_Exception e then [EvPrint e] else []).
    split.
    { destruct (exc_is_Exception e); cbn [snd log trace]; rewrite Htr2;
        rewrite <- ?app_assoc; simpl; rewrite <- ?app_assoc; simpl;
        by rewrite ?app_nil_r, drop_app_length. }
    split; [done|]. split; [by rewrite Hfail|]. intros _.
    eexists. split; [done|]. apply Forall_app. split; [done|].
    destruct (exc_is_Exception e); [|constructor].
    constructor; [by right|constructor].
Qed.

(** X10.  Who is called while one file is parsed.  A filter call is made
    only for a script of [self.capture_filter_scripts] whose dictionary has
    a [capture_filter] entry, a processor call only for a script of
    [self.process_capture_scripts] with a [process_capture] entry: a
    registered script that lacks the capability is passed over.
    [initialize] is called only for a registered script that defines it,
    and only with the name of the file being parsed. *)
Theorem only_capable_registered_scripts_are_called {W} (ext : externals W)
    (file : string) (func : format) (st : state W) (script : string) :
  let new := emitted (parse_one_file ext file func) st in
  (forall arg res,
      EvFilter script arg res ∈ new ->
      script ∈ capture_filter_scripts st
      /\ exists env, scripts st !! script = Some env
                     /\ is_Some (functions env !! "capture_filter"))
  /\ (forall arg res,
        EvProcess script arg res ∈ new ->
        script ∈ process_capture_scripts st
        /\ exists env, scripts st !! script = Some env
                       /\ is_Some (functions env !! "process_capture"))
  /\ (forall file' ok,
        EvInitialize script file' ok ∈ new ->
        file' = file
        /\ script ∈ capture_filter_scripts st ++ process_capture_scripts st
        /\ has_initialize (scripts st) script = true).
Proof.
  set (line := EvStderr ("processing [" +:+ file +:+ "]" +:+ nl)).
  cbv zeta. unfold emitted. rewrite parse_one_file_eq. fold line.
  destruct (setup_plugins_run file (log line st))
    as (inits & Htr & Hinits & _ & _ & _ & _ & _ & Hres).
  pose proof (setup_plugins_inits file (log line st)) as Hfile.
  specialize (fun f ok => Hfile script f ok inits Htr).
  cbn [log trace scripts capture_filter_scripts process_capture_scripts]
    in Htr, Hfile, Hres.
  rewrite <- app_assoc in Htr. simpl in Htr.
  rewrite Forall_forall in Hinits.
  destruct (setup_plugins file (log line st)) as [[plugins|e] st1];
    cbn [fst snd] in *.
  2:{ rewrite Htr, drop_app_length.
      split; [|split].
      - intros arg res [[=]|Hin]%elem_of_cons. by apply Hinits in Hin.
      - intros arg res [[=]|Hin]%elem_of_cons. by apply Hinits in Hin.
      - intros file' ok [[=]|Hin]%elem_of_cons. exact (Hfile _ _ Hin). }
  destruct Hres as (Hfilters & Hprocessors & _).
  destruct (run_stream_called ext (fst plugins) (snd plugins) file func st1 I)
    as (rest & Htr2 & Hrest & _).
  rewrite Forall_forall in Hrest.
  rewrite Htr2, Htr, <- app_assoc, drop_app_length. simpl.
  split; [|split].
  - intros arg res [[=]|[Hin|Hin]%elem_of_app]%elem_of_cons.
    { by apply Hinits in Hin. }
    destruct (Hrest _ Hin) as [f Hf]. rewrite Hfilters in Hf.
    apply elem_of_active in Hf as (Href & env & Henv & Hcap). eauto.
  - intros arg res [[=]|[Hin|Hin]%elem_of_app]%elem_of_cons.
    { by apply Hinits in Hin. }
    destruct (Hrest _ Hin) as [f Hf]. rewrite Hprocessors in Hf.
    apply elem_of_active in Hf as (Href & env & Henv & Hcap). eauto.
  - intros file' ok [[=]|[Hin|Hin]%elem_of_app]%elem_of_cons.
    { exact (Hfile _ _ Hin). }
    destruct (Hrest _ Hin).
Qed.

(** ** The order in which files are parsed *)

Section OrderProofs.
Context {W : Type} (ext : externals W).
Implicit Types (st : state W) (file : string) (func : format) (a : args).

Lemma parsed_app tr1 tr2 : parsed (tr1 ++ tr2) = parsed tr1 ++ parsed tr2.
Proof. unfold parsed. apply omap_app. Qed.

Lemma parsed_none tr :
  Forall (fun ev => is_parser_call ev = false) tr -> parsed tr = [].
Proof.
  induction 1 as [|ev tr Hev _ IH]; [done|].
  change (parsed (ev :: tr)) with (parsed ([ev] ++ tr)).
  rewrite parsed_app, IH. by destruct ev.
Qed.

Lemma parses_bind {A B} (m : M W A) (k : A -> M W B) l1 l2 :
  parses m l1 -> (forall x, parses (k x) l2) -> parses (bind m k) (l1 ++ l2).
Proof.
  intros Hm Hk st. destruct (Hm st) as (new1 & Htr1 & Hpre1 & Hall1).
  unfold bind. destruct (m st) as [[x|e] st1]; simpl in *.
  - destruct (Hk x st1) as (new2 & Htr2 & Hpre2 & Hall2).
    exists (new1 ++ new2). rewrite Htr2, Htr1, app_assoc. split; [done|].
    rewrite parsed_app, (Hall1 eq_refl). split.
    + by apply prefix_app.
    + intros Hok. by rewrite (Hall2 Hok).
  - exists new1. split; [done|]. split; [|done].
    by apply prefix_app_r.
Qed.

Lemma parses_quiet {A} (m : M W A) :
  hoare (fun _ => True) m (fun ev => is_parser_call ev = false)
        (fun _ _ => True) ->
  parses m [].
Proof.
  intros Hm st. destruct (Hm st I) as (new & Htr & Hnew & _).
  exists new. by rewrite (parsed_none _ Hnew).
Qed.

Lemma parses_run_stream filters processors file func :
  parses (run_stream ext filters processors file func) [(func, file)].
Proof.
  intros st. rewrite run_stream_eq.
  destruct (stream_loop_events ext filters processors
              (file_processor ext func file (world st))
              (fun ev => is_parser_call ev = false)
              ltac:(by intros []) (log (EvParse func file) st) I)
    as (new & Htr & Hnew & _).
  apply parsed_none in Hnew. cbn [log trace] in Htr.
  destruct (stream_loop ext filters processors _ _) as [[[]|e] st2];
    cbn [fst snd] in *.
  - exists (EvParse func file :: new). rewrite Htr, <- app_assoc.
    split; [done|].
    change (EvParse func file :: new) with ([EvParse func file] ++ new).
    by rewrite parsed_app, Hnew.
  - exists (EvParse func file
            :: new ++ if exc_is_Exception e then [EvPrint e] else []).
    split.
    { destruct (exc_is_Exception e); cbn [snd log trace]; rewrite Htr;
        rewrite <- ?app_assoc; simpl; by rewrite ?app_nil_r. }
    change (EvParse func file :: ?l) with ([EvParse func file] ++ l).
    rewrite !parsed_app, Hnew. by destruct (exc_is_Exception e).
Qed.

Lemma parses_parse_one_file file func :
  parses (parse_one_file ext file func) [(func, file)].
Proof.
  unfold parse_one_file.
  apply (parses_bind _ _ [] [(func, file)]).
  { apply parses_quiet. by apply emits_emit. }
  intros ?. apply (parses_bind _ _ [] [(func, file)]).
  { apply parses_quiet. intros st _.
    destruct (setup_plugins_run file st) as (new & Htr & Hnew & _).
    exists new. split; [done|]. split; [|done].
    eapply Forall_impl; [exact Hnew|]. by intros []. }
  intros plugins. apply parses_run_stream.
Qed.

Lemma parses_parse_files func file_list :
  parses (parse_files ext func file_list)
         (map (fun file => (func, file)) file_list).
Proof.
  induction file_list as [|file rest IH]; simpl.
  - apply parses_quiet, emits_ret.
  - apply (parses_bind _ _ [(func, file)]); [apply parses_parse_one_file|].
    done.
Qed.

Lemma parses_fileargs_loop func arg :
  Forall (plain_existing ext) arg ->
  forall file_list,
    parses (fileargs_loop ext func arg file_list)
           (map (fun file => (func, file)) arg).
Proof.
  induction 1 as [|filearg rest [Hstar Hexists] _ IH]; intros file_list; simpl.
  - apply parses_quiet, emits_ret.
  - intros st.
    assert (Hstep : fileargs_loop ext func (filearg :: rest) file_list st
                    = (parse_files ext func [filearg] ;;
                       fileargs_loop ext func rest (Some [filearg])) st).
    { simpl. unfold bind at 1 2, get. by rewrite Hstar, Hexists. }
    simpl in Hstep. rewrite Hstep.
    apply (parses_bind _ _ [(func, filearg)] _
             (parses_parse_files func [filearg])
             (fun _ => IH (Some [filearg])) st).
Qed.

Lemma parses_formats_loop a defs :
  (forall name arg,
      arg_files a name = Some arg -> Forall (plain_existing ext) arg) ->
  forall file_list,
    parses (formats_loop ext a defs file_list)
           (flat_map (fun name => map (fun file => (name, file))
                                      (default [] (arg_files a name))) defs).
Proof.
  intros Hargs. induction defs as [|name rest IH]; intros file_list; simpl.
  - apply parses_quiet, emits_ret.
  - destruct (arg_files a name) as [arg|] eqn:Harg; simpl; [|apply IH].
    apply parses_bind; [by apply parses_fileargs_loop, (Hargs name)|].
    intros file_list'. apply IH.
Qed.
End OrderProofs.

(** X11.  Files are parsed in the order of [FILE_PROCESSOR_DEFINTIONS], not
    in the order of the flags on the command line; under one flag they
    follow the command line.  For file arguments that contain no [*] and
    exist, a run of [run_parse_process_loop] that returns has called the
    parsers on exactly these files in this order, each with the parser of
    its flag; a run that raises has called them on a prefix of it. *)
Theorem files_are_parsed_in_table_order {W} (ext : externals W) (a : args)
    (st : state W) :
  (forall name arg,
      arg_files a name = Some arg -> Forall (plain_existing ext) arg) ->
  parsed (emitted (run_parse_process_loop ext a) st)
    `prefix_of` files_in_table_order a
  /\ (is_ok (fst (run_parse_process_loop ext a st)) = true ->
      parsed (emitted (run_parse_process_loop ext a) st)
      = files_in_table_order a).
Proof.
  intros Hargs.
  assert (Hrun : parses (run_parse_process_loop ext a)
                        (files_in_table_order a)).
  { unfold run_parse_process_loop.
    rewrite <- (app_nil_r (files_in_table_order a)).
    apply parses_bind; [by apply parses_formats_loop|].
    intros ?. apply parses_quiet, emits_ret. }
  destruct (Hrun st) as (new & Htr & Hprefix & Hall).
  by rewrite (emitted_eq _ _ _ Htr).
Qed.

Lemma files_are_parsed_in_table_order_witness :
  parsed (emitted (run_parse_process_loop Demo.ext demo_args_two_formats)
                  (init Demo.w0))
  = files_in_table_order demo_args_two_formats
  /\ files_in_table_order demo_args_two_formats
     = [(burp_log, "a.xml"); (burp_xml, "five.xml")].
Proof.
  split; [|reflexivity].
  apply (files_are_parsed_in_table_order Demo.ext demo_args_two_formats
           (init Demo.w0)).
  - intros name arg Harg.
    destruct name; simpl in Harg; try discriminate Harg;
      injection Harg as <-; repeat constructor.
  - vm_compute. reflexivity.
Defined.

(** X12.  The pipeline is the same for every file of a run.  Parsing a
    file changes neither the two lists nor the callables of any script, so
    the filters and processors found for the next file are the ones found
    for this one, in the same order: the callables of the registered
    scripts, in registration order. *)
Theorem pipeline_is_the_same_for_every_file {W} (ext : externals W)
    (file next : string) (func : format) (st st1 st2 : state W)
    (plugins plugins' : list (string * pyfunc W) * list (string * pyfunc W)) :
  setup_plugins file st = (Ok plugins, st1) ->
  setup_plugins next (snd (parse_one_file ext file func st))
  = (Ok plugins', st2) ->
  plugins' = plugins
  /\ fst plugins
     = active "capture_filter" (scripts st) (capture_filter_scripts st)
  /\ snd plugins
     = active "process_capture" (scripts st) (process_capture_scripts st).
Proof.
  intros Hrun Hrun'.
  destruct (setup_plugins_run file st) as (new & _ & _ & _ & _ & _ & _ & _ & H).
  rewrite Hrun in H. destruct H as (Hfilters & Hprocessors & _).
  set (st' := snd (parse_one_file ext file func st)) in *.
  destruct (setup_plugins_run next st')
    as (new' & _ & _ & _ & _ & _ & _ & _ & H).
  rewrite Hrun' in H. destruct H as (Hfilters' & Hprocessors' & _).
  destruct (keeps_parse_one_file ext file func st) as (Hcfs & Hpcs & Hsame).
  fold st' in Hcfs, Hpcs, Hsame. simpl in *.
  rewrite Hcfs, (active_same_functions _ _ _ _ Hsame) in Hfilters'.
  rewrite Hpcs, (active_same_functions _ _ _ _ Hsame) in Hprocessors'.
  split; [|done].
  destruct plugins, plugins'; simpl in *. congruence.
Qed.

Lemma pipeline_is_the_same_for_every_file_witness :
  match
    fst (setup_plugins "five.xml"
           (snd (parse_one_file Demo.ext "a.xml" burp_xml Demo.loaded)))
  with
  | Ok plugins' => plugins'
  | Raise _ => ([], [])
  end = demo_plugins.
Proof.
  apply (pipeline_is_the_same_for_every_file Demo.ext "a.xml" "five.xml"
           burp_xml Demo.loaded demo_ready
           (snd (setup_plugins "five.xml"
                   (snd (parse_one_file Demo.ext "a.xml" burp_xml
                           Demo.loaded))))).
  - vm_compute. reflexivity.
  - vm_compute. reflexivity.
Defined.

(** ** A file parsed with no plugin *)

Lemma stream_loop_plain {W} (ext : externals W) (records : list pyval) :
  Forall (fun record => is_ok (adapter_adapt ext record) = true) records ->
  forall st : state W,
    exists st',
      stream_loop ext [] [] (yields records SDone) st = (Ok tt, st')
      /\ trace st'
         = trace st
           ++ map (fun record => EvAdapt record (adapter_adapt ext record))
                  records.
Proof.
  induction 1 as [|record rest Hok _ IH]; intros st; simpl.
  - exists st. by rewrite app_nil_r.
  - unfold bind at 1. rewrite process_record_eq.
    destruct (adapter_adapt ext record) as [capture|e] eqn:Hadapt; [|done].
    simpl.
    destruct (IH (log (EvAdapt record (Ok capture)) (set_world (world st) st)))
      as (st' & Hrun & Htr).
    exists st'. split; [done|]. rewrite Htr. simpl.
    by rewrite <- app_assoc.
Qed.

(** X13.  With no script registered, parsing a file only adapts: when the
    parser yields [records] and ends, and the adapter accepts each of them,
    [parse_one_file] returns normally, and what it does is write the line
    [processing [file]] to stderr, call the parser once and adapt every
    record, in the order the parser yields them. *)
Theorem without_plugins_every_record_is_adapted {W} (ext : externals W)
    (file : string) (func : format) (st : state W) (records : list pyval) :
  capture_filter_scripts st = [] ->
  process_capture_scripts st = [] ->
  file_processor ext func file (world st) = yields records SDone ->
  Forall (fun record => is_ok (adapter_adapt ext record) = true) records ->
  fst (parse_one_file ext file func st) = Ok tt
  /\ emitted (parse_one_file ext file func) st
     = plain_parse_events ext file func records.
Proof.
  intros Hcfs Hpcs Hstream Hrecords.
  unfold emitted. rewrite parse_one_file_eq, setup_plugins_eq. cbv zeta.
  cbn [log capture_filter_scripts process_capture_scripts].
  rewrite Hcfs, Hpcs. simpl. rewrite run_stream_eq. simpl. rewrite Hstream.
  match goal with |- context [stream_loop ext [] [] _ ?s] =>
    destruct (stream_loop_plain ext records Hrecords s) as (st' & Hrun & Htr)
  end.
  rewrite Hrun. simpl in *. split; [done|].
  rewrite Htr, <- !app_assoc, drop_app_length. done.
Qed.

Lemma without_plugins_every_record_is_adapted_witness :
  fst (parse_one_file Demo.ext "a.xml" burp_xml (init Demo.w0)) = Ok tt
  /\ emitted (parse_one_file Demo.ext "a.xml" burp_xml) (init Demo.w0)
     = plain_parse_events Demo.ext "a.xml" burp_xml
         [PyInt 1; PyInt 2; PyInt 3].
Proof.
  apply (without_plugins_every_record_is_adapted Demo.ext "a.xml" burp_xml
           (init Demo.w0) [PyInt 1; PyInt 2; PyInt 3]).
  - reflexivity.
  - reflexivity.
  - reflexivity.
  - repeat constructor.
Defined.

(** ** The dictionary of a loaded script *)

Section BindingProofs.
Context {W : Type} (ext : externals W).
Implicit Types (st : state W) (env : script_env W) (path : string).
Implicit Types (ns : list (string * ns_value W)).

Lemma new_count_app path tr1 tr2 :
  new_count path (tr1 ++ tr2) = new_count path tr1 + new_count path tr2.
Proof. unfold new_count. by rewrite List.filter_app, length_app. Qed.

Lemma functions_add_functions_lookup (l : list (string * pyfunc W)) env key :
  functions (add_functions l env) !! key
  = match (list_to_map (reverse l) : gmap string (pyfunc W)) !! key with
    | Some f => Some f
    | None => functions env !! key
    end.
Proof.
  rewrite functions_add_functions.
  destruct ((list_to_map (reverse l) : gmap string (pyfunc W)) !! key)
    as [f|] eqn:E.
  - by apply lookup_union_Some_l.
  - by rewrite lookup_union_r.
Qed.

Lemma add_functions_fields (l : list (string * pyfunc W)) env :
  filename (add_functions l env) = filename env
  /\ valid (add_functions l env) = valid env
  /\ initialized (add_functions l env) = initialized env
  /\ local_ns (add_functions l env) = local_ns env.
Proof.
  unfold add_functions. revert env.
  induction l as [|kv l IH]; intros env; simpl; [done|].
  destruct (IH (set_function (fst kv) (snd kv) env)) as (? & ? & ? & ?).
  done.
Qed.

Lemma public_methods_elem (items : list (string * attr_value W)) key f :
  (key, f) ∈ public_methods items
  <-> startswith_char "_" key = false /\ (key, AttrMethod f) ∈ items.
Proof.
  unfold public_methods. rewrite list_elem_of_omap. split.
  - intros ([k v] & Hin & Hsome). simpl in Hsome.
    destruct (startswith_char "_" k) eqn:Hk; [done|].
    destruct v as [m|ty c]; [|done]. by injection Hsome as -> ->.
  - intros [Hk Hin]. exists (key, AttrMethod f). split; [done|].
    simpl. by rewrite Hk.
Qed.

(** Every attribute [read_attrs] returns belongs to a public name of
    [items] and is what [getattr] returned for it. *)
Lemma read_attrs_elem (inst : instance W) items :
  forall w attrs w' key itemvalue,
    read_attrs inst items w = (Ok attrs, w') ->
    (key, itemvalue) ∈ attrs ->
    key ∈ items
    /\ startswith_char "_" key = false
    /\ exists w3 w4, inst_getattr inst key w3 = (Ok itemvalue, w4).
Proof.
  induction items as [|item rest IH]; intros w attrs w' key itemvalue; simpl.
  - intros [= <- _] Hin. by apply elem_of_nil in Hin.
  - destruct (startswith_char "_" item) eqn:Hitem.
    { intros Hread Hin. destruct (IH _ _ _ _ _ Hread Hin) as (? & ? & ?).
      split; [apply elem_of_cons; by right|done]. }
    destruct (inst_getattr inst item w) as [[v|e] w1] eqn:Hget; [|done].
    destruct (read_attrs inst rest w1) as [[l|e] w2] eqn:Hrest; [|done].
    intros [= <- <-] [[= -> ->]|Hin]%elem_of_cons.
    + split; [apply elem_of_cons; by left|]. split; [done|]. eauto.
    + destruct (IH _ _ _ _ _ Hrest Hin) as (? & ? & ?).
      split; [apply elem_of_cons; by right|done].
Qed.

(** What storing the public methods of [attrs] adds to [functions], and
    that it loses nothing. *)
Lemma add_methods_lookup (attrs : list (string * attr_value W)) env key f :
  functions (add_functions (public_methods attrs) env) !! key = Some f ->
  functions env !! key = Some f
  \/ (startswith_char "_" key = false /\ (key, AttrMethod f) ∈ attrs).
Proof.
  rewrite functions_add_functions_lookup.
  destruct ((list_to_map (reverse (public_methods attrs))
             : gmap string (pyfunc W)) !! key) as [g|] eqn:E; [|by left].
  intros [= ->]. right.
  apply elem_of_list_to_map_2 in E. rewrite elem_of_reverse in E.
  by apply public_methods_elem.
Qed.

Lemma add_functions_keeps (l : list (string * pyfunc W)) env key :
  is_Some (functions env !! key) ->
  is_Some (functions (add_functions l env) !! key).
Proof.
  rewrite functions_add_functions_lookup.
  by destruct ((list_to_map (reverse l) : gmap string (pyfunc W)) !! key).
Qed.

Lemma add_methods_adds (attrs : list (string * attr_value W)) env key f :
  startswith_char "_" key = false -> (key, AttrMethod f) ∈ attrs ->
  is_Some (functions (add_functions (public_methods attrs) env) !! key).
Proof.
  intros Hk Hin. rewrite functions_add_functions_lookup.
  destruct ((list_to_map (reverse (public_methods attrs))
             : gmap string (pyfunc W)) !! key) as [g|] eqn:E; [done|].
  apply not_elem_of_list_to_map in E. exfalso. apply E.
  apply list_elem_of_fmap. exists (key, f). split; [done|].
  rewrite elem_of_reverse. by apply public_methods_elem.
Qed.

(** One step of the loop over the namespace at a class, when the loop
    goes on: the class was instantiated, [dir] returned [items], every
    public attribute was read, and the loop continues with the bound
    methods stored. *)
Lemma collect_bindings_class_ok path key construct ns env st env' st' :
  collect_bindings path ((key, NsClass construct) :: ns) env st
  = (Ok env', st') ->
  exists inst w items w' attrs new st3,
    construct (world st) = (Ok inst, w)
    /\ inst_dir inst w = (Ok items, w')
    /\ fst (read_attrs inst items w') = Ok attrs
    /\ trace st3
       = trace st ++ EvNew path key true :: EvDir path key true :: new
    /\ Forall (fun ev => exists item ok, ev = EvGetattr path item ok) new
    /\ collect_bindings path ns
         (add_functions (public_methods attrs) (set_instance inst env)) st3
       = (Ok env', st').
Proof.
  rewrite collect_bindings_class.
  destruct (construct (world st)) as [[inst|e] w] eqn:Hnew; [|done].
  cbv zeta.
  destruct (inst_dir inst w) as [[items|e] w'] eqn:Hdir; [|done].
  set (st2 := log (EvDir path key true)
                (set_world w' (log (EvNew path key true) (set_world w st)))).
  destruct (collect_methods_run path inst items (set_instance inst env) st2)
    as (new & Htr & Hall & _ & Hres).
  destruct (collect_methods path inst items _ st2) as [[env2|e] st3];
    [|done].
  simpl in *. intros Hrun.
  destruct (fst (read_attrs inst items w')) as [attrs|e] eqn:Hattrs; [|done].
  injection Hres as ->.
  exists inst, w, items, w', attrs, new, st3.
  rewrite <- !app_assoc in Htr. done.
Qed.

(** The loop over the namespace, when it returns: one instantiation per
    class, and the fields other than [instance] and [functions] are
    untouched. *)
Lemma collect_bindings_run path ns :
  forall env st env' st',
    collect_bindings path ns env st = (Ok env', st') ->
    exists new,
      trace st' = trace st ++ new
      /\ new_count path new = length (class_bindings ns)
      /\ filename env' = filename env
      /\ valid env' = valid env
      /\ initialized env' = initialized env
      /\ local_ns env' = local_ns env
      /\ (instance_ env' = None
          <-> instance_ env = None /\ class_bindings ns = []).
Proof.
  induction ns as [|[key value] rest IH]; intros env st env' st' Hrun.
  - simpl in Hrun. injection Hrun as <- <-. exists [].
    rewrite app_nil_r. repeat split; tauto.
  - destruct value as [construct|f|ty c].
    + apply collect_bindings_class_ok in Hrun
        as (inst & w & items & w' & attrs & new & st3
            & _ & _ & _ & Htr & Hall & Hrun).
      destruct (IH _ _ _ _ Hrun)
        as (new' & Htr' & Hcount & Hf & Hv & Hi & Hl & Hinst).
      destruct (add_functions_fields (public_methods attrs)
                  (set_instance inst env)) as (Hf' & Hv' & Hi' & Hl').
      exists (EvNew path key true :: EvDir path key true :: new ++ new').
      split.
      { rewrite Htr', Htr, <- app_assoc. done. }
      split.
      { change (EvNew path key true :: EvDir path key true :: new ++ new')
          with ([EvNew path key true; EvDir path key true] ++ new ++ new').
        rewrite !new_count_app, Hcount, (new_count_getattr path new Hall).
        unfold new_count. simpl. by rewrite String.eqb_refl. }
      rewrite Hf, Hv, Hi, Hl. do 4 (split; [done|]).
      rewrite Hinst, instance_add_functions. simpl.
      split; [by intros [[=] _]|by intros [_ [=]]].
    + simpl in Hrun. destruct (IH _ _ _ _ Hrun)
        as (new & Htr & Hcount & Hf & Hv & Hi & Hl & Hinst).
      exists new. done.
    + simpl in Hrun. by apply IH.
Qed.

(** Where the entries of [functions] come from. *)
Lemma collect_bindings_sound path ns :
  forall env st env' st',
    collect_bindings path ns env st = (Ok env', st') ->
    forall key f,
      functions env' !! key = Some f ->
      functions env !! key = Some f
      \/ (key, NsFunction f) ∈ ns
      \/ (startswith_char "_" key = false
          /\ exists cls construct w inst w1 items w2 w3 w4,
               (cls, NsClass construct) ∈ ns
               /\ construct w = (Ok inst, w1)
               /\ inst_dir inst w1 = (Ok items, w2)
               /\ key ∈ items
               /\ inst_getattr inst key w3 = (Ok (AttrMethod f), w4)).
Proof.
  induction ns as [|[k value] rest IH]; intros env st env' st' Hrun key f Hf.
  - simpl in Hrun. injection Hrun as <- <-. by left.
  - destruct value as [construct|g|ty c].
    + apply collect_bindings_class_ok in Hrun
        as (inst & w & items & w' & attrs & new & st3
            & Hnew & Hdir & Hattrs & _ & _ & Hrun).
      destruct (IH _ _ _ _ Hrun key f Hf)
        as [Hold|[Hin|(Hk & cls & c' & w0 & i & w1 & its & w2 & w3 & w4
                       & Hin & Hrest)]].
      * apply add_methods_lookup in Hold as [Hold|[Hk Hm]]; [by left|].
        right. right. split; [done|].
        destruct (read_attrs inst items w') as [o w''] eqn:Hread.
        simpl in Hattrs. subst o.
        destruct (read_attrs_elem inst items _ _ _ _ _ Hread Hm)
          as (Hitem & _ & w3 & w4 & Hget).
        exists k, construct, (world st), inst, w, items, w', w3, w4.
        split; [apply elem_of_cons; by left|done].
      * right. left. apply elem_of_cons. by right.
      * right. right. split; [done|].
        exists cls, c', w0, i, w1, its, w2, w3, w4.
        split; [apply elem_of_cons; by right|done].
    + simpl in Hrun.
      destruct (IH _ _ _ _ Hrun key f Hf)
        as [Hold|[Hin|(Hk & cls & c' & w0 & i & w1 & its & w2 & w3 & w4
                       & Hin & Hrest)]].
      * simpl in Hold. apply lookup_insert_Some in Hold as [[<- <-]|[_ Hold]].
        -- right. left. apply elem_of_cons. by left.
        -- by left.
      * right. left. apply elem_of_cons. by right.
      * right. right. split; [done|].
        exists cls, c', w0, i, w1, its, w2, w3, w4.
        split; [apply elem_of_cons; by right|done].
    + simpl in Hrun.
      destruct (IH _ _ _ _ Hrun key f Hf)
        as [Hold|[Hin|(Hk & cls & c' & w0 & i & w1 & its & w2 & w3 & w4
                       & Hin & Hrest)]].
      * by left.
      * right. left. apply elem_of_cons. by right.
      * right. right. split; [done|].
        exists cls, c', w0, i, w1, its, w2, w3, w4.
        split; [apply elem_of_cons; by right|done].
Qed.
End BindingProofs.

Section DictionaryProofs.
Context {W : Type} (ext : externals W).
Implicit Types (st : state W) (env : script_env W) (path : string).
Implicit Types (ns : list (string * ns_value W)).

(** No entry of [functions] is lost, every plain function gets one, and so
    does every public method of the instance that is kept. *)
Lemma collect_bindings_complete path all ns :
  forall env st env' st',
    (forall b, b ∈ ns -> b ∈ all) ->
    collect_bindings path ns env st = (Ok env', st') ->
    (forall key, is_Some (functions env !! key) ->
                 is_Some (functions env' !! key))
    /\ (forall key f, (key, NsFunction f) ∈ ns ->
                      is_Some (functions env' !! key))
    /\ (methods_collected all env -> methods_collected all env').
Proof.
  induction ns as [|[k value] rest IH]; intros env st env' st' Hall Hrun.
  - simpl in Hrun. injection Hrun as <- <-.
    split; [done|]. split; [|done]. by intros key f ?%elem_of_nil.
  - assert (Hrest : forall b, b ∈ rest -> b ∈ all).
    { intros b Hb. apply Hall, elem_of_cons. by right. }
    assert (Hhere : (k, value) ∈ all).
    { apply Hall, elem_of_cons. by left. }
    destruct value as [construct|g|ty c].
    + apply collect_bindings_class_ok in Hrun
        as (inst & w & items & w' & attrs & new & st3
            & Hnew & Hdir & Hattrs & _ & _ & Hrun).
      destruct (IH _ _ _ _ Hrest Hrun) as (Hkeeps & Hfuns & Hmethods).
      split; [|split].
      * intros key Hkey. by apply Hkeeps, add_functions_keeps.
      * intros key f [[=]|Hin]%elem_of_cons. by eapply Hfuns.
      * intros _. apply Hmethods. intros inst' Hinst.
        rewrite instance_add_functions in Hinst. injection Hinst as <-.
        destruct (read_attrs inst items w') as [o w''] eqn:Hread.
        simpl in Hattrs. subst o.
        exists k, construct, (world st), w, items, w', attrs, w''.
        do 4 (split; [done|]).
        intros key f Hin.
        destruct (read_attrs_elem inst items _ _ _ _ _ Hread Hin)
          as (_ & Hk & _).
        by eapply add_methods_adds.
    + simpl in Hrun.
      destruct (IH _ _ _ _ Hrest Hrun) as (Hkeeps & Hfuns & Hmethods).
      split; [|split].
      * intros key Hkey. apply Hkeeps. simpl.
        apply lookup_insert_is_Some. destruct (decide (k = key)); auto.
      * intros key f [[= -> _]|Hin]%elem_of_cons; [|by eapply Hfuns].
        apply Hkeeps. simpl. by rewrite lookup_insert_eq.
      * intros Hold. apply Hmethods. intros inst Hinst.
        destruct (Hold inst Hinst)
          as (cls & c' & w0 & w1 & items & w2 & attrs & w3
              & Hcls & Hnew & Hdir & Hread & Hkeys).
        exists cls, c', w0, w1, items, w2, attrs, w3.
        do 4 (split; [done|]).
        intros key f Hin. simpl. apply lookup_insert_is_Some.
        destruct (decide (k = key)); [by left|right].
        split; [done|]. by eapply Hkeys.
    + simpl in Hrun.
      destruct (IH _ _ _ _ Hrest Hrun) as (Hkeeps & Hfuns & Hmethods).
      split; [done|]. split; [|done].
      intros key f [[=]|Hin]%elem_of_cons. by eapply Hfuns.
Qed.

(** A load that reads the source and returns went through every step. *)
Lemma load_script_file_inv path st ref st1 :
  scripts st !! path = None ->
  load_script_file ext path st = (Ok ref, st1) ->
  exists python_code w ns w2 env st2,
    let st_open := log (EvOpen path true) (set_world w st) in
    let st_compile :=
      log (EvCompile path true) (set_world (world st_open) st_open) in
    let st_exec := log (EvExec path true) (set_world w2 st_compile) in
    open_read ext path (world st) = (Ok python_code, w)
    /\ py_compile ext python_code = Ok tt
    /\ py_exec ext python_code w = (Ok ns, w2)
    /\ collect_bindings path ns (set_local_ns ns (new_script_env path)) st_exec
       = (Ok env, st2)
    /\ ref = path
    /\ st1 = set_scripts (<[path := env]> (scripts st2)) st2.
Proof.
  intros Hcached. rewrite (load_script_file_eq ext path st Hcached).
  destruct (open_read ext path (world st)) as [[python_code|e] w]; [|done].
  rewrite compile_and_collect_eq. cbv zeta. simpl.
  destruct (py_compile ext python_code) as [[]|e] eqn:Hcompile;
    [|by destruct (exc_is_Exception e)].
  destruct (py_exec ext python_code w) as [[ns|e] w2] eqn:Hexec;
    [|by destruct (exc_is_Exception e)].
  destruct (collect_bindings path ns _ _) as [[env|e] st2] eqn:Hrun;
    [|by destruct (exc_is_Exception e)].
  intros [= <- <-]. by exists python_code, w, ns, w2, env, st2.
Qed.
End DictionaryProofs.

(** X14.  The dictionary stored for a script that was loaded from its
    source has [filename] set to the path, [valid] true and [initialized]
    false, and its [local_ns] is the namespace the source left behind.
    The number of instantiations made during the load is the number of
    classes of that namespace, also when there are several; [instance]
    stays unset exactly when there is no class. *)
Theorem every_class_of_a_script_is_instantiated {W} (ext : externals W)
    (path : string) (st st1 : state W) (ref : string) :
  scripts st !! path = None ->
  load_script_file ext path st = (Ok ref, st1) ->
  exists env python_code w w2,
    scripts st1 !! path = Some env
    /\ filename env = path /\ valid env = true /\ initialized env = false
    /\ open_read ext path (world st) = (Ok python_code, w)
    /\ py_exec ext python_code w = (Ok (local_ns env), w2)
    /\ new_count path (emitted (load_script_file ext path) st)
       = length (class_bindings (local_ns env))
    /\ (instance_ env = None <-> class_bindings (local_ns env) = []).
Proof.
  intros Hcached Hrun.
  destruct (load_script_file_inv ext path st ref st1 Hcached Hrun)
    as (python_code & w & ns & w2 & env & st2
        & Hopen & Hcompile & Hexec & Hcollect & -> & ->).
  cbv zeta in Hcollect. simpl in Hcollect.
  destruct (collect_bindings_run path ns _ _ _ _ Hcollect)
    as (new & Htr & Hcount & Hfile & Hvalid & Hinit & Hns & Hinst).
  simpl in Htr, Hfile, Hvalid, Hinit, Hns, Hinst.
  exists env, python_code, w, w2. simpl. rewrite lookup_insert_eq.
  split; [done|]. do 3 (split; [done|]). split; [done|].
  rewrite Hns. split; [done|]. split.
  - unfold emitted. rewrite Hrun. simpl. rewrite Htr.
    rewrite <- !app_assoc, drop_app_length. simpl.
    unfold new_count in *. simpl. by rewrite Hcount.
  - rewrite Hinst. tauto.
Qed.

Lemma every_class_of_a_script_is_instantiated_witness :
  exists env python_code w w2,
    scripts (snd (load_script_file Demo.ext "plugin.py" (init Demo.w0)))
      !! "plugin.py" = Some env
    /\ filename env = "plugin.py" /\ valid env = true
    /\ initialized env = false
    /\ open_read Demo.ext "plugin.py" (world (init Demo.w0))
       = (Ok python_code, w)
    /\ py_exec Demo.ext python_code w = (Ok (local_ns env), w2)
    /\ new_count "plugin.py"
         (emitted (load_script_file Demo.ext "plugin.py") (init Demo.w0))
       = length (class_bindings (local_ns env))
    /\ (instance_ env = None <-> class_bindings (local_ns env) = []).
Proof.
  apply (every_class_of_a_script_is_instantiated Demo.ext "plugin.py"
           (init Demo.w0) _ "plugin.py").
  - reflexivity.
  - vm_compute. reflexivity.
Defined.

(** X15.  What the loader collects, for any namespace.  An entry of
    [functions] is either a top-level plain function, stored under the name
    it is bound to, or a bound method of an instance of a top-level class,
    stored under its attribute name, which does not start with an
    underscore: a name that [dir] listed for the instance and for which
    [getattr] returned that bound method.  Modules, classes, callable
    objects, static methods and data attributes are never collected. *)
Theorem capabilities_are_functions_or_public_methods {W} (ext : externals W)
    (path : string) (st st1 : state W) (ref : string) (env : script_env W)
    (key : string) (f : pyfunc W) :
  scripts st !! path = None ->
  load_script_file ext path st = (Ok ref, st1) ->
  scripts st1 !! path = Some env ->
  functions env !! key = Some f ->
  (key, NsFunction f) ∈ local_ns env
  \/ (startswith_char "_" key = false
      /\ exists cls construct w inst w1 items w2 w3 w4,
           (cls, NsClass construct) ∈ local_ns env
           /\ construct w = (Ok inst, w1)
           /\ inst_dir inst w1 = (Ok items, w2)
           /\ key ∈ items
           /\ inst_getattr inst key w3 = (Ok (AttrMethod f), w4)).
Proof.
  intros Hcached Hrun Henv Hf.
  destruct (load_script_file_inv ext path st ref st1 Hcached Hrun)
    as (python_code & w & ns & w2 & env' & st2
        & Hopen & Hcompile & Hexec & Hcollect & -> & ->).
  simpl in Henv. rewrite lookup_insert_eq in Henv. injection Henv as ->.
  cbv zeta in Hcollect. simpl in Hcollect.
  destruct (collect_bindings_run path ns _ _ _ _ Hcollect)
    as (new & _ & _ & _ & _ & _ & Hns & _).
  simpl in Hns. rewrite Hns.
  destruct (collect_bindings_sound path ns _ _ _ _ Hcollect key f Hf)
    as [Hold|Hnew]; [|done].
  simpl in Hold. by rewrite lookup_empty in Hold.
Qed.

Lemma capabilities_are_functions_or_public_methods_witness :
  ("capture_filter", NsFunction Demo.plugin_capture_filter)
    ∈ local_ns demo_plugin_env
  \/ (startswith_char "_" "capture_filter" = false
      /\ exists cls construct w inst w1 items w2 w3 w4,
           (cls, NsClass construct) ∈ local_ns demo_plugin_env
           /\ construct w = (Ok inst, w1)
           /\ inst_dir inst w1 = (Ok items, w2)
           /\ "capture_filter" ∈ items
           /\ inst_getattr inst "capture_filter" w3
              = (Ok (AttrMethod Demo.plugin_capture_filter), w4)).
Proof.
  apply (capabilities_are_functions_or_public_methods Demo.ext "plugin.py"
           (init Demo.w0)
           (snd (load_script_file Demo.ext "plugin.py" (init Demo.w0)))
           "plugin.py" demo_plugin_env "capture_filter"
           Demo.plugin_capture_filter).
  - reflexivity.
  - vm_compute. reflexivity.
  - vm_compute. reflexivity.
  - vm_compute. reflexivity.
Defined.

(** X16.  Nothing the loader is meant to collect is dropped.  In the
    dictionary stored for a loaded script, every name bound to a plain
    function at the top level is a key of [functions], also when it starts
    with an underscore, and so is every public method name of the instance
    kept in [instance]: the instance was made from a class of the
    namespace, and every public name that [dir] listed for it, in the
    world the constructor left, and whose attribute, read with [getattr],
    is a bound method, is a key. *)
Theorem every_function_and_public_method_is_collected {W}
    (ext : externals W) (path : string) (st st1 : state W) (ref : string)
    (env : script_env W) :
  scripts st !! path = None ->
  load_script_file ext path st = (Ok ref, st1) ->
  scripts st1 !! path = Some env ->
  (forall key f,
      (key, NsFunction f) ∈ local_ns env -> is_Some (functions env !! key))
  /\ methods_collected (local_ns env) env.
Proof.
  intros Hcached Hrun Henv.
  destruct (load_script_file_inv ext path st ref st1 Hcached Hrun)
    as (python_code & w & ns & w2 & env' & st2
        & Hopen & Hcompile & Hexec & Hcollect & -> & ->).
  simpl in Henv. rewrite lookup_insert_eq in Henv. injection Henv as ->.
  cbv zeta in Hcollect. simpl in Hcollect.
  destruct (collect_bindings_run path ns _ _ _ _ Hcollect)
    as (new & _ & _ & _ & _ & _ & Hns & _).
  simpl in Hns. rewrite Hns.
  destruct (collect_bindings_complete path ns ns _ _ _ _ (fun _ H => H)
              Hcollect) as (_ & Hfuns & Hmethods).
  split; [done|]. apply Hmethods. by intros inst [=].
Qed.

Lemma every_function_and_public_method_is_collected_witness :
  (forall key f,
      (key, NsFunction f) ∈ local_ns demo_plugin_env ->
      is_Some (functions demo_plugin_env !! key))
  /\ methods_collected (local_ns demo_plugin_env) demo_plugin_env.
Proof.
  apply (every_function_and_public_method_is_collected Demo.ext "plugin.py"
           (init Demo.w0)
           (snd (load_script_file Demo.ext "plugin.py" (init Demo.w0)))
           "plugin.py" demo_plugin_env).
  - reflexivity.
  - vm_compute. reflexivity.
  - vm_compute. reflexivity.
Defined.

(** ** The cache over a whole run *)

Section GrowProofs.
Context {W : Type} (ext : externals W).
Implicit Types (st : state W) (path : string) (a : args).

Lemma load_scripts_keeps (append : string -> M W unit) arg :
  (forall ref st, scripts (snd (append ref st)) = scripts st) ->
  forall st path env,
    scripts st !! path = Some env ->
    scripts (snd (load_scripts ext append arg st)) !! path = Some env.
Proof.
  intros Happend. induction arg as [|filearg rest IH]; intros st path env Henv.
  - done.
  - simpl. unfold bind.
    pose proof (load_script_file_keeps ext path filearg st env Henv) as Hkept.
    destruct (load_script_file ext filearg st) as [[ref|e] st1]; [|done].
    simpl in Hkept. rewrite <- (Happend ref st1) in Hkept.
    destruct (append ref st1) as [[[]|e] st2]; [|done].
    by apply IH.
Qed.

Lemma load_plugins_keeps a st path env :
  scripts st !! path = Some env ->
  scripts (snd (load_plugins ext a st)) !! path = Some env.
Proof.
  intros Henv. rewrite load_plugins_eq.
  assert (Hfirst :
            scripts (snd (match arg_capture_filter a with
                          | Some arg =>
                              load_scripts ext append_capture_filter_script arg
                          | None => ret tt
                          end (set_capture_filter_scripts [] st))) !! path
            = Some env).
  { destruct (arg_capture_filter a) as [arg|]; [|done].
    by apply load_scripts_keeps. }
  destruct (match arg_capture_filter a with
            | Some arg => load_scripts ext append_capture_filter_script arg
            | None => ret tt
            end (set_capture_filter_scripts [] st)) as [[[]|e] st1]; [|done].
  destruct (arg_process_capture a) as [arg|]; [|done].
  by apply load_scripts_keeps.
Qed.
End GrowProofs.

(** X17.  The cache only grows.  Whatever a call of [process_args] does,
    and however it ends, a script that was cached before is still cached
    after it, with the same callables: the loading loops leave its
    dictionary alone, and parsing only rewrites the [initialized] flags.
    When the call returns 0, the two lists hold the scripts named after
    [--capture-filter] and [--process-capture], in command-line order, and
    every reference of the lists points to a cached dictionary. *)
Theorem cache_only_grows {W} (ext : externals W) (a : args) (st : state W) :
  let run := process_args ext a st in
  (forall path env,
      scripts st !! path = Some env ->
      exists env',
        scripts (snd run) !! path = Some env'
        /\ functions env' = functions env)
  /\ (fst run = Ok 0%Z ->
      capture_filter_scripts (snd run) = default [] (arg_capture_filter a)
      /\ process_capture_scripts (snd run)
         = default [] (arg_process_capture a)
      /\ registered_ok (snd run)).
Proof.
  cbv zeta. rewrite process_args_eq.
  destruct (db_missing ext a (world st)) as [message|].
  { split; [|done]. intros path env Henv. by exists env. }
  pose proof (load_plugins_keeps ext a st) as Hkept.
  pose proof (load_plugins_registers ext a st) as Hlists.
  pose proof (load_plugins_registered_ok ext a st) as Hreg.
  destruct (load_plugins ext a st) as [[[]|e] st1].
  2:{ split; [|done]. intros path env Henv. exists env. auto. }
  destruct (Hlists st1 eq_refl) as [Hcfs Hpcs]. specialize (Hreg st1 eq_refl).
  set (mode := if arg_import a then ret tt
               else if arg_parse a then run_parse_process_loop ext a
               else emit (EvStderr (nl +:+ "No recognized options" +:+ nl))).
  assert (Hframe : frame st1 (snd (mode st1))).
  { subst mode. destruct (arg_import a); [apply frame_refl|].
    destruct (arg_parse a); [apply keeps_run_parse_process_loop|].
    by apply frame_same_scripts. }
  destruct Hframe as (Hcfs' & Hpcs' & Hsame).
  assert (Hgrow : forall path env,
             scripts st !! path = Some env ->
             exists env',
               scripts (snd (mode st1)) !! path = Some env'
               /\ functions env' = functions env).
  { intros path env Henv. specialize (Hsame path).
    pose proof (Hkept path env Henv) as Hk. simpl in Hk.
    rewrite Hk in Hsame. simpl in Hsame.
    destruct (scripts (snd (mode st1)) !! path) as [env'|]; [|done].
    exists env'. split; [done|]. by injection Hsame. }
  assert (Hok : registered_ok (snd (mode st1))).
  { by apply (frame_registered_ok st1). }
  destruct (mode st1) as [[[]|e] st2]; simpl in *; [|done].
  split; [done|]. intros _. by rewrite Hcfs', Hpcs'.
Qed.

(** ** Which files reach a parser *)

Section NamedProofs.
Context {W : Type} (ext : externals W).
Implicit Types (st : state W) (file : string) (func : format) (a : args).

Lemma fileargs_loop_cons func filearg rest file_list st :
  fileargs_loop ext func (filearg :: rest) file_list st =
  if contains_char "*" filearg then (Raise NameError_glob, st)
  else
    match (if os_path_exists ext filearg (world st)
           then Some [filearg] else file_list) with
    | None => (Raise UnboundLocalError_file_list, st)
    | Some l =>
        match parse_files ext func l st with
        | (Ok _, st1) => fileargs_loop ext func rest (Some l) st1
        | (Raise e, st1) => (Raise e, st1)
        end
    end.
Proof.
  simpl. unfold bind at 1 2, get.
  destruct (contains_char "*" filearg); [done|].
  destruct (os_path_exists ext filearg (world st)); simpl.
  - unfold bind. by destruct (parse_files ext func [filearg] st) as [[[]|e] st1].
  - destruct file_list as [l|]; [|done].
    unfold bind. by destruct (parse_files ext func l st) as [[[]|e] st1].
Qed.

Lemma formats_loop_cons a name rest file_list st :
  formats_loop ext a (name :: rest) file_list st =
  match arg_files a name with
  | None => formats_loop ext a rest file_list st
  | Some arg =>
      match fileargs_loop ext name arg file_list st with
      | (Ok file_list', st1) => formats_loop ext a rest file_list' st1
      | (Raise e, st1) => (Raise e, st1)
      end
  end.
Proof.
  simpl. destruct (arg_files a name) as [arg|]; [|done].
  unfold bind. by destruct (fileargs_loop ext name arg file_list st)
                    as [[file_list'|e] st1].
Qed.

Lemma parse_one_file_named a file func :
  named_file a file ->
  hoare (fun _ => True) (parse_one_file ext file func) (parses_named a)
        (fun _ _ => True).
Proof.
  intros Hfile. unfold parse_one_file.
  apply emits_bind; [by apply emits_emit|]. intros ?.
  apply emits_bind.
  { intros st _. destruct (setup_plugins_run file st) as (new & Htr & Hnew & _).
    exists new. split; [done|]. split; [|done].
    eapply Forall_impl; [exact Hnew|]. by intros []. }
  intros plugins. unfold run_stream. apply hoare_try.
  - apply emits_bind; [apply emits_get|]. intros s.
    apply emits_bind; [by apply emits_emit|]. intros ?.
    apply stream_loop_events. by intros [].
  - intros e. by apply hoare_print_raise.
Qed.

Lemma parse_files_named a func file_list :
  Forall (named_file a) file_list ->
  hoare (fun _ => True) (parse_files ext func file_list) (parses_named a)
        (fun _ _ => True).
Proof.
  induction 1 as [|file rest Hfile _ IH]; simpl.
  - apply emits_ret.
  - apply emits_bind; [by apply parse_one_file_named|]. done.
Qed.

Lemma fileargs_loop_named a func arg :
  (forall p, p ∈ arg -> exists name arg', arg_files a name = Some arg'
                                          /\ p ∈ arg') ->
  forall file_list,
    file_list_named a file_list ->
    hoare (fun _ => True) (fileargs_loop ext func arg file_list)
          (parses_named a) (fun file_list' _ => file_list_named a file_list').
Proof.
  induction arg as [|filearg rest IH]; intros Harg file_list Hlist; simpl.
  - by apply hoare_ret.
  - assert (Hrest : forall p, p ∈ rest ->
                      exists name arg', arg_files a name = Some arg'
                                        /\ p ∈ arg').
    { intros p Hp. apply Harg, elem_of_cons. by right. }
    eapply hoare_bind.
    { apply hoare_get with (post := fun _ _ => True). done. }
    intros s.
    apply hoare_bind with (mid := fun fl _ => file_list_named a fl).
    { destruct (contains_char "*" filearg) eqn:Hstar; [apply hoare_raise|].
      destruct (os_path_exists ext filearg (world s)); apply hoare_ret;
        [|done].
      intros _ _ l [= <-]. constructor; [|constructor].
      split; [done|]. apply Harg, elem_of_cons. by left. }
    intros [l|]; [|apply hoare_raise].
    apply hoare_assume with (phi := file_list_named a (Some l)); [done|].
    intros Hl. eapply hoare_bind.
    { eapply hoare_conseq; [apply (parse_files_named a func l); by apply Hl|..];
        done. }
    intros ?. eapply hoare_conseq; [by apply (IH Hrest (Some l))|..]; done.
Qed.

Lemma formats_loop_named a defs :
  forall file_list,
    file_list_named a file_list ->
    hoare (fun _ => True) (formats_loop ext a defs file_list)
          (parses_named a) (fun _ _ => True).
Proof.
  induction defs as [|name rest IH]; intros file_list Hlist; simpl.
  - by apply hoare_ret.
  - destruct (arg_files a name) as [arg|] eqn:Harg; [|by apply IH].
    eapply hoare_bind.
    { apply fileargs_loop_named; [|done]. intros p Hp. by exists name, arg. }
    intros file_list'. cbn beta.
    apply hoare_assume with (phi := file_list_named a file_list'); [done|].
    intros Hlist'. eapply hoare_conseq; [by apply IH|..]; done.
Qed.

Lemma process_args_named a :
  hoare (fun _ => True) (process_args ext a) (parses_named a)
        (fun _ _ => True).
Proof.
  unfold process_args.
  apply emits_bind; [apply emits_get|]. intros s.
  destruct (db_missing ext a (world s)) as [message|].
  { apply emits_bind; [by apply emits_emit|]. intros ?. apply emits_ret. }
  apply emits_bind; [apply load_plugins_events; by intros []|]. intros ?.
  apply emits_bind; [|intros ?; apply emits_ret].
  destruct (arg_import a); [apply emits_ret|].
  destruct (arg_parse a); [|by apply emits_emit].
  unfold run_parse_process_loop.
  apply emits_bind; [by apply formats_loop_named|].
  intros ?. apply emits_ret.
Qed.

Lemma fileargs_loop_star func arg p :
  p ∈ arg -> contains_char "*" p = true ->
  forall file_list st,
    is_ok (fst (fileargs_loop ext func arg file_list st)) = false.
Proof.
  intros Hin Hstar.
  induction arg as [|filearg rest IH]; intros file_list st.
  - by apply elem_of_nil in Hin.
  - rewrite fileargs_loop_cons.
    destruct (contains_char "*" filearg) eqn:Hhead; [done|].
    apply elem_of_cons in Hin as [->|Hin]; [congruence|].
    destruct (if os_path_exists ext filearg (world st)
              then Some [filearg] else file_list) as [l|]; [|done].
    destruct (parse_files ext func l st) as [[[]|e] st1]; [|done].
    by apply IH.
Qed.

Lemma formats_loop_star a defs name arg p :
  name ∈ defs -> arg_files a name = Some arg ->
  p ∈ arg -> contains_char "*" p = true ->
  forall file_list st,
    is_ok (fst (formats_loop ext a defs file_list st)) = false.
Proof.
  intros Hname Harg Hin Hstar.
  induction defs as [|name' rest IH]; intros file_list st.
  - by apply elem_of_nil in Hname.
  - rewrite formats_loop_cons.
    apply elem_of_cons in Hname as [<-|Hname].
    + rewrite Harg.
      pose proof (fileargs_loop_star name arg p Hin Hstar file_list st) as Hno.
      by destruct (fileargs_loop ext name arg file_list st) as [[fl|e] st1].
    + destruct (arg_files a name') as [arg'|]; [|by apply IH].
      destruct (fileargs_loop ext name' arg' file_list st) as [[fl|e] st1];
        [|done].
      by apply IH.
Qed.
End NamedProofs.

Lemma format_in_table (name : format) : name ∈ FILE_PROCESSOR_DEFINTIONS.
Proof. unfold FILE_PROCESSOR_DEFINTIONS. destruct name; set_solver. Qed.

(** X18.  The runner never hands a parser a file that was not named on the
    command line.  In a whole run of [process_args], every file a parser is
    called on was given as a file argument of some format flag and contains
    no [*].  The flag need not be the one whose parser is called: the list
    of files is carried over from one argument to the next. *)
Theorem only_named_files_are_parsed {W} (ext : externals W) (a : args)
    (st : state W) (func : format) (file : string) :
  (func, file) ∈ parsed (emitted (process_args ext a) st) ->
  contains_char "*" file = false
  /\ exists name arg, arg_files a name = Some arg /\ file ∈ arg.
Proof.
  intros Hin.
  destruct (hoare_trace _ _ _ _ st (process_args_named ext a) I) as [_ Hall].
  rewrite Forall_forall in Hall.
  unfold parsed in Hin. apply list_elem_of_omap in Hin as (ev & Hev & Hsome).
  specialize (Hall ev Hev). destruct ev; try done.
  by injection Hsome as <- <-.
Qed.

Lemma only_named_files_are_parsed_witness :
  contains_char "*" "a.xml" = false
  /\ exists name arg,
       arg_files demo_args_stale_format name = Some arg /\ "a.xml" ∈ arg.
Proof.
  apply (only_named_files_are_parsed Demo.ext demo_args_stale_format
           (init Demo.w0) burp_xml "a.xml").
  vm_compute. right. left.
Defined.

(** X19.  A file argument that contains [*] always fails the run: the
    module never imports [glob], so [run_parse_process_loop] cannot return
    normally when such an argument is given under any format flag, and no
    parser is ever called on the pattern itself. *)
Theorem star_argument_fails_the_run {W} (ext : externals W) (a : args)
    (st : state W) (name : format) (arg : list string) (p : string) :
  arg_files a name = Some arg ->
  p ∈ arg ->
  contains_char "*" p = true ->
  is_ok (fst (run_parse_process_loop ext a st)) = false
  /\ forall func,
       (func, p) ∉ parsed (emitted (run_parse_process_loop ext a) st).
Proof.
  intros Harg Hin Hstar. split.
  - unfold run_parse_process_loop, bind.
    pose proof (formats_loop_star ext a FILE_PROCESSOR_DEFINTIONS name arg p
                  (format_in_table name) Harg Hin Hstar None st) as Hno.
    by destruct (formats_loop ext a FILE_PROCESSOR_DEFINTIONS None st)
      as [[fl|e] st1].
  - intros func Hparsed.
    assert (Hrun : hoare (fun _ => True) (run_parse_process_loop ext a)
                         (parses_named a) (fun _ _ => True)).
    { unfold run_parse_process_loop.
      apply emits_bind; [by apply formats_loop_named|].
      intros ?. apply emits_ret. }
    destruct (hoare_trace _ _ _ _ st Hrun I) as [_ Hall].
    rewrite Forall_forall in Hall.
    unfold parsed in Hparsed.
    apply list_elem_of_omap in Hparsed as (ev & Hev & Hsome).
    specialize (Hall ev Hev). destruct ev; try done.
    injection Hsome as <- <-. destruct Hall as [Hno _]. congruence.
Qed.

Lemma star_argument_fails_the_run_witness :
  is_ok (fst (run_parse_process_loop Demo.ext demo_args_star (init Demo.w0)))
  = false
  /\ forall func,
       (func, "*.xml")
         ∉ parsed (emitted (run_parse_process_loop Demo.ext demo_args_star)
                           (init Demo.w0)).
Proof.
  apply (star_argument_fails_the_run Demo.ext demo_args_star (init Demo.w0)
           burp_xml ["*.xml"] "*.xml").
  - reflexivity.
  - left.
  - reflexivity.
Defined.

(** The run of [demo_args_star]: the file named before the pattern is
    parsed, then the pattern raises [NameError]. *)
Example star_after_a_file :
  let run := run_parse_process_loop Demo.ext demo_args_star (init Demo.w0) in
  fst run = Raise NameError_glob
  /\ parsed (trace (snd run)) = [(burp_log, "a.xml")].
Proof. vm_compute. split; reflexivity. Qed.

(** ** Calls into plugin code: which callable runs, and how often *)

Section ReplayProofs.
Context {W : Type} (ext : externals W).
Implicit Types (st : state W) (base : gmap string (script_env W)).
Implicit Types (filters processors : list (string * pyfunc W)).

Lemma replay_app base tr1 tr2 (w : W) :
  replay base (tr1 ++ tr2) w = replay base tr1 w ≫= replay base tr2.
Proof.
  revert w. induction tr1 as [|ev tr1 IH]; intros w; simpl; [done|].
  destruct (event_call ev) as [[[s c] arg]|]; [|done].
  destruct (callable_of base s c) as [f|]; [|done].
  destruct (fn_call f arg w) as [r w'].
  by destruct (event_agrees ev r).
Qed.

Lemma replay_no_call base ev (w : W) :
  event_call ev = None -> replay base [ev] w = Some w.
Proof. intros H. simpl. by rewrite H. Qed.

Lemma callable_of_same base (m : gmap string (script_env W)) script capability :
  same_functions base m ->
  callable_of m script capability = callable_of base script capability.
Proof.
  intros H. unfold callable_of. specialize (H script).
  destruct (m !! script) as [env|], (base !! script) as [env0|];
    simpl in *; try done.
  by injection H as ->.
Qed.

Lemma replays_ret {A} base (a : A) (post : A -> Prop) :
  post a -> replays base (ret a : M W A) post.
Proof.
  intros Hpost st Hst. exists []. simpl. rewrite app_nil_r.
  do 3 (split; [done|]). by intros a' [= <-].
Qed.

Lemma replays_raise {A} base e (post : A -> Prop) :
  replays base (raise e : M W A) post.
Proof.
  intros st Hst. exists []. simpl. rewrite app_nil_r.
  do 3 (split; [done|]). intros a [=].
Qed.

Lemma replays_get base :
  replays base (get : M W (state W)) (fun s => same_functions base (scripts s)).
Proof.
  intros st Hst. exists []. simpl. rewrite app_nil_r.
  do 3 (split; [done|]). by intros a [= <-].
Qed.

Lemma replays_emit base ev :
  event_call ev = None -> replays base (emit ev : M W unit) (fun _ => True).
Proof.
  intros Hev st Hst. exists [ev]. simpl.
  split; [done|]. by rewrite Hev.
Qed.

(** An assignment to an attribute of the object that leaves the callables
    alone. *)
Lemma replays_modify base (f : state W -> state W) :
  (forall st, trace (f st) = trace st /\ world (f st) = world st
              /\ same_functions (scripts st) (scripts (f st))) ->
  replays base (modify f) (fun _ => True).
Proof.
  intros Hf st Hst. destruct (Hf st) as (Htr & Hw & Hsame).
  exists []. simpl. rewrite app_nil_r, Htr, Hw.
  do 2 (split; [done|]). split; [|done].
  by eapply same_functions_trans.
Qed.

(** A call of something that is not plugin code and leaves the world as it
    is. *)
Lemma replays_pure {A} base (result : outcome A) (ev : outcome A -> event) :
  event_call (ev result) = None ->
  replays base (extern (fun w : W => (result, w)) ev) (fun _ => True).
Proof.
  intros Hev st Hst. exists [ev result]. simpl.
  split; [done|]. by rewrite Hev.
Qed.

(** A call of what [script] offers under [capability]. *)
Lemma replays_call base script capability (f : pyfunc W) arg
    (ev : outcome pyval -> event) :
  callable_of base script capability = Some f ->
  (forall r, event_call (ev r) = Some (script, capability, arg)) ->
  (forall r, event_agrees (ev r) r = true) ->
  replays base (extern (fn_call f arg) ev) (fun _ => True).
Proof.
  intros Hf Hcall Hagree st Hst. unfold extern.
  destruct (fn_call f arg (world st)) as [r w] eqn:Hrun.
  exists [ev r]. simpl. split; [done|].
  by rewrite Hcall, Hf, Hrun, Hagree.
Qed.

Lemma replays_bind {A B} base (m : M W A) (k : A -> M W B)
    (mid : A -> Prop) (post : B -> Prop) :
  replays base m mid ->
  (forall a, mid a -> replays base (k a) post) ->
  replays base (bind m k) post.
Proof.
  intros Hm Hk st Hst.
  destruct (Hm st Hst) as (new1 & Htr1 & Hw1 & Hsame1 & Hmid).
  unfold bind. destruct (m st) as [[a|e] st1]; simpl in *.
  - destruct (Hk a (Hmid a eq_refl) st1 Hsame1)
      as (new2 & Htr2 & Hw2 & Hsame2 & Hpost).
    exists (new1 ++ new2). rewrite Htr2, Htr1, app_assoc.
    split; [done|]. rewrite replay_app, Hw1. simpl. done.
  - exists new1. do 3 (split; [done|]). intros b [=].
Qed.

Lemma replays_try {A} base (body : M W A) (handler : exn -> M W A)
    (post : A -> Prop) :
  replays base body post ->
  (forall e, replays base (handler e) post) ->
  replays base (try_except body handler) post.
Proof.
  intros Hb Hh st Hst.
  destruct (Hb st Hst) as (new1 & Htr1 & Hw1 & Hsame1 & Hpost1).
  unfold try_except. destruct (body st) as [[a|e] st1]; simpl in *.
  - exists new1. done.
  - destruct (exc_is_Exception e).
    + destruct (Hh e st1 Hsame1) as (new2 & Htr2 & Hw2 & Hsame2 & Hpost2).
      exists (new1 ++ new2). rewrite Htr2, Htr1, app_assoc.
      split; [done|]. rewrite replay_app, Hw1. simpl. done.
    + exists new1. do 3 (split; [done|]). intros b [=].
Qed.

Lemma replays_weaken {A} base (m : M W A) (post post' : A -> Prop) :
  replays base m post -> (forall a, post a -> post' a) -> replays base m post'.
Proof.
  intros Hm Himp st Hst.
  destruct (Hm st Hst) as (new & Htr & Hw & Hsame & Hpost).
  exists new. do 3 (split; [done|]). auto.
Qed.

Lemma replays_print_raise {A} base e (post : A -> Prop) :
  replays base (emit (EvPrint e) ;; raise e : M W A) post.
Proof.
  eapply replays_bind; [by apply replays_emit|].
  intros ? _. apply replays_raise.
Qed.

(** *** The walk over the registered scripts *)

Lemma replays_run_initializer base ref (initializer : pyfunc W) file :
  callable_of base ref "initialize" = Some initializer ->
  replays base (run_initializer ref initializer file) (fun _ => True).
Proof.
  intros Hf. unfold run_initializer. eapply replays_bind.
  - apply (replays_call base ref "initialize" initializer (PyStr file));
      [done|done|].
    intros r. simpl. by apply bool_decide_eq_true_2.
  - intros ? _. apply replays_modify. intros st. simpl.
    do 2 (split; [done|]). apply same_functions_alter.
Qed.

Lemma callable_of_lookup base (s : state W) ref (env : script_env W)
    capability :
  same_functions base (scripts s) ->
  scripts s !! ref = Some env ->
  callable_of base ref capability = functions env !! capability.
Proof.
  intros Hsame Henv. rewrite <- (callable_of_same base (scripts s)) by done.
  unfold callable_of. by rewrite Henv.
Qed.

Lemma replays_collect_capability base capability file refs :
  forall acc : list (string * pyfunc W),
    Forall (offers base capability) acc ->
    replays base (collect_capability capability file refs acc)
            (Forall (offers base capability)).
Proof.
  induction refs as [|ref rest IH]; intros acc Hacc; simpl.
  - by apply replays_ret.
  - eapply replays_bind; [apply replays_get|].
    intros s Hs. destruct (scripts s !! ref) as [env|] eqn:Henv; [|by apply IH].
    eapply replays_bind with (mid := fun _ => True).
    { destruct (functions env !! "initialize") as [initializer|] eqn:Hinit;
        [|by apply replays_ret].
      destruct (negb (initialized env)); [|by apply replays_ret].
      apply replays_run_initializer.
      by rewrite (callable_of_lookup base s ref env). }
    intros [] _.
    destruct (functions env !! capability) as [f|] eqn:Hcap; [|by apply IH].
    apply IH. apply Forall_app. split; [done|].
    repeat constructor. unfold offers. simpl.
    by rewrite (callable_of_lookup base s ref env).
Qed.

Lemma replays_setup_plugins base file :
  replays base (@setup_plugins W file)
          (fun plugins =>
             Forall (offers base "capture_filter") (fst plugins)
             /\ Forall (offers base "process_capture") (snd plugins)).
Proof.
  unfold setup_plugins, reset_initialized.
  eapply replays_bind.
  { apply replays_modify. intros st. simpl.
    do 2 (split; [done|]). apply same_functions_reset. }
  intros ? _. eapply replays_bind; [apply replays_get|].
  intros s _. eapply replays_bind.
  { apply replays_collect_capability. constructor. }
  intros fs Hfs. eapply replays_bind.
  { apply replays_collect_capability. constructor. }
  intros ps Hps. by apply replays_ret.
Qed.

(** *** The records of one file *)

Lemma replays_apply_filters base filters capture :
  Forall (offers base "capture_filter") filters ->
  replays base (apply_filters filters capture) (fun _ => True).
Proof.
  induction 1 as [|f rest Hf Hrest IH]; simpl.
  - by apply replays_ret.
  - eapply replays_bind.
    { unfold call_filter.
      apply (replays_call base (fst f) "capture_filter" (snd f) capture);
        [done|done|].
      intros r. simpl. by apply bool_decide_eq_true_2. }
    intros result _.
    destruct (negb (truthy result)); [by apply replays_ret|done].
Qed.

Lemma replays_apply_processors base processors capture :
  Forall (offers base "process_capture") processors ->
  replays base (apply_processors processors capture) (fun _ => True).
Proof.
  induction 1 as [|f rest Hf Hrest IH]; simpl.
  - by apply replays_ret.
  - eapply replays_bind.
    { unfold call_processor.
      apply (replays_call base (fst f) "process_capture" (snd f) capture);
        [done|done|].
      intros r. simpl. by apply bool_decide_eq_true_2. }
    intros result _. done.
Qed.

Lemma replays_process_record base filters processors record :
  Forall (offers base "capture_filter") filters ->
  Forall (offers base "process_capture") processors ->
  replays base (process_record ext filters processors record) (fun _ => True).
Proof.
  intros Hf Hp. unfold process_record. eapply replays_bind.
  { by apply (replays_pure base (adapter_adapt ext record) (EvAdapt record)). }
  intros capture _. eapply replays_bind; [by apply replays_apply_filters|].
  intros skip _. destruct (negb skip).
  - by apply replays_apply_processors.
  - by apply replays_ret.
Qed.

Lemma replays_stream_loop base filters processors s :
  Forall (offers base "capture_filter") filters ->
  Forall (offers base "process_capture") processors ->
  replays base (stream_loop ext filters processors s) (fun _ => True).
Proof.
  intros Hf Hp. induction s as [|record rest IH|e]; simpl.
  - by apply replays_ret.
  - eapply replays_bind; [by apply replays_process_record|]. done.
  - apply replays_raise.
Qed.

Lemma replays_run_stream base filters processors file func :
  Forall (offers base "capture_filter") filters ->
  Forall (offers base "process_capture") processors ->
  replays base (run_stream ext filters processors file func) (fun _ => True).
Proof.
  intros Hf Hp. unfold run_stream. apply replays_try.
  - eapply replays_bind; [apply replays_get|].
    intros s _. eapply replays_bind; [by apply replays_emit|].
    intros ? _. by apply replays_stream_loop.
  - intros e. apply replays_print_raise.
Qed.

Lemma replays_parse_one_file base file func :
  replays base (parse_one_file ext file func) (fun _ => True).
Proof.
  unfold parse_one_file. eapply replays_bind; [by apply replays_emit|].
  intros ? _. eapply replays_bind; [apply replays_setup_plugins|].
  intros plugins [Hf Hp]. by apply replays_run_stream.
Qed.

(** *** The files of a run *)

Lemma replays_parse_files base func file_list :
  replays base (parse_files ext func file_list) (fun _ => True).
Proof.
  induction file_list as [|file rest IH]; simpl.
  - by apply replays_ret.
  - eapply replays_bind; [apply replays_parse_one_file|]. done.
Qed.

Lemma replays_fileargs_loop base func arg :
  forall file_list,
    replays base (fileargs_loop ext func arg file_list) (fun _ => True).
Proof.
  induction arg as [|filearg rest IH]; intros file_list; simpl.
  - by apply replays_ret.
  - eapply replays_bind; [apply replays_get|].
    intros s _. eapply replays_bind with (mid := fun _ => True).
    { destruct (contains_char _ filearg); [apply replays_raise|].
      destruct (os_path_exists _ _ _); by apply replays_ret. }
    intros [l|] _; [|apply replays_raise].
    eapply replays_bind; [apply replays_parse_files|]. done.
Qed.

Lemma replays_formats_loop base a defs :
  forall file_list,
    replays base (formats_loop ext a defs file_list) (fun _ => True).
Proof.
  induction defs as [|name rest IH]; intros file_list; simpl.
  - by apply replays_ret.
  - destruct (arg_files a name) as [arg|]; [|done].
    eapply replays_bind; [apply replays_fileargs_loop|]. done.
Qed.

Lemma replays_run_parse_process_loop base a :
  replays base (run_parse_process_loop ext a) (fun _ => True).
Proof.
  unfold run_parse_process_loop.
  eapply replays_bind; [apply replays_formats_loop|].
  intros ? _. by apply replays_ret.
Qed.

(** From the state a computation starts in. *)
Lemma replays_emitted {A} (m : M W A) (post : A -> Prop) st :
  replays (scripts st) m post ->
  trace (snd (m st)) = trace st ++ emitted m st
  /\ replay (scripts st) (emitted m st) (world st) = Some (world (snd (m st))).
Proof.
  intros Hm. destruct (Hm st (same_functions_refl _))
    as (new & Htr & Hw & _).
  by rewrite (emitted_eq _ _ _ Htr).
Qed.
End ReplayProofs.

(** *** The flags of one file *)

Section FlagProofs.
Context {W : Type} (ext : externals W).
Implicit Types (st : state W) (m : gmap string (script_env W)).
Implicit Types (filters processors : list (string * pyfunc W)).















Lemma calls_made_none (tr : list event) :
  Forall (fun ev => event_call ev = None) tr -> calls_made tr = [].
Proof.
  induction 1 as [|ev tr Hev _ IH]; [done|].
  unfold calls_made in *. simpl. by rewrite Hev.
Qed.

(** A call of [process_capture] is a processor call, a call of
    [capture_filter] a filter call. *)
Lemma calls_made_process (tr : list event) s arg :
  (s, "process_capture", arg) ∈ calls_made tr ->
  exists res, EvProcess s arg res ∈ tr.
Proof.
  unfold calls_made. intros (ev & Hin & Hev)%list_elem_of_omap.
  destruct ev; try done; simpl in Hev; injection Hev as -> ->; eauto.
Qed.

Lemma calls_made_filter (tr : list event) s arg :
  (s, "capture_filter", arg) ∈ calls_made tr ->
  exists res, EvFilter s arg res ∈ tr.
Proof.
  unfold calls_made. intros (ev & Hin & Hev)%list_elem_of_omap.
  destruct ev; try done; simpl in Hev; injection Hev as -> ->; eauto.
Qed.
End FlagProofs.



(** Replaying a trace is not a restatement of it: the trace of the run of
    [demo_args_shared] with its one [initialize] call left out, or with a
    filter call counted as a processor call, does not lead to the world
    the run ends in. *)
Example replay_tells_calls_apart :
  let st := demo_shared_loaded in
  let run := parse_one_file Demo.ext "a.xml" burp_xml st in
  let new := emitted (parse_one_file Demo.ext "a.xml" burp_xml) st in
  replay (scripts st) (filter (fun ev => is_init_event ev = false) new)
         (world st)
  <> Some (world (snd run))
  /\ replay (scripts st)
            (map (fun ev => match ev with
                            | EvFilter s arg res => EvProcess s arg res
                            | _ => ev
                            end) new)
            (world st)
     <> Some (world (snd run)).
Proof. split; vm_compute; discriminate. Qed.

(** C10.  A plugin's role is the flag it was registered under.  When the
    two loading loops have returned, the two lists hold the scripts named
    after [--capture-filter] and [--process-capture], and no capability
    has been called yet.  In the parsing phase that follows, the
    [process_capture] entry of a script is called only for a script named
    after [--process-capture], the [capture_filter] entry only for a
    script named after [--capture-filter], whatever else the script
    defines; and these calls are what happens: the world at the end of the
    phase is the world at its start with each call of the trace made in
    turn, a filter event being a call of the [capture_filter] entry of its
    script and a processor event a call of the [process_capture] entry.
    In [--parse] mode that phase is the rest of [process_args]; and in a
    whole run of [process_args], from any state, no processor event is
    written for a script that is not named after [--process-capture], no
    filter event for one that is not named after [--capture-filter]. *)
Theorem role_follows_flag {W} (ext : externals W) (a : args)
    (st st1 : state W) :
  load_plugins ext a st = (Ok tt, st1) ->
  let cfs := default [] (arg_capture_filter a) in
  let pcs := default [] (arg_process_capture a) in
  let run := run_parse_process_loop ext a st1 in
  let new := emitted (run_parse_process_loop ext a) st1 in
  capture_filter_scripts st1 = cfs
  /\ process_capture_scripts st1 = pcs
  /\ calls_made (emitted (load_plugins ext a) st) = []
  /\ (forall s arg, (s, "process_capture", arg) ∈ calls_made new -> s ∈ pcs)
  /\ (forall s arg, (s, "capture_filter", arg) ∈ calls_made new -> s ∈ cfs)
  /\ replay (scripts st1) new (world st1) = Some (world (snd run))
  /\ (db_missing ext a (world st) = None ->
      arg_import a = false -> arg_parse a = true ->
      snd (process_args ext a st) = snd run)
  /\ (forall s arg res,
        s ∉ pcs -> EvProcess s arg res ∉ emitted (process_args ext a) st)
  /\ (forall s arg res,
        s ∉ cfs -> EvFilter s arg res ∉ emitted (process_args ext a) st).
Proof.
  intros Hload cfs pcs run new.
  destruct (load_plugins_registers ext a st st1 Hload) as [Hcfs Hpcs].
  split; [done|]. split; [done|]. split.
  { apply calls_made_none.
    eapply (hoare_trace (fun _ => True) (load_plugins ext a)); [|done].
    apply load_plugins_lists; [by intros []|done]. }
  assert (Hroles : Forall (role_ok cfs pcs) new).
  { eapply (hoare_trace (same_lists cfs pcs));
      [apply run_parse_process_loop_lists|done]. }
  rewrite Forall_forall in Hroles.
  split.
  { intros s arg [res Hin]%calls_made_process. exact (Hroles _ Hin). }
  split.
  { intros s arg [res Hin]%calls_made_filter. exact (Hroles _ Hin). }
  split.
  { apply (replays_emitted (run_parse_process_loop ext a) (fun _ => True)).
    apply replays_run_parse_process_loop. }
  split.
  { intros Hdb Himport Hparse.
    rewrite process_args_eq, Hdb, Hload, Himport, Hparse. fold run.
    by destruct run as [[[]|e] st2]. }
  destruct (hoare_trace _ _ _ _ st (process_args_roles ext a) I) as [_ Hall].
  rewrite Forall_forall in Hall.
  split; intros s arg res Hnot Hin; apply Hnot; exact (Hall _ Hin).
Qed.

Lemma role_follows_flag_witness :
  let run := run_parse_process_loop Demo.ext demo_args_roles
                                    demo_roles_loaded in
  let new := emitted (run_parse_process_loop Demo.ext demo_args_roles)
                     demo_roles_loaded in
  (forall s arg, (s, "process_capture", arg) ∈ calls_made new ->
                 s ∈ ["store.py"])
  /\ (forall s arg, (s, "capture_filter", arg) ∈ calls_made new ->
                    s ∈ ["both.py"])
  /\ replay (scripts demo_roles_loaded) new (world demo_roles_loaded)
     = Some (world (snd run))
  /\ snd (process_args Demo.ext demo_args_roles (init Demo.w0)) = snd run
  /\ journal_count "both: process_capture" (world (snd run)) = 0
  /\ journal_count "both: capture_filter" (world (snd run)) = 3
  /\ journal_count "store: process_capture" (world (snd run)) = 3.
Proof.
  destruct (role_follows_flag Demo.ext demo_args_roles (init Demo.w0)
              demo_roles_loaded)
    as (_ & _ & _ & Hprocess & Hfilter & Hreplay & Hrun & _).
  - vm_compute. reflexivity.
  - cbv zeta. split; [exact Hprocess|]. split; [exact Hfilter|].
    split; [exact Hreplay|].
    split; [apply Hrun; reflexivity|].
    vm_compute. repeat split; reflexivity.
Defined.
